(** * Coalition-forming greedy list scheduler: model and verification

    A shallow embedding of [src/models.py] and [src/heuristics.py], and of
    the file names of [src/data_loader.py], in three parts: the model (the code, function by function), the vocabulary of the
    specification with example instances, and the proofs.

    Conventions of the embedding.
    - Python [int] identifiers (the ids that [range] produces, the ids of the
      precedence pairs) are [nat]; entries of the skill and requirement
      vectors are [Z] (the code compares them with [== 1] and [== 0]).
    - Times are modelled twice.  The first transcription of the scheduler
      takes them as exact rationals [Q], with [float('inf')] the
      constructor [PosInf] of [etime]: it has no rounding, no overflow and
      no NaN, and serves the properties of order and structure.  Module
      [OnFloats] is the same code on IEEE 754 doubles ([spec_float] of the
      Standard Library), with the rounding of [+], the overflow to [inf],
      the comparison with [inf] and NaN, and the [OverflowError] of
      [float + int]; what depends on the arithmetic is stated there.  In
      both, a time of the raw data is a rational: the value of a finite
      JSON number.
    - A Python exception is the outcome [Raise]; the two [while] loops are
      run on a fuel counter whose exhaustion is the outcome [OutOfFuel]
      (proved never to happen for the fuel the top-level functions supply).
    - [set] is [gset], [dict] is [gmap]; the keys [str(i)] of
      [robot_schedules] are modelled by the number [i] they print.
    - [list.remove(x)] compares objects by identity; the model compares
      records, which is the same as long as equal records are one object (ids
      are distinct), and in every case removes the element the code removes:
      the one it selected first.
    - The code is given twice: on values ([find_minimal_coalition],
      [greedy_heuristic]), and on a store in which the lists of tasks and of
      robots are shared objects ([OnStore]); the second is proved to agree
      with the first and to leave the problem object untouched. *)

From Stdlib Require Import QArith Lqa String.
From Stdlib Require Decimal DecimalFacts DecimalPos DecimalZ DecimalString SpecFloat.
From stdpp Require Import gmap list.

Set Default Proof Using "Type".
#[local] Set Warnings "-clear-no-such-hyp".

(** ** Outcomes of a Python computation *)

(** [SystemError] is what the interpreter raises on an internal error; here
    it stands for the use of a reference to no object, which Python cannot
    form.  [OverflowError] is what [float + int] raises for an [int] beyond
    the range of the doubles. *)
Inductive exn : Set := IndexError | KeyError | ValueError | SystemError | OverflowError.

Inductive outcome (A : Type) : Type :=
| Ret (a : A)
| Raise (e : exn)
| OutOfFuel.
Arguments Ret {A} a.
Arguments Raise {A} e.
Arguments OutOfFuel {A}.

Definition obind {A B} (m : outcome A) (k : A -> outcome B) : outcome B :=
  match m with
  | Ret a => k a
  | Raise e => Raise e
  | OutOfFuel => OutOfFuel
  end.

Notation "'let!' x ':=' m 'in' k" := (obind m (fun x => k))
  (at level 10, x name, m at level 100, k at level 200).

(** [xs[i]] for a non-negative index. *)
Definition index {A} (xs : list A) (i : nat) : outcome A :=
  match xs !! i with
  | Some x => Ret x
  | None => Raise IndexError
  end.

(** [xs[i] = v] for a non-negative index. *)
Definition setitem {A} (xs : list A) (i : nat) (v : A) : outcome (list A) :=
  if decide (i < length xs) then Ret (<[i := v]> xs) else Raise IndexError.

(** A list comprehension [[f(x) for x in xs]] whose body may raise. *)
Fixpoint comprehension {A B} (f : A -> outcome B) (xs : list A) : outcome (list B) :=
  match xs with
  | [] => Ret []
  | x :: rest =>
      let! y := f x in
      let! ys := comprehension f rest in
      Ret (y :: ys)
  end.

(** [xs.remove(x)]: drops the first element equal to [x]. *)
Fixpoint list_remove `{EqDecision A} (x : A) (xs : list A) : outcome (list A) :=
  match xs with
  | [] => Raise ValueError
  | y :: rest =>
      if decide (y = x) then Ret rest
      else let! rest' := list_remove x rest in Ret (y :: rest')
  end.

(** ** Times *)

Global Instance Q_eq_dec : EqDecision Q.
Proof. solve_decision. Defined.

(** [max(a, b)]: the first argument unless the second is strictly greater. *)
Definition pymax (a b : Q) : Q :=
  if Qlt_le_dec a b then b else a.

(** The running maximum of [max(iterable)] once a first item is known. *)
Definition max_from (first : Q) (rest : list Q) : Q := foldl pymax first rest.

(** [max(xs)] on a list: raises [ValueError] when [xs] is empty. *)
Definition max_list (xs : list Q) : outcome Q :=
  match xs with
  | [] => Raise ValueError
  | x :: rest => Ret (max_from x rest)
  end.

(** [max(xs, default=d)]. *)
Definition max_default (xs : list Q) (d : Q) : Q :=
  match xs with
  | [] => d
  | x :: rest => max_from x rest
  end.

(** A float that may be [float('inf')]. *)
Inductive etime : Set := Finite (q : Q) | PosInf.

(** [x < e] for a finite [x]. *)
Definition lt_etime (x : Q) (e : etime) : bool :=
  match e with
  | Finite y => if Qlt_le_dec x y then true else false
  | PosInf => true
  end.

(** ** The problem model ([src/models.py]) *)

Module Task.
Record t : Type := mk {
  id : nat;
  execution_time : Q;
  location : list Z;
  requirements : list Z;
  is_dummy : bool
}.

Global Instance eq_dec : EqDecision t.
Proof. solve_decision. Defined.
End Task.

Module Robot.
Record t : Type := mk {
  id : nat;
  skills : list Z
}.

Global Instance eq_dec : EqDecision t.
Proof. solve_decision. Defined.

(** The loop of [has_skills] from index [i] on, [required] being the part
    of the requirement vector that is still to be visited. *)
Fixpoint has_skills_from (sk : list Z) (i : nat) (required : list Z) : outcome bool :=
  match required with
  | [] => Ret true
  | req :: rest =>
      if decide (req = 1%Z) then
        let! s := index sk i in
        if decide (s = 0%Z) then Ret false
        else has_skills_from sk (S i) rest
      else has_skills_from sk (S i) rest
  end.

Definition has_skills (self : t) (required_skills : list Z) : outcome bool :=
  has_skills_from (skills self) 0 required_skills.
End Robot.

(** The dictionary handed to [ProblemInstance.__init__]; a missing key is the
    empty list, as [data.get(key, [])] makes it. *)
Record RawData : Type := {
  T_t : list (list Q);
  raw_precedence_constraints : list (nat * nat);
  T_e : list Q;
  task_locations : list (list Z);
  R : list (list Z);
  Q_ : list (list Z)
}.

Module ProblemInstance.
Record t : Type := mk {
  tasks : list Task.t;
  robots : list Robot.t;
  travel_times : list (list Q);
  precedence_constraints : gmap nat (list nat)
}.

Definition num_robots (self : t) : nat := length (robots self).

Definition get_real_tasks (self : t) : list Task.t :=
  filter (fun t => Task.is_dummy t = false) (tasks self).

(** The loop over the raw [pre, suc] pairs. *)
Definition add_precedence (m : gmap nat (list nat)) (pair : nat * nat)
  : gmap nat (list nat) :=
  let '(pre, suc) := pair in
  let m' := match m !! suc with Some _ => m | None => <[suc := []]> m end in
  <[suc := default [] (m' !! suc) ++ [pre]]> m'.

Definition build_task (data : RawData) (num_tasks_total i : nat) : outcome Task.t :=
  let dummy := bool_decide (i = 0)
               || (bool_decide (i = num_tasks_total - 1) && bool_decide (1 < num_tasks_total)) in
  let! e := index (T_e data) i in
  let! loc := index (task_locations data) i in
  let! req := index (R data) i in
  Ret (Task.mk i e loc req dummy).

Definition build_robot (data : RawData) (i : nat) : outcome Robot.t :=
  let! sk := index (Q_ data) i in
  Ret (Robot.mk i sk).

Definition init (data : RawData) : outcome t :=
  let prec := foldl add_precedence ∅ (raw_precedence_constraints data) in
  let num_tasks_total := length (T_e data) in
  let! ts := comprehension (build_task data num_tasks_total) (seq 0 num_tasks_total) in
  let! rs := comprehension (build_robot data) (seq 0 (length (Q_ data))) in
  Ret (mk ts rs (T_t data) prec).
End ProblemInstance.

(** ** The coalition finder ([find_minimal_coalition]) *)

(** [[i for i, x in enumerate(v) if x == 1]], counting from [i]. *)
Fixpoint ones_from (i : nat) (v : list Z) : list nat :=
  match v with
  | [] => []
  | x :: rest =>
      if decide (x = 1%Z) then i :: ones_from (S i) rest
      else ones_from (S i) rest
  end.

Definition ones (v : list Z) : gset nat := list_to_set (ones_from 0 v).

(** [any(req == 1 for req in required_skills)]. *)
Definition any_required (required_skills : list Z) : bool :=
  existsb (fun req => bool_decide (req = 1%Z)) required_skills.

(** The first [for] loop: the first robot with all the required skills. *)
Fixpoint first_capable (required_skills : list Z) (robots : list Robot.t)
  : outcome (option Robot.t) :=
  match robots with
  | [] => Ret None
  | robot :: rest =>
      let! b := Robot.has_skills robot required_skills in
      if b then Ret (Some robot) else first_capable required_skills rest
  end.

(** One turn of the inner [for] loop over [available_robots]; the
    accumulator is [(best_robot, skills_covered_by_best)]. *)
Definition better (uncovered_skills : gset nat)
    (acc : option Robot.t * gset nat) (robot : Robot.t) : option Robot.t * gset nat :=
  let covered_by_this_robot := uncovered_skills ∩ ones (Robot.skills robot) in
  if decide (size acc.2 < size covered_by_this_robot)
  then (Some robot, covered_by_this_robot)
  else acc.

Definition find_best (uncovered_skills : gset nat) (available_robots : list Robot.t)
  : option Robot.t * gset nat :=
  foldl (better uncovered_skills) (None, ∅) available_robots.

(** The [while uncovered_skills] loop. *)
Fixpoint cover_loop (fuel : nat) (uncovered_skills : gset nat)
    (coalition available_robots : list Robot.t) : outcome (option (list Robot.t)) :=
  if decide (uncovered_skills = ∅) then Ret (Some coalition)
  else
    match fuel with
    | 0 => OutOfFuel
    | S fuel' =>
        match find_best uncovered_skills available_robots with
        | (Some best_robot, skills_covered_by_best) =>
            let coalition' := coalition ++ [best_robot] in
            let uncovered' := uncovered_skills ∖ skills_covered_by_best in
            let! available' := list_remove best_robot available_robots in
            cover_loop fuel' uncovered' coalition' available'
        | (None, _) => Ret None
        end
    end.

(** [None] is Python's [None] (no coalition exists), [Some []] the empty
    coalition. *)
Definition find_minimal_coalition (task : Task.t) (robots : list Robot.t)
  : outcome (option (list Robot.t)) :=
  let required_skills := Task.requirements task in
  if negb (any_required required_skills) then Ret (Some [])
  else
    let! single := first_capable required_skills robots in
    match single with
    | Some robot => Ret (Some [robot])
    | None =>
        cover_loop (S (length robots)) (ones required_skills) [] robots
    end.

(** ** The list scheduler ([greedy_heuristic]) *)

(** A [for] loop whose body updates an accumulator and may raise. *)
Fixpoint for_each {S A} (body : S -> A -> outcome S) (s : S) (xs : list A) : outcome S :=
  match xs with
  | [] => Ret s
  | x :: rest => let! s' := body s x in for_each body s' rest
  end.

(** An entry [{"task", "start_time", "end_time"}] of a robot's schedule. *)
Module Entry.
Record t : Type := mk {
  task : nat;
  start_time : Q;
  end_time : Q
}.
End Entry.

(** The dictionary held in [best_assignment]; [C] is what stands for the
    list object under ["coalition"]: the list itself in [t]. *)
Module Assignment.
Record gen (C : Type) : Type := mk {
  task : Task.t;
  coalition : C;
  start_time : Q;
  finish_time : Q
}.
Arguments mk {C}.
Arguments task {C}.
Arguments coalition {C}.
Arguments start_time {C}.
Arguments finish_time {C}.

Abbreviation t := (gen (list Robot.t)).
End Assignment.

(** The local variables of [greedy_heuristic] that live across iterations
    of the [while] loop, and what has been printed; [L] is what stands for
    the list object [tasks_to_schedule]: the list itself in [t]. *)
Module State.
Record gen (L : Type) : Type := mk {
  robot_available_time : list Q;
  robot_current_location : list nat;
  tasks_to_schedule : L;
  scheduled_task_ids : gset nat;
  task_finish_times : gmap nat Q;
  robot_schedules : gmap nat (list Entry.t);
  stdout : list string
}.
Arguments mk {L}.
Arguments robot_available_time {L}.
Arguments robot_current_location {L}.
Arguments tasks_to_schedule {L}.
Arguments scheduled_task_ids {L}.
Arguments task_finish_times {L}.
Arguments robot_schedules {L}.
Arguments stdout {L}.

Abbreviation t := (gen (list Task.t)).
End State.

Module Result.
Record t : Type := mk {
  makespan : Q;
  n_tasks : nat;
  n_robots : nat;
  robot_schedules : gmap nat (list Entry.t)
}.
End Result.

Definition warning : string :=
  "Warning: Heuristic failed. Could not find a valid assignment for remaining tasks.".

(** The initial values of the locals, for [n] robots. *)
Definition initial_locals {L} (n : nat) (tasks_to_schedule : L) : State.gen L :=
  {| State.robot_available_time := replicate n 0%Q;
     State.robot_current_location := replicate n 0;
     State.tasks_to_schedule := tasks_to_schedule;
     State.scheduled_task_ids := {[0]};
     State.task_finish_times := {[0 := 0%Q]};
     State.robot_schedules := list_to_map ((fun i => (i, [])) <$> seq 0 n);
     State.stdout := [] |}.

Definition initial_state (problem : ProblemInstance.t) : State.t :=
  initial_locals (ProblemInstance.num_robots problem)
                 (ProblemInstance.get_real_tasks problem).

(** Python's truth value of what [find_minimal_coalition] returned: both
    [None] and the empty list are false. *)
Definition truthy (coalition : option (list Robot.t)) : bool :=
  match coalition with
  | Some (_ :: _) => true
  | _ => false
  end.

(** [robot_available_time[r.id] +
     problem.travel_times[robot_current_location[r.id]][task.id]]. *)
Definition arrival_time {L} (problem : ProblemInstance.t) (st : State.gen L)
    (task : Task.t) (r : Robot.t) : outcome Q :=
  let! free := index (State.robot_available_time st) (Robot.id r) in
  let! here := index (State.robot_current_location st) (Robot.id r) in
  let! row := index (ProblemInstance.travel_times problem) here in
  let! travel := index row (Task.id task) in
  Ret (free + travel)%Q.

(** [all(p in scheduled_task_ids for p in predecessors)]. *)
Definition all_scheduled {L} (st : State.gen L) (predecessors : list nat) : bool :=
  forallb (fun p => bool_decide (p ∈ State.scheduled_task_ids st)) predecessors.

Definition predecessors_of (problem : ProblemInstance.t) (task : Task.t) : list nat :=
  default [] (ProblemInstance.precedence_constraints problem !! Task.id task).

Definition max_pred_finish_time {L} (st : State.gen L) (predecessors : list nat) : Q :=
  max_default ((fun p => default 0%Q (State.task_finish_times st !! p)) <$> predecessors) 0%Q.

(** The body of [for task in tasks_to_schedule] up to the computation of
    [finish_time]: the assignment this task offers in this round, if any. *)
Definition candidate (problem : ProblemInstance.t) (st : State.t) (task : Task.t)
  : outcome (option Assignment.t) :=
  let predecessors := predecessors_of problem task in
  if negb (all_scheduled st predecessors) then Ret None
  else
    let max_pred := max_pred_finish_time st predecessors in
    let! coalition := find_minimal_coalition task (ProblemInstance.robots problem) in
    if truthy coalition then
      let members := default [] coalition in
      let! coalition_arrival_times := comprehension (arrival_time problem st task) members in
      let! coalition_ready_time := max_list coalition_arrival_times in
      let start_time := pymax coalition_ready_time max_pred in
      let finish_time := (start_time + Task.execution_time task)%Q in
      Ret (Some (Assignment.mk task members start_time finish_time))
    else Ret None.

(** The rest of the body: keep the candidate when it finishes strictly
    earlier than the best so far.  The accumulator is
    [(best_assignment, earliest_finish_time)]. *)
Definition consider (problem : ProblemInstance.t) (st : State.t)
    (acc : option Assignment.t * etime) (task : Task.t)
  : outcome (option Assignment.t * etime) :=
  let! c := candidate problem st task in
  match c with
  | Some a =>
      if lt_etime (Assignment.finish_time a) acc.2
      then Ret (Some a, Finite (Assignment.finish_time a))
      else Ret acc
  | None => Ret acc
  end.

Definition select_best (problem : ProblemInstance.t) (st : State.t)
  : outcome (option Assignment.t * etime) :=
  for_each (consider problem st) (None, PosInf) (State.tasks_to_schedule st).

(** The body of [for robot in coalition] when an assignment is committed. *)
Definition commit_robot {C L} (a : Assignment.gen C) (st : State.gen L) (robot : Robot.t)
  : outcome (State.gen L) :=
  let i := Robot.id robot in
  let! free := setitem (State.robot_available_time st) i (Assignment.finish_time a) in
  let! here := setitem (State.robot_current_location st) i (Task.id (Assignment.task a)) in
  match State.robot_schedules st !! i with
  | None => Raise KeyError
  | Some entries =>
      let entry := Entry.mk (Task.id (Assignment.task a))
                            (Assignment.start_time a) (Assignment.finish_time a) in
      Ret {| State.robot_available_time := free;
             State.robot_current_location := here;
             State.tasks_to_schedule := State.tasks_to_schedule st;
             State.scheduled_task_ids := State.scheduled_task_ids st;
             State.task_finish_times := State.task_finish_times st;
             State.robot_schedules := <[i := entries ++ [entry]]> (State.robot_schedules st);
             State.stdout := State.stdout st |}
  end.

(** The branch [if best_assignment:]. *)
Definition commit (a : Assignment.t) (st : State.t) : outcome State.t :=
  let! st1 := for_each (commit_robot a) st (Assignment.coalition a) in
  let i := Task.id (Assignment.task a) in
  let! remaining := list_remove (Assignment.task a) (State.tasks_to_schedule st1) in
  Ret {| State.robot_available_time := State.robot_available_time st1;
         State.robot_current_location := State.robot_current_location st1;
         State.tasks_to_schedule := remaining;
         State.scheduled_task_ids := {[i]} ∪ State.scheduled_task_ids st1;
         State.task_finish_times := <[i := Assignment.finish_time a]> (State.task_finish_times st1);
         State.robot_schedules := State.robot_schedules st1;
         State.stdout := State.stdout st1 |}.

(** The [else] branch up to its [break]. *)
Definition abandon (st : State.t) : State.t :=
  match State.tasks_to_schedule st with
  | [] => st
  | _ :: _ =>
      {| State.robot_available_time := State.robot_available_time st;
         State.robot_current_location := State.robot_current_location st;
         State.tasks_to_schedule := State.tasks_to_schedule st;
         State.scheduled_task_ids := State.scheduled_task_ids st;
         State.task_finish_times := State.task_finish_times st;
         State.robot_schedules := State.robot_schedules st;
         State.stdout := State.stdout st ++ [warning] |}
  end.

(** How one iteration of the [while] loop ends. *)
Inductive iteration (A S : Type) : Type :=
| Committed (a : A) (st' : S)
| Break (st' : S).
Arguments Committed {A S}.
Arguments Break {A S}.

Definition loop_body (problem : ProblemInstance.t) (st : State.t)
  : outcome (iteration Assignment.t State.t) :=
  let! best := select_best problem st in
  match best.1 with
  | Some a => let! st' := commit a st in Ret (Committed a st')
  | None => Ret (Break (abandon st))
  end.

(** [while len(tasks_to_schedule) > 0]. *)
Fixpoint main_loop (fuel : nat) (problem : ProblemInstance.t) (st : State.t)
  : outcome State.t :=
  match State.tasks_to_schedule st with
  | [] => Ret st
  | _ :: _ =>
      match fuel with
      | 0 => OutOfFuel
      | S fuel' =>
          let! it := loop_body problem st in
          match it with
          | Committed _ st' => main_loop fuel' problem st'
          | Break st' => Ret st'
          end
      end
  end.

(** The state of the locals when the [while] loop is left. *)
Definition run (problem : ProblemInstance.t) : outcome State.t :=
  main_loop (length (ProblemInstance.get_real_tasks problem)) problem
            (initial_state problem).

(** [max(robot_available_time) if robot_available_time else 0.0]. *)
Definition makespan_of (robot_available_time : list Q) : outcome Q :=
  match robot_available_time with
  | [] => Ret 0%Q
  | _ :: _ => max_list robot_available_time
  end.

Definition result_of (problem : ProblemInstance.t) (st : State.t) : outcome Result.t :=
  let! makespan := makespan_of (State.robot_available_time st) in
  Ret {| Result.makespan := makespan;
         Result.n_tasks := length (ProblemInstance.get_real_tasks problem);
         Result.n_robots := ProblemInstance.num_robots problem;
         Result.robot_schedules := State.robot_schedules st |}.

Definition greedy_heuristic (problem : ProblemInstance.t) : outcome Result.t :=
  let! st := run problem in
  result_of problem st.

(** ** The same code over a store of list objects

    The lists of [Task] and [Robot] objects are what [greedy_heuristic]
    obtains from the problem ([problem.get_real_tasks()], [problem.robots],
    [list(robots)]) and then mutates ([remove], [append]).  Here they are
    objects of a store and the code handles references to them, so that a
    mutation through an alias of [problem.tasks] or [problem.robots] shows
    in the problem.  The containers that the code builds from literals
    ([[0.0] * n], [{0}], [{0: 0.0}], the dictionary of schedules, the set of
    uncovered skills) stay values, and so do the [Task] and [Robot] objects
    with their vectors, the travel times and the precedence map, none of
    which the code assigns to or calls a mutating method on. *)

Module Store.
Inductive task_list_ref : Set := ProblemTasks | LocalTasks (n : nat).
Inductive robot_list_ref : Set := ProblemRobots | LocalRobots (n : nat).

(** The attributes of the problem object, and the lists allocated since. *)
Record t : Type := mk {
  problem : ProblemInstance.t;
  task_lists : list (list Task.t);
  robot_lists : list (list Robot.t)
}.
End Store.

(** A computation that reads and writes the store. *)
Definition stateful (A : Type) : Type := Store.t -> outcome (A * Store.t).

Definition sret {A} (a : A) : stateful A := fun s => Ret (a, s).

Definition sbind {A B} (m : stateful A) (k : A -> stateful B) : stateful B :=
  fun s =>
    match m s with
    | Ret (a, s') => k a s'
    | Raise e => Raise e
    | OutOfFuel => OutOfFuel
    end.

Notation "'let*' x ':=' m 'in' k" := (sbind m (fun x => k))
  (at level 10, x name, m at level 100, k at level 200).

(** A computation that does not touch the store. *)
Definition lift {A} (o : outcome A) : stateful A :=
  fun s =>
    match o with
    | Ret a => Ret (a, s)
    | Raise e => Raise e
    | OutOfFuel => OutOfFuel
    end.

Definition get_problem : stateful ProblemInstance.t :=
  fun s => Ret (Store.problem s, s).

Definition read_tasks (r : Store.task_list_ref) : stateful (list Task.t) :=
  fun s =>
    match r with
    | Store.ProblemTasks => Ret (ProblemInstance.tasks (Store.problem s), s)
    | Store.LocalTasks n =>
        match Store.task_lists s !! n with
        | Some l => Ret (l, s)
        | None => Raise SystemError
        end
    end.

Definition write_tasks (r : Store.task_list_ref) (l : list Task.t) : stateful unit :=
  fun s =>
    match r with
    | Store.ProblemTasks =>
        let p := Store.problem s in
        Ret (tt, Store.mk (ProblemInstance.mk l (ProblemInstance.robots p)
                             (ProblemInstance.travel_times p)
                             (ProblemInstance.precedence_constraints p))
                          (Store.task_lists s) (Store.robot_lists s))
    | Store.LocalTasks n =>
        if decide (n < length (Store.task_lists s))
        then Ret (tt, Store.mk (Store.problem s) (<[n := l]> (Store.task_lists s))
                               (Store.robot_lists s))
        else Raise SystemError
    end.

Definition alloc_tasks (l : list Task.t) : stateful Store.task_list_ref :=
  fun s =>
    Ret (Store.LocalTasks (length (Store.task_lists s)),
         Store.mk (Store.problem s) (Store.task_lists s ++ [l]) (Store.robot_lists s)).

Definition read_robots (r : Store.robot_list_ref) : stateful (list Robot.t) :=
  fun s =>
    match r with
    | Store.ProblemRobots => Ret (ProblemInstance.robots (Store.problem s), s)
    | Store.LocalRobots n =>
        match Store.robot_lists s !! n with
        | Some l => Ret (l, s)
        | None => Raise SystemError
        end
    end.

Definition write_robots (r : Store.robot_list_ref) (l : list Robot.t) : stateful unit :=
  fun s =>
    match r with
    | Store.ProblemRobots =>
        let p := Store.problem s in
        Ret (tt, Store.mk (ProblemInstance.mk (ProblemInstance.tasks p) l
                             (ProblemInstance.travel_times p)
                             (ProblemInstance.precedence_constraints p))
                          (Store.task_lists s) (Store.robot_lists s))
    | Store.LocalRobots n =>
        if decide (n < length (Store.robot_lists s))
        then Ret (tt, Store.mk (Store.problem s) (Store.task_lists s)
                               (<[n := l]> (Store.robot_lists s)))
        else Raise SystemError
    end.

Definition alloc_robots (l : list Robot.t) : stateful Store.robot_list_ref :=
  fun s =>
    Ret (Store.LocalRobots (length (Store.robot_lists s)),
         Store.mk (Store.problem s) (Store.task_lists s) (Store.robot_lists s ++ [l])).

(** A [for] loop whose body reads and writes the store. *)
Fixpoint for_each_stateful {S A} (body : S -> A -> stateful S) (s : S) (xs : list A)
  : stateful S :=
  match xs with
  | [] => sret s
  | x :: rest => let* s' := body s x in for_each_stateful body s' rest
  end.

Module OnStore.

(** [self.get_real_tasks()]: the comprehension builds a new list. *)
Definition get_real_tasks : stateful Store.task_list_ref :=
  let* all := read_tasks Store.ProblemTasks in
  alloc_tasks (filter (fun t => Task.is_dummy t = false) all).

(** The [while uncovered_skills] loop on the list objects [coalition] and
    [available_robots]. *)
Fixpoint cover_loop (fuel : nat) (uncovered_skills : gset nat)
    (coalition available_robots : Store.robot_list_ref)
  : stateful (option Store.robot_list_ref) :=
  if decide (uncovered_skills = ∅) then sret (Some coalition)
  else
    match fuel with
    | 0 => fun _ => OutOfFuel
    | S fuel' =>
        let* pool := read_robots available_robots in
        match find_best uncovered_skills pool with
        | (Some best_robot, skills_covered_by_best) =>
            let* members := read_robots coalition in
            let* _ := write_robots coalition (members ++ [best_robot]) in
            let* pool' := read_robots available_robots in
            let* rest := lift (list_remove best_robot pool') in
            let* _ := write_robots available_robots rest in
            cover_loop fuel' (uncovered_skills ∖ skills_covered_by_best)
                       coalition available_robots
        | (None, _) => sret None
        end
    end.

(** [find_minimal_coalition(task, robots)] for a reference [robots]; the
    lists it returns ([[]], [[robot]], [coalition]) are new objects, and
    [available_robots = list(robots)] is a copy. *)
Definition find_minimal_coalition (task : Task.t) (robots : Store.robot_list_ref)
  : stateful (option Store.robot_list_ref) :=
  let required_skills := Task.requirements task in
  if negb (any_required required_skills) then
    let* empty := alloc_robots [] in
    sret (Some empty)
  else
    let* roster := read_robots robots in
    let* single := lift (first_capable required_skills roster) in
    match single with
    | Some robot =>
        let* singleton := alloc_robots [robot] in
        sret (Some singleton)
    | None =>
        let* coalition := alloc_robots [] in
        let* roster' := read_robots robots in
        let* available_robots := alloc_robots roster' in
        cover_loop (S (length roster')) (ones required_skills) coalition available_robots
    end.

Abbreviation assignment := (Assignment.gen Store.robot_list_ref).
Abbreviation state := (State.gen Store.task_list_ref).

(** [if coalition:] for what [find_minimal_coalition] returned. *)
Definition truthy (coalition : option Store.robot_list_ref) : stateful bool :=
  match coalition with
  | None => sret false
  | Some r =>
      let* members := read_robots r in
      sret (match members with [] => false | _ :: _ => true end)
  end.

Definition candidate (st : state) (task : Task.t) : stateful (option assignment) :=
  let* problem := get_problem in
  let predecessors := predecessors_of problem task in
  if negb (all_scheduled st predecessors) then sret None
  else
    let max_pred := max_pred_finish_time st predecessors in
    let* coalition := find_minimal_coalition task Store.ProblemRobots in
    let* nonempty := truthy coalition in
    match coalition with
    | Some r =>
        if nonempty then
          let* members := read_robots r in
          let* problem' := get_problem in
          let* coalition_arrival_times :=
            lift (comprehension (arrival_time problem' st task) members) in
          let* coalition_ready_time := lift (max_list coalition_arrival_times) in
          let start_time := pymax coalition_ready_time max_pred in
          let finish_time := (start_time + Task.execution_time task)%Q in
          sret (Some (Assignment.mk task r start_time finish_time))
        else sret None
    | None => sret None
    end.

Definition consider (st : state) (acc : option assignment * etime) (task : Task.t)
  : stateful (option assignment * etime) :=
  let* c := candidate st task in
  match c with
  | Some a =>
      if lt_etime (Assignment.finish_time a) acc.2
      then sret (Some a, Finite (Assignment.finish_time a))
      else sret acc
  | None => sret acc
  end.

Definition select_best (st : state) : stateful (option assignment * etime) :=
  let* pending := read_tasks (State.tasks_to_schedule st) in
  for_each_stateful (consider st) (None, PosInf) pending.

Definition commit (a : assignment) (st : state) : stateful state :=
  let* members := read_robots (Assignment.coalition a) in
  let* st1 := lift (for_each (commit_robot a) st members) in
  let i := Task.id (Assignment.task a) in
  let* pending := read_tasks (State.tasks_to_schedule st1) in
  let* remaining := lift (list_remove (Assignment.task a) pending) in
  let* _ := write_tasks (State.tasks_to_schedule st1) remaining in
  sret {| State.robot_available_time := State.robot_available_time st1;
          State.robot_current_location := State.robot_current_location st1;
          State.tasks_to_schedule := State.tasks_to_schedule st1;
          State.scheduled_task_ids := {[i]} ∪ State.scheduled_task_ids st1;
          State.task_finish_times :=
            <[i := Assignment.finish_time a]> (State.task_finish_times st1);
          State.robot_schedules := State.robot_schedules st1;
          State.stdout := State.stdout st1 |}.

Definition abandon (st : state) : stateful state :=
  let* pending := read_tasks (State.tasks_to_schedule st) in
  match pending with
  | [] => sret st
  | _ :: _ =>
      sret {| State.robot_available_time := State.robot_available_time st;
              State.robot_current_location := State.robot_current_location st;
              State.tasks_to_schedule := State.tasks_to_schedule st;
              State.scheduled_task_ids := State.scheduled_task_ids st;
              State.task_finish_times := State.task_finish_times st;
              State.robot_schedules := State.robot_schedules st;
              State.stdout := State.stdout st ++ [warning] |}
  end.

Definition loop_body (st : state) : stateful (iteration assignment state) :=
  let* best := select_best st in
  match best.1 with
  | Some a => let* st' := commit a st in sret (Committed a st')
  | None => let* st' := abandon st in sret (Break st')
  end.

Fixpoint main_loop (fuel : nat) (st : state) : stateful state :=
  let* pending := read_tasks (State.tasks_to_schedule st) in
  match pending with
  | [] => sret st
  | _ :: _ =>
      match fuel with
      | 0 => fun _ => OutOfFuel
      | S fuel' =>
          let* it := loop_body st in
          match it with
          | Committed _ st' => main_loop fuel' st'
          | Break st' => sret st'
          end
      end
  end.

(** [greedy_heuristic(problem)], [problem] being the problem object of the
    store. *)
Definition greedy_heuristic : stateful Result.t :=
  let* roster := read_robots Store.ProblemRobots in
  let* tasks_to_schedule := get_real_tasks in
  let* pending := read_tasks tasks_to_schedule in
  let* st := main_loop (length pending)
                       (initial_locals (length roster) tasks_to_schedule) in
  let* makespan := lift (makespan_of (State.robot_available_time st)) in
  let* real := get_real_tasks in
  let* real_tasks := read_tasks real in
  let* roster' := read_robots Store.ProblemRobots in
  sret {| Result.makespan := makespan;
          Result.n_tasks := length real_tasks;
          Result.n_robots := length roster';
          Result.robot_schedules := State.robot_schedules st |}.

End OnStore.

(** ** The list scheduler on doubles

    The same code with the arithmetic of the interpreter: a Python [float]
    is an IEEE 754 binary64 number, [spec_float] with precision 53 and
    maximal exponent 1024 of the Standard Library, and [+], [<] and [max]
    are its operations.  The numbers of the raw data stay the rationals of
    [RawData]: a rational stands for the finite JSON number of that value,
    an [int] or a [float]; [to_float] is the double that [x + n] makes of
    such a number [n] (the number itself when it is a double, the nearest
    double for another [int], [OverflowError] for an [int] beyond the range
    of the doubles).  The sign of a zero of the data is not kept: the times
    of the state start at [0.0], so that no sum of the code is [-0.0], and
    [<] and [max] do not tell the two zeros apart.  The non-finite numbers
    that [json.load] accepts ([Infinity], [NaN], a literal beyond the range
    of the doubles) are not numbers of this model. *)

Module OnFloats.
Import SpecFloat.

Definition float : Set := spec_float.

Definition prec : Z := 53.
Definition emax : Z := 1024.

(** [x + y] on floats. *)
Definition fadd (x y : float) : float := SFadd prec emax x y.

(** [x < y] on floats; [y > x] is the same test. *)
Definition flt (x y : float) : bool := SFltb x y.

(** [float('inf')] and [0.0]. *)
Definition inf : float := S754_infinity false.
Definition zero : float := S754_zero false.

(** The exponent [k] of the denominator [2^k]. *)
Fixpoint power_of_two (p : positive) : option Z :=
  match p with
  | xH => Some 0%Z
  | xO p' => Z.succ <$> power_of_two p'
  | xI _ => None
  end.

(** The double nearest to [m * 2^e]. *)
Definition nearest (m e : Z) : float := binary_normalize prec emax m e false.

(** The double nearest to the rational [q]: [q] itself when it is one.  A
    rational whose denominator is no power of two is neither an [int] nor
    a double; it is divided out in doubles. *)
Definition of_number (q : Q) : float :=
  match power_of_two (Qden q) with
  | Some k => nearest (Qnum q) (- k)
  | None => SFdiv prec emax (nearest (Qnum q) 0) (nearest (Z.pos (Qden q)) 0)
  end.

(** The right operand of [x + n] for a finite JSON number [n]. *)
Definition to_float (n : Q) : outcome float :=
  match of_number n with
  | S754_infinity _ => Raise OverflowError
  | f => Ret f
  end.

(** [max(a, b)]: the first argument unless the second is greater. *)
Definition fmax (a b : float) : float := if flt a b then b else a.

(** [max(xs)] on a list: raises [ValueError] when [xs] is empty. *)
Definition max_list (xs : list float) : outcome float :=
  match xs with
  | [] => Raise ValueError
  | x :: rest => Ret (foldl fmax x rest)
  end.

(** [max(xs, default=d)]. *)
Definition max_default (xs : list float) (d : float) : float :=
  match xs with
  | [] => d
  | x :: rest => foldl fmax x rest
  end.

Module Entry.
Record t : Type := mk {
  task : nat;
  start_time : float;
  end_time : float
}.
End Entry.

Module Assignment.
Record t : Type := mk {
  task : Task.t;
  coalition : list Robot.t;
  start_time : float;
  finish_time : float
}.
End Assignment.

Module State.
Record t : Type := mk {
  robot_available_time : list float;
  robot_current_location : list nat;
  tasks_to_schedule : list Task.t;
  scheduled_task_ids : gset nat;
  task_finish_times : gmap nat float;
  robot_schedules : gmap nat (list Entry.t);
  stdout : list string
}.
End State.

Module Result.
Record t : Type := mk {
  makespan : float;
  n_tasks : nat;
  n_robots : nat;
  robot_schedules : gmap nat (list Entry.t)
}.
End Result.

Definition initial_state (problem : ProblemInstance.t) : State.t :=
  let n := ProblemInstance.num_robots problem in
  {| State.robot_available_time := replicate n zero;
     State.robot_current_location := replicate n 0;
     State.tasks_to_schedule := ProblemInstance.get_real_tasks problem;
     State.scheduled_task_ids := {[0]};
     State.task_finish_times := {[0 := zero]};
     State.robot_schedules := list_to_map ((fun i => (i, [])) <$> seq 0 n);
     State.stdout := [] |}.

(** [robot_available_time[r.id] +
     problem.travel_times[robot_current_location[r.id]][task.id]]. *)
Definition arrival_time (problem : ProblemInstance.t) (st : State.t)
    (task : Task.t) (r : Robot.t) : outcome float :=
  let! free := index (State.robot_available_time st) (Robot.id r) in
  let! here := index (State.robot_current_location st) (Robot.id r) in
  let! row := index (ProblemInstance.travel_times problem) here in
  let! travel := index row (Task.id task) in
  let! travel' := to_float travel in
  Ret (fadd free travel').

(** [all(p in scheduled_task_ids for p in predecessors)]. *)
Definition all_scheduled (st : State.t) (predecessors : list nat) : bool :=
  forallb (fun p => bool_decide (p ∈ State.scheduled_task_ids st)) predecessors.

(** [max((task_finish_times.get(p, 0) for p in predecessors), default=0.0)].
    The default of [get] is the [int] [0]; it equals [0.0] in every
    comparison, and it is never used: the code reaches this line only with
    every [p] in [scheduled_task_ids], to which an id is added together
    with its finish time. *)
Definition max_pred_finish_time (st : State.t) (predecessors : list nat) : float :=
  max_default ((fun p => default zero (State.task_finish_times st !! p)) <$> predecessors)
              zero.

Definition candidate (problem : ProblemInstance.t) (st : State.t) (task : Task.t)
  : outcome (option Assignment.t) :=
  let predecessors := predecessors_of problem task in
  if negb (all_scheduled st predecessors) then Ret None
  else
    let max_pred := max_pred_finish_time st predecessors in
    let! coalition := find_minimal_coalition task (ProblemInstance.robots problem) in
    if truthy coalition then
      let members := default [] coalition in
      let! coalition_arrival_times := comprehension (arrival_time problem st task) members in
      let! coalition_ready_time := max_list coalition_arrival_times in
      let start_time := fmax coalition_ready_time max_pred in
      let! execution_time := to_float (Task.execution_time task) in
      let finish_time := fadd start_time execution_time in
      Ret (Some (Assignment.mk task members start_time finish_time))
    else Ret None.

(** The accumulator is [(best_assignment, earliest_finish_time)]. *)
Definition consider (problem : ProblemInstance.t) (st : State.t)
    (acc : option Assignment.t * float) (task : Task.t)
  : outcome (option Assignment.t * float) :=
  let! c := candidate problem st task in
  match c with
  | Some a =>
      if flt (Assignment.finish_time a) acc.2
      then Ret (Some a, Assignment.finish_time a)
      else Ret acc
  | None => Ret acc
  end.

Definition select_best (problem : ProblemInstance.t) (st : State.t)
  : outcome (option Assignment.t * float) :=
  for_each (consider problem st) (None, inf) (State.tasks_to_schedule st).

Definition commit_robot (a : Assignment.t) (st : State.t) (robot : Robot.t)
  : outcome State.t :=
  let i := Robot.id robot in
  let! free := setitem (State.robot_available_time st) i (Assignment.finish_time a) in
  let! here := setitem (State.robot_current_location st) i (Task.id (Assignment.task a)) in
  match State.robot_schedules st !! i with
  | None => Raise KeyError
  | Some entries =>
      let entry := Entry.mk (Task.id (Assignment.task a))
                            (Assignment.start_time a) (Assignment.finish_time a) in
      Ret {| State.robot_available_time := free;
             State.robot_current_location := here;
             State.tasks_to_schedule := State.tasks_to_schedule st;
             State.scheduled_task_ids := State.scheduled_task_ids st;
             State.task_finish_times := State.task_finish_times st;
             State.robot_schedules := <[i := entries ++ [entry]]> (State.robot_schedules st);
             State.stdout := State.stdout st |}
  end.

Definition commit (a : Assignment.t) (st : State.t) : outcome State.t :=
  let! st1 := for_each (commit_robot a) st (Assignment.coalition a) in
  let i := Task.id (Assignment.task a) in
  let! remaining := list_remove (Assignment.task a) (State.tasks_to_schedule st1) in
  Ret {| State.robot_available_time := State.robot_available_time st1;
         State.robot_current_location := State.robot_current_location st1;
         State.tasks_to_schedule := remaining;
         State.scheduled_task_ids := {[i]} ∪ State.scheduled_task_ids st1;
         State.task_finish_times := <[i := Assignment.finish_time a]> (State.task_finish_times st1);
         State.robot_schedules := State.robot_schedules st1;
         State.stdout := State.stdout st1 |}.

Definition abandon (st : State.t) : State.t :=
  match State.tasks_to_schedule st with
  | [] => st
  | _ :: _ =>
      {| State.robot_available_time := State.robot_available_time st;
         State.robot_current_location := State.robot_current_location st;
         State.tasks_to_schedule := State.tasks_to_schedule st;
         State.scheduled_task_ids := State.scheduled_task_ids st;
         State.task_finish_times := State.task_finish_times st;
         State.robot_schedules := State.robot_schedules st;
         State.stdout := State.stdout st ++ [warning] |}
  end.

Definition loop_body (problem : ProblemInstance.t) (st : State.t)
  : outcome (iteration Assignment.t State.t) :=
  let! best := select_best problem st in
  match best.1 with
  | Some a => let! st' := commit a st in Ret (Committed a st')
  | None => Ret (Break (abandon st))
  end.

Fixpoint main_loop (fuel : nat) (problem : ProblemInstance.t) (st : State.t)
  : outcome State.t :=
  match State.tasks_to_schedule st with
  | [] => Ret st
  | _ :: _ =>
      match fuel with
      | 0 => OutOfFuel
      | S fuel' =>
          let! it := loop_body problem st in
          match it with
          | Committed _ st' => main_loop fuel' problem st'
          | Break st' => Ret st'
          end
      end
  end.

Definition run (problem : ProblemInstance.t) : outcome State.t :=
  main_loop (length (ProblemInstance.get_real_tasks problem)) problem
            (initial_state problem).

(** [max(robot_available_time) if robot_available_time else 0.0]. *)
Definition makespan_of (robot_available_time : list float) : outcome float :=
  match robot_available_time with
  | [] => Ret zero
  | _ :: _ => max_list robot_available_time
  end.

Definition result_of (problem : ProblemInstance.t) (st : State.t) : outcome Result.t :=
  let! makespan := makespan_of (State.robot_available_time st) in
  Ret {| Result.makespan := makespan;
         Result.n_tasks := length (ProblemInstance.get_real_tasks problem);
         Result.n_robots := ProblemInstance.num_robots problem;
         Result.robot_schedules := State.robot_schedules st |}.

Definition greedy_heuristic (problem : ProblemInstance.t) : outcome Result.t :=
  let! st := run problem in
  result_of problem st.
End OnFloats.

(** ** The files of an instance ([src/data_loader.py]) *)

Module DataLoader.
Import Ascii.
Local Open Scope string_scope.

(** The digits [d] behind as many zeros as [width] asks for. *)
Definition zero_padded (width : nat) (d : Decimal.uint) : Decimal.uint :=
  Nat.iter (width - Decimal.nb_digits d) Decimal.D0 d.

(** [f"{n:06d}"]: the decimal digits of [n], padded with zeros to six
    characters, the sign of a negative number taking the first. *)
Definition format_06d (n : Z) : string :=
  match Z.to_int n with
  | Decimal.Pos d => DecimalString.NilEmpty.string_of_uint (zero_padded 6 d)
  | Decimal.Neg d => String "-"%char (DecimalString.NilEmpty.string_of_uint (zero_padded 5 d))
  end.

Definition problem_filename (instance_id : Z) : string :=
  "problem_instance_1p_" ++ format_06d instance_id ++ ".json".

Definition solution_filename (instance_id : Z) : string :=
  "optimal_schedule_1p_" ++ format_06d instance_id ++ ".json".

Definition starts_with_slash (s : string) : bool :=
  match s with
  | String c _ => Ascii.eqb c "/"%char
  | EmptyString => false
  end.

Fixpoint ends_with_slash (s : string) : bool :=
  match s with
  | EmptyString => false
  | String c EmptyString => Ascii.eqb c "/"%char
  | String _ rest => ends_with_slash rest
  end.

(** [os.path.join(a, b)] of [posixpath]. *)
Definition path_join (a b : string) : string :=
  if starts_with_slash b then b
  else if String.eqb a "" || ends_with_slash a then a ++ b
  else a ++ "/" ++ b.

Definition problem_filepath (instance_id : Z) (base_path : string) : string :=
  path_join (path_join base_path "problem_instances") (problem_filename instance_id).

Definition solution_filepath (instance_id : Z) (base_path : string) : string :=
  path_join (path_join base_path "solutions") (solution_filename instance_id).
End DataLoader.

(** * Specification vocabulary *)

(** ** Skill vectors *)

(** A vector whose entries are all 0 or 1. *)
Definition binary (v : list Z) : Prop := Forall (fun x => x = 0%Z \/ x = 1%Z) v.

(** [sk] has a 1 at every index where [req] has one. *)
Definition dominates (sk req : list Z) : Prop :=
  forall i, req !! i = Some 1%Z -> sk !! i = Some 1%Z.

(** The roster fits a skill dimension [K]: binary vectors of length [K]. *)
Definition roster_fits (K : nat) (robots : list Robot.t) : Prop :=
  Forall (fun r => binary (Robot.skills r) /\ length (Robot.skills r) = K) robots.

(** Some robot of [robots] has skill [i]. *)
Definition union_covers (robots : list Robot.t) (i : nat) : Prop :=
  exists r, r ∈ robots /\ Robot.skills r !! i = Some 1%Z.

(** What the scan of [find_best] over the pool keeps in its accumulator. *)
Definition scan_ok (U : gset nat) (pool : list Robot.t)
    (acc : option Robot.t * gset nat) : Prop :=
  match acc.1 with
  | Some r => r ∈ pool /\ acc.2 = U ∩ ones (Robot.skills r) /\ acc.2 <> ∅
  | None => acc.2 = ∅ /\ forall r, r ∈ pool -> U ∩ ones (Robot.skills r) = ∅
  end.

(** Robot ids are the positions in the roster, as [ProblemInstance.init]
    assigns them. *)
Definition ids_are_positions (robots : list Robot.t) : Prop :=
  forall i r, robots !! i = Some r -> Robot.id r = i.

Global Instance binary_dec v : Decision (binary v).
Proof. unfold binary. apply _. Defined.

Global Instance roster_fits_dec K robots : Decision (roster_fits K robots).
Proof. unfold roster_fits. apply _. Defined.

(** ** Rounds of the scheduler *)

(** The arrival time of robot [r] at task [t], read off the state. *)
Definition arrives (problem : ProblemInstance.t) (st : State.t)
    (t : Task.t) (r : Robot.t) (x : Q) : Prop :=
  exists free here row travel,
    State.robot_available_time st !! Robot.id r = Some free /\
    State.robot_current_location st !! Robot.id r = Some here /\
    ProblemInstance.travel_times problem !! here = Some row /\
    row !! Task.id t = Some travel /\
    x = (free + travel)%Q.

(** The times of candidate [c] of task [t] follow the scheduling rule. *)
Definition timed_by_rule (problem : ProblemInstance.t) (st : State.t)
    (t : Task.t) (c : Assignment.t) : Prop :=
  Assignment.task c = t /\
  exists arrivals coalition_ready_time,
    Forall2 (arrives problem st t) (Assignment.coalition c) arrivals /\
    coalition_ready_time ∈ arrivals /\
    (forall x, x ∈ arrivals -> (x <= coalition_ready_time)%Q) /\
    Assignment.start_time c
      = pymax coalition_ready_time (max_pred_finish_time st (predecessors_of problem t)) /\
    Assignment.finish_time c = (Assignment.start_time c + Task.execution_time t)%Q.

(** [a] is the candidate of the first task, in list order, among those whose
    candidate finishes earliest. *)
Definition earliest_first (problem : ProblemInstance.t) (st : State.t)
    (tasks : list Task.t) (a : Assignment.t) : Prop :=
  exists before after,
    tasks = before ++ Assignment.task a :: after /\
    candidate problem st (Assignment.task a) = Ret (Some a) /\
    (forall t c, t ∈ before -> candidate problem st t = Ret (Some c) ->
                 (Assignment.finish_time a < Assignment.finish_time c)%Q) /\
    (forall t c, t ∈ after -> candidate problem st t = Ret (Some c) ->
                 (Assignment.finish_time a <= Assignment.finish_time c)%Q).

(** What the loop over [tasks_to_schedule] holds in
    [(best_assignment, earliest_finish_time)] after the tasks [seen]. *)
Definition best_so_far (problem : ProblemInstance.t) (st : State.t)
    (seen : list Task.t) (acc : option Assignment.t * etime) : Prop :=
  match acc.1 with
  | Some a => acc.2 = Finite (Assignment.finish_time a) /\ earliest_first problem st seen a
  | None => acc.2 = PosInf /\ Forall (fun t => candidate problem st t = Ret None) seen
  end.

(** ** Runs of the scheduler *)

(** The states at the head of the [while] loop, with the assignments
    committed so far, oldest first. *)
Inductive reaches (problem : ProblemInstance.t) : list Assignment.t -> State.t -> Prop :=
| reaches_initial : reaches problem [] (initial_state problem)
| reaches_commit tr st a st' :
    reaches problem tr st ->
    State.tasks_to_schedule st <> [] ->
    loop_body problem st = Ret (Committed a st') ->
    reaches problem (tr ++ [a]) st'.

(** A complete execution of the [while] loop from [st]: the assignments it
    commits and the state in which it is left. *)
Inductive loop_run (problem : ProblemInstance.t)
  : State.t -> list Assignment.t -> State.t -> Prop :=
| loop_exhausted st :
    State.tasks_to_schedule st = [] ->
    loop_run problem st [] st
| loop_break st st' :
    State.tasks_to_schedule st <> [] ->
    loop_body problem st = Ret (Break st') ->
    loop_run problem st [] st'
| loop_commit st a st' tr st'' :
    State.tasks_to_schedule st <> [] ->
    loop_body problem st = Ret (Committed a st') ->
    loop_run problem st' tr st'' ->
    loop_run problem st (a :: tr) st''.



(** The schedule entry written for each member of a committed coalition. *)
Definition entry_of (a : Assignment.t) : Entry.t :=
  Entry.mk (Task.id (Assignment.task a)) (Assignment.start_time a) (Assignment.finish_time a).

(** The shape of the scheduling state that every iteration preserves. *)
Record well_shaped (problem : ProblemInstance.t) (st : State.t) : Prop := {
  shape_available :
    length (State.robot_available_time st) = ProblemInstance.num_robots problem;
  shape_location :
    length (State.robot_current_location st) = ProblemInstance.num_robots problem;
  shape_schedules :
    forall i, is_Some (State.robot_schedules st !! i)
              <-> (i < ProblemInstance.num_robots problem)%nat;
  shape_pending :
    State.tasks_to_schedule st `sublist_of` ProblemInstance.get_real_tasks problem;
  shape_finish_recorded :
    dom (State.task_finish_times st) = State.scheduled_task_ids st
}.

(** The entries that the committed assignments [tr] put on the schedule of
    the robot with id [i], oldest first. *)
Definition schedule_of_trace (i : nat) (tr : list Assignment.t) : list Entry.t :=
  entry_of <$> filter (fun a => i ∈ Robot.id <$> Assignment.coalition a) tr.



(** ** The store-level code against the value-level code *)

(** The list that a reference denotes in a store. *)
Definition deref_tasks (s : Store.t) (r : Store.task_list_ref) : option (list Task.t) :=
  match r with
  | Store.ProblemTasks => Some (ProblemInstance.tasks (Store.problem s))
  | Store.LocalTasks n => Store.task_lists s !! n
  end.

Definition deref_robots (s : Store.t) (r : Store.robot_list_ref) : option (list Robot.t) :=
  match r with
  | Store.ProblemRobots => Some (ProblemInstance.robots (Store.problem s))
  | Store.LocalRobots n => Store.robot_lists s !! n
  end.

(** The same locals around another [tasks_to_schedule]. *)
Definition retarget {L L'} (l : L') (st : State.gen L) : State.gen L' :=
  {| State.robot_available_time := State.robot_available_time st;
     State.robot_current_location := State.robot_current_location st;
     State.tasks_to_schedule := l;
     State.scheduled_task_ids := State.scheduled_task_ids st;
     State.task_finish_times := State.task_finish_times st;
     State.robot_schedules := State.robot_schedules st;
     State.stdout := State.stdout st |}.

(** The same assignment around another coalition. *)
Definition recoalesce {C C'} (c : C') (a : Assignment.gen C) : Assignment.gen C' :=
  Assignment.mk (Assignment.task a) c (Assignment.start_time a) (Assignment.finish_time a).

(** The value-level state and assignment that store-level ones denote. *)
Definition denote_state (s : Store.t) (st : OnStore.state) : option State.t :=
  (fun l => retarget l st) <$> deref_tasks s (State.tasks_to_schedule st).

Definition denote_assignment (s : Store.t) (a : OnStore.assignment) : option Assignment.t :=
  (fun c => recoalesce c a) <$> deref_robots s (Assignment.coalition a).

(** The store-level outcome [m] agrees with the value-level outcome [p]:
    both return, with results and final store related by [R], or both raise
    the same exception, or both exhaust their fuel. *)
Definition refines {A B} (R : B -> A -> Store.t -> Prop)
    (p : outcome B) (m : outcome (A * Store.t)) : Prop :=
  match p, m with
  | Ret b, Ret (a, s') => R b a s'
  | Raise e, Raise e' => e = e'
  | OutOfFuel, OutOfFuel => True
  | _, _ => False
  end.

(** From [s] to [s'] the problem and the lists of tasks are kept, and lists
    of robots are only added. *)
Record grows (s s' : Store.t) : Prop := {
  grows_problem : Store.problem s' = Store.problem s;
  grows_tasks : Store.task_lists s' = Store.task_lists s;
  grows_robots : Store.robot_lists s `prefix_of` Store.robot_lists s'
}.

(** From [s] to [s'] the problem is kept, and [st'], whose
    [tasks_to_schedule] is a local list, denotes [st] in [s']. *)
Record steps_to (s : Store.t) (st : State.t) (st' : OnStore.state) (s' : Store.t)
  : Prop := {
  steps_problem : Store.problem s' = Store.problem s;
  steps_local : exists k, State.tasks_to_schedule st' = Store.LocalTasks k;
  steps_denote : denote_state s' st' = Some st
}.

(** How a value-level and a store-level optional assignment correspond. *)
Definition same_assignment (s' : Store.t)
    (c : option Assignment.t) (c' : option OnStore.assignment) : Prop :=
  match c, c' with
  | Some a, Some a' => denote_assignment s' a' = Some a
  | None, None => True
  | _, _ => False
  end.

(** How the accumulators of the loop over the pending tasks correspond. *)
Definition same_best (s' : Store.t)
    (acc : option Assignment.t * etime) (acc' : option OnStore.assignment * etime) : Prop :=
  same_assignment s' acc.1 acc'.1 /\ acc.2 = acc'.2.

(** How the ends of a value-level and a store-level iteration correspond. *)
Definition same_iteration (s : Store.t)
    (it : iteration Assignment.t State.t)
    (it' : iteration OnStore.assignment OnStore.state) (s' : Store.t) : Prop :=
  match it, it' with
  | Committed _ st1, Committed _ st1' => steps_to s st1 st1' s'
  | Break st1, Break st1' => steps_to s st1 st1' s'
  | _, _ => False
  end.

(** ** Example instances *)

(** Three specialists and a task that needs the first two of them. *)
Definition specialists : list Robot.t :=
  [Robot.mk 0 [1; 0; 0]; Robot.mk 1 [0; 1; 0]; Robot.mk 2 [0; 0; 1]]%Z.

Definition two_skill_task : Task.t :=
  Task.mk 1 5 [1; 1]%Z [1; 1; 0]%Z false.

(** A roster whose second robot is the first to have both skills. *)
Definition generalists : list Robot.t :=
  [Robot.mk 0 [0; 1]; Robot.mk 1 [1; 1]; Robot.mk 2 [1; 1]]%Z.

Definition both_skills_task : Task.t :=
  Task.mk 1 5 [1; 1]%Z [1; 1]%Z false.

(** A depot, two real tasks and an end dummy; each real task needs the skill
    of one of the two robots, and both candidates of the first round finish
    at time 4. *)
Definition tie_task1 : Task.t := Task.mk 1 3 [1; 0]%Z [0; 1]%Z false.
Definition tie_task2 : Task.t := Task.mk 2 3 [0; 1]%Z [1; 0]%Z false.

Definition tie_problem : ProblemInstance.t :=
  {| ProblemInstance.tasks :=
       [Task.mk 0 0 [0; 0]%Z [0; 0]%Z true; tie_task1; tie_task2;
        Task.mk 3 0 [0; 0]%Z [0; 0]%Z true];
     ProblemInstance.robots := [Robot.mk 0 [1; 0]%Z; Robot.mk 1 [0; 1]%Z];
     ProblemInstance.travel_times :=
       [[0; 1; 1; 0]; [1; 0; 2; 0]; [1; 2; 0; 0]; [0; 0; 0; 0]]%Q;
     ProblemInstance.precedence_constraints := ∅ |}.

(** A depot, a task, a successor of that task, and an end dummy, for one
    robot. *)
Definition chain_task1 : Task.t := Task.mk 1 5 [1; 0]%Z [1]%Z false.
Definition chain_task2 : Task.t := Task.mk 2 4 [2; 0]%Z [1]%Z false.

Definition chain_problem : ProblemInstance.t :=
  {| ProblemInstance.tasks :=
       [Task.mk 0 0 [0; 0]%Z [0]%Z true; chain_task1; chain_task2;
        Task.mk 3 0 [0; 0]%Z [0]%Z true];
     ProblemInstance.robots := [Robot.mk 0 [1]%Z];
     ProblemInstance.travel_times :=
       [[0; 2; 3; 0]; [2; 0; 1; 0]; [3; 1; 0; 0]; [0; 0; 0; 0]]%Q;
     ProblemInstance.precedence_constraints := {[2 := [1]]} |}.

Definition chain_first : Assignment.t :=
  Assignment.mk chain_task1 [Robot.mk 0 [1]%Z] 2 7.

Definition chain_second : Assignment.t :=
  Assignment.mk chain_task2 [Robot.mk 0 [1]%Z] 8 12.

Definition chain_after_first : State.t :=
  {| State.robot_available_time := [7%Q];
     State.robot_current_location := [1];
     State.tasks_to_schedule := [chain_task2];
     State.scheduled_task_ids := {[1; 0]};
     State.task_finish_times := {[0 := 0%Q; 1 := 7%Q]};
     State.robot_schedules := {[0 := [Entry.mk 1 2 7]]};
     State.stdout := [] |}.

Definition chain_final : State.t :=
  {| State.robot_available_time := [12%Q];
     State.robot_current_location := [2];
     State.tasks_to_schedule := [];
     State.scheduled_task_ids := {[2; 1; 0]};
     State.task_finish_times := {[0 := 0%Q; 1 := 7%Q; 2 := 12%Q]};
     State.robot_schedules := {[0 := [Entry.mk 1 2 7; Entry.mk 2 8 12]]};
     State.stdout := [] |}.

(** Two robots with the first skill only; the second real task needs the
    second skill, which no robot has. *)
Definition stall_task1 : Task.t := Task.mk 1 5 [1; 0]%Z [1; 0]%Z false.
Definition stall_task2 : Task.t := Task.mk 2 4 [2; 0]%Z [0; 1]%Z false.

Definition stall_problem : ProblemInstance.t :=
  {| ProblemInstance.tasks :=
       [Task.mk 0 0 [0; 0]%Z [0; 0]%Z true; stall_task1; stall_task2;
        Task.mk 3 0 [0; 0]%Z [0; 0]%Z true];
     ProblemInstance.robots := [Robot.mk 0 [1; 0]%Z; Robot.mk 1 [1; 0]%Z];
     ProblemInstance.travel_times :=
       [[0; 2; 3; 0]; [2; 0; 1; 0]; [3; 1; 0; 0]; [0; 0; 0; 0]]%Q;
     ProblemInstance.precedence_constraints := ∅ |}.

Definition stall_first : Assignment.t :=
  Assignment.mk stall_task1 [Robot.mk 0 [1; 0]%Z] 2 7.

Definition stall_after_first : State.t :=
  {| State.robot_available_time := [7%Q; 0%Q];
     State.robot_current_location := [1; 0];
     State.tasks_to_schedule := [stall_task2];
     State.scheduled_task_ids := {[1; 0]};
     State.task_finish_times := {[0 := 0%Q; 1 := 7%Q]};
     State.robot_schedules := {[0 := [Entry.mk 1 2 7]; 1 := []]};
     State.stdout := [] |}.

(** One robot and one real task whose requirement vector has no set bit. *)
Definition idle_task : Task.t := Task.mk 1 5 [1; 1]%Z [0]%Z false.

Definition idle_problem : ProblemInstance.t :=
  {| ProblemInstance.tasks :=
       [Task.mk 0 0 [0; 0]%Z [0]%Z true; idle_task; Task.mk 2 0 [0; 0]%Z [0]%Z true];
     ProblemInstance.robots := [Robot.mk 0 [1]%Z];
     ProblemInstance.travel_times := [[0; 0; 0]; [0; 0; 0]; [0; 0; 0]]%Q;
     ProblemInstance.precedence_constraints := ∅ |}.

(** The store in which [chain_problem] is the problem object and the first
    coalition has been allocated; [aliased_state] is what the locals would be
    had [tasks_to_schedule] been [problem.tasks] itself. *)
Definition chain_store : Store.t :=
  Store.mk chain_problem [] [[Robot.mk 0 [1]%Z]].

Definition aliased_state : OnStore.state :=
  retarget Store.ProblemTasks (initial_state chain_problem).

Definition chain_first_ref : OnStore.assignment :=
  recoalesce (Store.LocalRobots 0) chain_first.

(** The raw inputs from which [ProblemInstance.init] builds the example
    instances. *)
Definition zero_matrix3 : list (list Q) := [[0; 0; 0]; [0; 0; 0]; [0; 0; 0]]%Q.

Definition idle_raw : RawData :=
  {| T_t := zero_matrix3;
     raw_precedence_constraints := [];
     T_e := [0; 5; 0]%Q;
     task_locations := [[0; 0]; [1; 1]; [0; 0]]%Z;
     R := [[0]; [0]; [0]]%Z;
     Q_ := [[1]]%Z |}.

Definition chain_raw : RawData :=
  {| T_t := [[0; 2; 3; 0]; [2; 0; 1; 0]; [3; 1; 0; 0]; [0; 0; 0; 0]]%Q;
     raw_precedence_constraints := [(1, 2)];
     T_e := [0; 5; 4; 0]%Q;
     task_locations := [[0; 0]; [1; 0]; [2; 0]; [0; 0]]%Z;
     R := [[0]; [1]; [1]; [0]]%Z;
     Q_ := [[1]]%Z |}.

Definition tie_raw : RawData :=
  {| T_t := [[0; 1; 1; 0]; [1; 0; 2; 0]; [1; 2; 0; 0]; [0; 0; 0; 0]]%Q;
     raw_precedence_constraints := [];
     T_e := [0; 3; 3; 0]%Q;
     task_locations := [[0; 0]; [1; 0]; [0; 1]; [0; 0]]%Z;
     R := [[0; 0]; [0; 1]; [1; 0]; [0; 0]]%Z;
     Q_ := [[1; 0]; [0; 1]]%Z |}.

Definition stall_raw : RawData :=
  {| T_t := [[0; 2; 3; 0]; [2; 0; 1; 0]; [3; 1; 0; 0]; [0; 0; 0; 0]]%Q;
     raw_precedence_constraints := [];
     T_e := [0; 5; 4; 0]%Q;
     task_locations := [[0; 0]; [1; 0]; [2; 0]; [0; 0]]%Z;
     R := [[0; 0]; [1; 0]; [0; 1]; [0; 0]]%Z;
     Q_ := [[1; 0]; [1; 0]]%Z |}.

(** * Vocabulary of the further properties *)

(** ** Skill checks *)

(** Index [i] is where [has_skills] stops on [sk] and [req]: it is required,
    [sk] has no non-zero entry there, and has one at every required index
    before it. *)
Definition first_lacking (sk req : list Z) (i : nat) : Prop :=
  req !! i = Some 1%Z /\
  (sk !! i = None \/ sk !! i = Some 0%Z) /\
  forall j, (j < i)%nat -> req !! j = Some 1%Z ->
            exists s, sk !! j = Some s /\ s <> 0%Z.

(** The uncovered required skills that robot [r] has. *)
Definition gain (U : gset nat) (r : Robot.t) : gset nat := U ∩ ones (Robot.skills r).

(** [r] is the first robot of [pool] whose gain is the largest, and that
    gain is not empty: the choice of one pass of the inner loop. *)
Definition first_largest_gain (U : gset nat) (pool : list Robot.t) (r : Robot.t) : Prop :=
  exists before after,
    pool = before ++ r :: after /\
    gain U r <> ∅ /\
    (forall r', r' ∈ before -> size (gain U r') < size (gain U r)) /\
    (forall r', r' ∈ after -> size (gain U r') <= size (gain U r)).

(** What one pass of the inner loop holds after the robots [seen]. *)
Definition scan_result (U : gset nat) (seen : list Robot.t)
    (acc : option Robot.t * gset nat) : Prop :=
  match acc.1 with
  | Some r => acc.2 = gain U r /\ first_largest_gain U seen r
  | None => acc.2 = ∅ /\ forall r, r ∈ seen -> gain U r = ∅
  end.

(** Member [k] of the coalition [c] is needed for the skills [U]: it has a
    skill of [U] that no earlier member has. *)
Definition each_member_adds (U : gset nat) (c : list Robot.t) : Prop :=
  forall k r, c !! k = Some r ->
    exists i, i ∈ U /\ i ∈ ones (Robot.skills r) /\
              forall r', r' ∈ take k c -> i ∉ ones (Robot.skills r').

(** ** Construction of an instance *)

(** The flag that [ProblemInstance.init] gives task [i] of [n]. *)
Definition dummy_position (n i : nat) : bool :=
  bool_decide (i = 0 \/ (i = n - 1 /\ 1 < n)).

(** The predecessors that the raw pairs give to [suc], in input order. *)
Definition listed_predecessors (raw : list (nat * nat)) (suc : nat) : list nat :=
  (filter (fun pair => pair.2 = suc) raw).*1.

(** ** What a run has done *)

(** The ids of the tasks of the committed assignments [tr], oldest first. *)
Definition committed_ids (tr : list Assignment.t) : list nat :=
  (fun a => Task.id (Assignment.task a)) <$> tr.

(** The real tasks have distinct ids, none of them the id 0 of the start
    dummy, as in an instance that [ProblemInstance.init] builds. *)
Definition distinct_task_ids (problem : ProblemInstance.t) : Prop :=
  NoDup (Task.id <$> ProblemInstance.get_real_tasks problem) /\
  0 ∉ Task.id <$> ProblemInstance.get_real_tasks problem.

Global Instance distinct_task_ids_dec problem : Decision (distinct_task_ids problem).
Proof. unfold distinct_task_ids. apply _. Defined.

(** The end time and the task of the last entry of a schedule; time 0 and
    task 0, the start dummy, for a schedule without entries. *)
Definition last_end (entries : list Entry.t) : Q :=
  default 0%Q (Entry.end_time <$> last entries).

Definition last_task (entries : list Entry.t) : nat :=
  default 0 (Entry.task <$> last entries).

(** Two robots with one skill each and one real task that needs both. *)
Definition pair_task : Task.t := Task.mk 1 5 [1; 0]%Z [1; 1]%Z false.

Definition pair_problem : ProblemInstance.t :=
  {| ProblemInstance.tasks :=
       [Task.mk 0 0 [0; 0]%Z [0; 0]%Z true; pair_task; Task.mk 2 0 [0; 0]%Z [0; 0]%Z true];
     ProblemInstance.robots := [Robot.mk 0 [1; 0]%Z; Robot.mk 1 [0; 1]%Z];
     ProblemInstance.travel_times := [[0; 2; 0]; [2; 0; 0]; [0; 0; 0]]%Q;
     ProblemInstance.precedence_constraints := ∅ |}.

Definition pair_first : Assignment.t :=
  Assignment.mk pair_task (ProblemInstance.robots pair_problem) 2 7.

Definition pair_final : State.t :=
  {| State.robot_available_time := [7%Q; 7%Q];
     State.robot_current_location := [1; 1];
     State.tasks_to_schedule := [];
     State.scheduled_task_ids := {[1; 0]};
     State.task_finish_times := {[0 := 0%Q; 1 := 7%Q]};
     State.robot_schedules := {[0 := [Entry.mk 1 2 7]; 1 := [Entry.mk 1 2 7]]};
     State.stdout := [] |}.

(** The chain instance with its precedence pair replaced by [(3, 2)]: the
    second real task waits for the end dummy. *)
Definition blocked_problem : ProblemInstance.t :=
  {| ProblemInstance.tasks := ProblemInstance.tasks chain_problem;
     ProblemInstance.robots := ProblemInstance.robots chain_problem;
     ProblemInstance.travel_times := ProblemInstance.travel_times chain_problem;
     ProblemInstance.precedence_constraints := {[2 := [3]]} |}.

(** The chain instance whose first real task waits for the end dummy: the
    second, which waits for the first, cannot be scheduled either. *)
Definition blocked_then_chain_problem : ProblemInstance.t :=
  {| ProblemInstance.tasks := ProblemInstance.tasks chain_problem;
     ProblemInstance.robots := ProblemInstance.robots chain_problem;
     ProblemInstance.travel_times := ProblemInstance.travel_times chain_problem;
     ProblemInstance.precedence_constraints := {[1 := [3]; 2 := [1]]} |}.

(** ** Instances whose dimensions fit *)

(** The travel matrix has an entry from task [i] to task [j]. *)
Definition travel_defined (problem : ProblemInstance.t) (i j : nat) : Prop :=
  match ProblemInstance.travel_times problem !! i with
  | Some row => j < length row
  | None => False
  end.

Global Instance travel_defined_dec problem i j : Decision (travel_defined problem i j).
Proof. unfold travel_defined. destruct (_ !! i); apply _. Defined.

(** The dimensions of the instance fit: robot ids are roster positions, no
    skill vector is shorter than a requirement vector, and the travel matrix
    has an entry from task 0 and from every real task to every real task. *)
Record well_dimensioned (problem : ProblemInstance.t) : Prop := {
  dim_robot_ids : ids_are_positions (ProblemInstance.robots problem);
  dim_skills :
    Forall (fun t =>
              Forall (fun r => length (Task.requirements t) <= length (Robot.skills r))
                     (ProblemInstance.robots problem))
           (ProblemInstance.get_real_tasks problem);
  dim_travel :
    Forall (fun i =>
              Forall (fun t => travel_defined problem i (Task.id t))
                     (ProblemInstance.get_real_tasks problem))
           (0 :: (Task.id <$> ProblemInstance.get_real_tasks problem))
}.

(** ** Instances that the scheduler completes *)

(** Every real task requires some skill, and each skill that it requires
    is a skill of some robot. *)
Definition coverable (problem : ProblemInstance.t) : Prop :=
  Forall (fun t =>
            any_required (Task.requirements t) = true /\
            Forall (fun i => Exists (fun r => Robot.skills r !! i = Some 1%Z)
                                    (ProblemInstance.robots problem))
                   (ones_from 0 (Task.requirements t)))
         (ProblemInstance.get_real_tasks problem).

(** The precedence constraints follow the ranking [rank] of the task ids:
    every predecessor of a real task is task 0 or a real task of lower
    rank; there is such a ranking exactly when the constraints between real
    tasks have no cycle and name no other task. *)
Definition ranked_precedence (problem : ProblemInstance.t) (rank : nat -> nat) : Prop :=
  Forall (fun t =>
            Forall (fun q => q = 0 \/
                             (q ∈ Task.id <$> ProblemInstance.get_real_tasks problem /\
                              rank q < rank (Task.id t)))
                   (predecessors_of problem t))
         (ProblemInstance.get_real_tasks problem).

(** ** From the raw data to the schedule *)

(** Every row of [Q] is at least as long as row [i] of [R]. *)
Definition skill_rows_fit (data : RawData) (i : nat) : Prop :=
  match R data !! i with
  | Some req => Forall (fun sk => length req <= length sk) (Q_ data)
  | None => False
  end.

Global Instance skill_rows_fit_dec data i : Decision (skill_rows_fit data i).
Proof. unfold skill_rows_fit. destruct (_ !! i); apply _. Defined.

(** [T_t] has an entry in row [i], column [j]. *)
Definition travel_entry (data : RawData) (i j : nat) : Prop :=
  match T_t data !! i with
  | Some row => j < length row
  | None => False
  end.

Global Instance travel_entry_dec data i j : Decision (travel_entry data i j).
Proof. unfold travel_entry. destruct (_ !! i); apply _. Defined.


(** ** The files of an instance *)

Module FileNames.
Import Ascii.

(** [base_path] as the directory prefix that [os.path.join] makes of it. *)
Definition directory_prefix (base_path : string) : string :=
  if String.eqb base_path "" || DataLoader.ends_with_slash base_path then base_path
  else (base_path ++ "/")%string.

(** The number that a string of [format_06d] denotes. *)
Definition read_06d (s : string) : option Z :=
  match s with
  | String c t =>
      if Ascii.eqb c "-"%char
      then (fun d => Z.of_int (Decimal.Neg d)) <$> DecimalString.NilEmpty.uint_of_string t
      else (fun d => Z.of_int (Decimal.Pos d)) <$> DecimalString.NilEmpty.uint_of_string s
  | EmptyString => None
  end.
End FileNames.

(** ** Rounds of the scheduler on doubles *)

Module FloatOrder.
Import SpecFloat.

(** Where a double stands in the order of the doubles; [NaN] stands
    nowhere.  The order is that of the triples, from the left. *)
Definition float_key (x : OnFloats.float) : option (Z * Z * Z) :=
  match x with
  | S754_zero _ => Some (0, 0, 0)%Z
  | S754_infinity s => Some (if s then (-2) else 2, 0, 0)%Z
  | S754_nan => None
  | S754_finite s m e => Some (if s then (-1, - e, - Z.pos m) else (1, e, Z.pos m))%Z
  end.

Definition key_lt (k1 k2 : Z * Z * Z) : Prop :=
  (k1.1.1 < k2.1.1 \/
   (k1.1.1 = k2.1.1 /\ (k1.1.2 < k2.1.2 \/ (k1.1.2 = k2.1.2 /\ k1.2 < k2.2))))%Z.
End FloatOrder.

(** [x < float('inf')]: [x] is neither [inf] nor [NaN]. *)
Definition below_inf (x : OnFloats.float) : Prop :=
  OnFloats.flt x OnFloats.inf = true.

(** The candidate can be selected: its finish time is below the initial
    [earliest_finish_time]. *)
Definition selectable (c : OnFloats.Assignment.t) : Prop :=
  below_inf (OnFloats.Assignment.finish_time c).

(** The arrival time of robot [r] at task [t], read off the state. *)
Definition float_arrives (problem : ProblemInstance.t) (st : OnFloats.State.t)
    (t : Task.t) (r : Robot.t) (x : OnFloats.float) : Prop :=
  exists free here row travel travel',
    OnFloats.State.robot_available_time st !! Robot.id r = Some free /\
    OnFloats.State.robot_current_location st !! Robot.id r = Some here /\
    ProblemInstance.travel_times problem !! here = Some row /\
    row !! Task.id t = Some travel /\
    OnFloats.to_float travel = Ret travel' /\
    x = OnFloats.fadd free travel'.

(** [m] is what [max] returns on [xs]: an item that no item is greater
    than. *)
Definition float_max_of (xs : list OnFloats.float) (m : OnFloats.float) : Prop :=
  m ∈ xs /\ forall x, x ∈ xs -> OnFloats.flt m x = false.

(** The times of candidate [c] of task [t] follow the scheduling rule, in
    the arithmetic of doubles. *)
Definition float_timed_by_rule (problem : ProblemInstance.t) (st : OnFloats.State.t)
    (t : Task.t) (c : OnFloats.Assignment.t) : Prop :=
  OnFloats.Assignment.task c = t /\
  exists arrivals coalition_ready_time execution_time,
    Forall2 (float_arrives problem st t) (OnFloats.Assignment.coalition c) arrivals /\
    float_max_of arrivals coalition_ready_time /\
    OnFloats.Assignment.start_time c
      = OnFloats.fmax coalition_ready_time
          (OnFloats.max_pred_finish_time st (predecessors_of problem t)) /\
    OnFloats.to_float (Task.execution_time t) = Ret execution_time /\
    OnFloats.Assignment.finish_time c
      = OnFloats.fadd (OnFloats.Assignment.start_time c) execution_time.

(** [a] is the candidate of the first task, in list order, among those whose
    candidate finishes earliest, the candidates that cannot be selected left
    aside; it can be selected itself. *)
Definition earliest_selectable (problem : ProblemInstance.t) (st : OnFloats.State.t)
    (tasks : list Task.t) (a : OnFloats.Assignment.t) : Prop :=
  selectable a /\
  exists before after,
    tasks = before ++ OnFloats.Assignment.task a :: after /\
    OnFloats.candidate problem st (OnFloats.Assignment.task a) = Ret (Some a) /\
    (forall t c, t ∈ before -> OnFloats.candidate problem st t = Ret (Some c) ->
                 selectable c ->
                 OnFloats.flt (OnFloats.Assignment.finish_time a)
                              (OnFloats.Assignment.finish_time c) = true) /\
    (forall t c, t ∈ after -> OnFloats.candidate problem st t = Ret (Some c) ->
                 OnFloats.flt (OnFloats.Assignment.finish_time c)
                              (OnFloats.Assignment.finish_time a) = false).

(** No task of [tasks] has a candidate that can be selected. *)
Definition none_selectable (problem : ProblemInstance.t) (st : OnFloats.State.t)
    (tasks : list Task.t) : Prop :=
  forall t, t ∈ tasks ->
    exists c, OnFloats.candidate problem st t = Ret c /\
              forall a, c = Some a -> ~ selectable a.

(** What the loop over [tasks_to_schedule] holds in
    [(best_assignment, earliest_finish_time)] after the tasks [seen]. *)
Definition float_best_so_far (problem : ProblemInstance.t) (st : OnFloats.State.t)
    (seen : list Task.t) (acc : option OnFloats.Assignment.t * OnFloats.float) : Prop :=
  match acc.1 with
  | Some a => acc.2 = OnFloats.Assignment.finish_time a /\
              earliest_selectable problem st seen a
  | None => acc.2 = OnFloats.inf /\ none_selectable problem st seen
  end.

(** The double nearest to [10^308], which the literal [1e308] denotes. *)
Definition double_1e308 : Q := inject_Z (5010420900022432 * 2 ^ 971).

(** One robot and one real task; the travel time to the task and its
    execution time are [1e308] each. *)
Definition overflow_task : Task.t := Task.mk 1 double_1e308 [1; 0]%Z [1]%Z false.


Definition overflow_problem : ProblemInstance.t :=
  {| ProblemInstance.tasks :=
       [Task.mk 0 0 [0; 0]%Z [0]%Z true; overflow_task; Task.mk 2 0 [0; 0]%Z [0]%Z true];
     ProblemInstance.robots := [Robot.mk 0 [1]%Z];
     ProblemInstance.travel_times :=
       [[0; double_1e308; 0]; [double_1e308; 0; 0]; [0; 0; 0]]%Q;
     ProblemInstance.precedence_constraints := ∅ |}.


(** One robot and one real task whose execution time is the [int]
    [10**400], beyond the range of the doubles. *)
Definition huge_task : Task.t := Task.mk 1 (inject_Z (10 ^ 400)) [1; 0]%Z [1]%Z false.


Definition huge_problem : ProblemInstance.t :=
  {| ProblemInstance.tasks :=
       [Task.mk 0 0 [0; 0]%Z [0]%Z true; huge_task; Task.mk 2 0 [0; 0]%Z [0]%Z true];
     ProblemInstance.robots := [Robot.mk 0 [1]%Z];
     ProblemInstance.travel_times := [[0; 1; 0]; [1; 0; 0]; [0; 0; 0]]%Q;
     ProblemInstance.precedence_constraints := ∅ |}.

(** One robot and one real task at the travel time [2^53 + 1], an [int]
    that is no double. *)
Definition rounding_problem : ProblemInstance.t :=
  {| ProblemInstance.tasks :=
       [Task.mk 0 0 [0; 0]%Z [0]%Z true; Task.mk 1 0 [1; 0]%Z [1]%Z false;
        Task.mk 2 0 [0; 0]%Z [0]%Z true];
     ProblemInstance.robots := [Robot.mk 0 [1]%Z];
     ProblemInstance.travel_times :=
       [[0; inject_Z 9007199254740993; 0]; [inject_Z 9007199254740993; 0; 0]; [0; 0; 0]]%Q;
     ProblemInstance.precedence_constraints := ∅ |}.

(** ** Runs of the scheduler on doubles *)

(** The schedule entry written for each member of a committed coalition. *)
Definition float_entry_of (a : OnFloats.Assignment.t) : OnFloats.Entry.t :=
  OnFloats.Entry.mk (Task.id (OnFloats.Assignment.task a))
                    (OnFloats.Assignment.start_time a) (OnFloats.Assignment.finish_time a).

(** The end time and the task of the last entry of a schedule; [0.0] and
    task 0, the start dummy, for a schedule without entries. *)
Definition float_last_end (entries : list OnFloats.Entry.t) : OnFloats.float :=
  default OnFloats.zero (OnFloats.Entry.end_time <$> last entries).

Definition float_last_task (entries : list OnFloats.Entry.t) : nat :=
  default 0 (OnFloats.Entry.task <$> last entries).

(** No entry starts before the robot arrives: before the sum, in doubles,
    of the end of the entry before it ([0.0] for the first entry) and the
    travel time from that entry's task (task 0 for the first entry). *)
Definition float_travel_respected (problem : ProblemInstance.t)
    (entries : list OnFloats.Entry.t) : Prop :=
  forall k e, entries !! k = Some e ->
    exists row travel travel',
      ProblemInstance.travel_times problem !! float_last_task (take k entries) = Some row /\
      row !! OnFloats.Entry.task e = Some travel /\
      OnFloats.to_float travel = Ret travel' /\
      OnFloats.flt (OnFloats.Entry.start_time e)
                   (OnFloats.fadd (float_last_end (take k entries)) travel') = false.

(** What every iteration of the loop on doubles preserves. *)
Record float_invariant (problem : ProblemInstance.t) (st : OnFloats.State.t) : Prop := {
  fi_available :
    length (OnFloats.State.robot_available_time st) = ProblemInstance.num_robots problem;
  fi_location :
    length (OnFloats.State.robot_current_location st) = ProblemInstance.num_robots problem;
  fi_schedules :
    forall i, is_Some (OnFloats.State.robot_schedules st !! i)
              <-> i < ProblemInstance.num_robots problem;
  fi_pending :
    forall t, t ∈ OnFloats.State.tasks_to_schedule st ->
              t ∈ ProblemInstance.get_real_tasks problem;
  fi_scheduled :
    0 ∈ OnFloats.State.scheduled_task_ids st /\
    forall t, t ∈ ProblemInstance.get_real_tasks problem ->
              t ∈ OnFloats.State.tasks_to_schedule st \/
              (Task.id t ∈ OnFloats.State.scheduled_task_ids st /\
               exists i entries e,
                 OnFloats.State.robot_schedules st !! i = Some entries /\
                 e ∈ entries /\ OnFloats.Entry.task e = Task.id t);
  fi_last :
    forall i entries, OnFloats.State.robot_schedules st !! i = Some entries ->
      OnFloats.State.robot_available_time st !! i = Some (float_last_end entries) /\
      OnFloats.State.robot_current_location st !! i = Some (float_last_task entries);
  fi_tasks :
    forall i entries e, OnFloats.State.robot_schedules st !! i = Some entries ->
      e ∈ entries ->
      OnFloats.Entry.task e ∈ Task.id <$> ProblemInstance.get_real_tasks problem;
  fi_travel :
    forall i entries, OnFloats.State.robot_schedules st !! i = Some entries ->
      float_travel_respected problem entries
}.

(** A time of the instance is an [int] beyond the range of the doubles. *)
Definition unconvertible_time (problem : ProblemInstance.t) : Prop :=
  (exists row x, row ∈ ProblemInstance.travel_times problem /\ x ∈ row /\
                 OnFloats.to_float x = Raise OverflowError) \/
  (exists t, t ∈ ProblemInstance.get_real_tasks problem /\
             OnFloats.to_float (Task.execution_time t) = Raise OverflowError).

(** The loop on doubles was left in [st] through its [break], at a round
    in which some pending task had a candidate with a finish time of [inf]
    or [NaN]. *)
Definition stopped_by_overflow (problem : ProblemInstance.t) (st : OnFloats.State.t) : Prop :=
  exists st0 t c,
    st = OnFloats.abandon st0 /\
    t ∈ OnFloats.State.tasks_to_schedule st0 /\
    OnFloats.candidate problem st0 t = Ret (Some c) /\
    ~ selectable c.
(** * Verification *)

(** ** Outcomes *)

Lemma obind_Ret {A B} (m : outcome A) (k : A -> outcome B) (b : B) :
  obind m k = Ret b -> exists a, m = Ret a /\ k a = Ret b.
Proof. destruct m as [a| |]; simpl; [eauto | discriminate..]. Qed.

Ltac inv_ret :=
  repeat match goal with
  | H : obind _ _ = Ret _ |- _ =>
      let a := fresh "v" in
      let E := fresh "E" in
      apply obind_Ret in H as (a & E & H)
  | H : Ret _ = Ret _ |- _ => injection H as H
  | H : Raise _ = Ret _ |- _ => discriminate H
  | H : OutOfFuel = Ret _ |- _ => discriminate H
  end.

Lemma index_Ret {A} (xs : list A) i x : index xs i = Ret x <-> xs !! i = Some x.
Proof. unfold index. destruct (xs !! i); split; intros; simplify_eq; done. Qed.

Lemma setitem_Ret {A} (xs : list A) i v ys :
  setitem xs i v = Ret ys <-> i < length xs /\ ys = <[i := v]> xs.
Proof.
  unfold setitem. case_decide; split; intros; simplify_eq; try done.
  - by destruct H0 as [_ ->].
  - by destruct H0.
Qed.

Lemma comprehension_Ret {A B} (f : A -> outcome B) xs ys :
  comprehension f xs = Ret ys <-> Forall2 (fun x y => f x = Ret y) xs ys.
Proof.
  revert ys. induction xs as [|x xs IH]; intros ys; simpl.
  - split; [intros [= <-]; constructor | by inversion 1].
  - split.
    + intros H. inv_ret. subst. constructor; [done | by apply IH].
    + inversion 1 as [|? y ? ys' Hy Hys]; subst. rewrite Hy. simpl.
      apply IH in Hys. by rewrite Hys.
Qed.

(** ** [list.remove] *)

Section list_remove.
Context `{EqDecision A}.
Implicit Types (x : A) (xs : list A).

Lemma list_remove_elem_of x xs : x ∈ xs -> exists xs', list_remove x xs = Ret xs'.
Proof.
  induction xs as [|y xs IH]; [by intros ?%elem_of_nil |].
  intros Hin. simpl. case_decide; [eauto |].
  apply elem_of_cons in Hin as [-> | Hin]; [done |].
  destruct (IH Hin) as [xs' ->]. simpl. eauto.
Qed.

Lemma list_remove_split x xs xs' :
  list_remove x xs = Ret xs' ->
  exists l1 l2, xs = l1 ++ x :: l2 /\ xs' = l1 ++ l2 /\ x ∉ l1.
Proof.
  revert xs'. induction xs as [|y xs IH]; intros xs'; simpl; [done |].
  case_decide as Hy.
  - intros [= <-]. subst y. exists [], xs. split_and!; [done.. | apply not_elem_of_nil].
  - intros H. inv_ret. subst xs'.
    destruct (IH _ E) as (l1 & l2 & -> & -> & Hn).
    exists (y :: l1), l2. split_and!; [done.. |].
    rewrite not_elem_of_cons. split; [congruence | done].
Qed.

Lemma list_remove_Permutation x xs xs' :
  list_remove x xs = Ret xs' -> xs ≡ₚ x :: xs'.
Proof.
  intros (l1 & l2 & -> & -> & _)%list_remove_split.
  by rewrite Permutation_middle.
Qed.

Lemma list_remove_length x xs xs' :
  list_remove x xs = Ret xs' -> length xs = S (length xs').
Proof. intros H%list_remove_Permutation. by rewrite H. Qed.

Lemma list_remove_not_OutOfFuel x xs : list_remove x xs <> OutOfFuel.
Proof.
  induction xs as [|y xs IH]; simpl; [done |].
  case_decide; [done |]. destruct (list_remove x xs); simpl; done.
Qed.
End list_remove.

(** ** Python's [max] *)

Local Open Scope Q_scope.

Lemma pymax_cases a b : pymax a b = a \/ pymax a b = b.
Proof. unfold pymax. destruct (Qlt_le_dec a b); auto. Qed.

Lemma pymax_ge_l a b : a <= pymax a b.
Proof. unfold pymax. destruct (Qlt_le_dec a b); lra. Qed.

Lemma pymax_ge_r a b : b <= pymax a b.
Proof. unfold pymax. destruct (Qlt_le_dec a b); lra. Qed.

Lemma max_from_ge_first x xs : x <= max_from x xs.
Proof.
  unfold max_from. revert x. induction xs as [|y xs IH]; intros x; simpl; [lra |].
  pose proof (IH (pymax x y)). pose proof (pymax_ge_l x y). lra.
Qed.

Lemma max_from_ge x xs y : y ∈ xs -> y <= max_from x xs.
Proof.
  unfold max_from. revert x. induction xs as [|z xs IH]; intros x; [by intros ?%elem_of_nil |].
  intros [-> | Hin]%elem_of_cons; simpl.
  - pose proof (max_from_ge_first (pymax x z) xs). unfold max_from in *.
    pose proof (pymax_ge_r x z). lra.
  - by apply IH.
Qed.

Lemma max_from_elem_of x xs : max_from x xs ∈ x :: xs.
Proof.
  unfold max_from. revert x. induction xs as [|z xs IH]; intros x; simpl; [set_solver |].
  specialize (IH (pymax x z)).
  apply elem_of_cons in IH as [IH | IH]; [| set_solver].
  rewrite IH. destruct (pymax_cases x z) as [-> | ->]; set_solver.
Qed.

Local Close Scope Q_scope.
(** ** Skill vectors *)

Lemma elem_of_ones_from i k v : i ∈ ones_from k v <-> (k <= i)%nat /\ v !! (i - k)%nat = Some 1%Z.
Proof.
  revert k. induction v as [|x v IH]; intros k; simpl.
  - rewrite elem_of_nil. split; [done | intros [_ Hl]]. by rewrite lookup_nil in Hl.
  - case_decide as Hx.
    + rewrite elem_of_cons, IH. subst x. split.
      * intros [-> | [Hle Hl]].
        -- split; [lia |]. by replace (k - k)%nat with 0%nat by lia.
        -- split; [lia |]. by replace (i - k)%nat with (S (i - S k)) by lia.
      * intros [Hle Hl]. destruct (decide (i = k)) as [-> | Hne]; [by left | right].
        split; [lia |]. by replace (i - k)%nat with (S (i - S k)) in Hl by lia.
    + rewrite IH. split.
      * intros [Hle Hl]. split; [lia |]. by replace (i - k)%nat with (S (i - S k)) by lia.
      * intros [Hle Hl]. destruct (decide (i = k)) as [-> | Hne].
        -- replace (k - k)%nat with 0%nat in Hl by lia. simpl in Hl. congruence.
        -- split; [lia |]. by replace (i - k)%nat with (S (i - S k)) in Hl by lia.
Qed.

Lemma elem_of_ones i v : i ∈ ones v <-> v !! i = Some 1%Z.
Proof.
  unfold ones. rewrite elem_of_list_to_set, elem_of_ones_from.
  replace (i - 0)%nat with i by lia. intuition lia.
Qed.

Lemma any_required_true req : any_required req = true <-> exists i, req !! i = Some 1%Z.
Proof.
  unfold any_required. rewrite existsb_exists. split.
  - intros (x & Hin & Hx). apply bool_decide_eq_true in Hx as ->.
    apply list_elem_of_In, list_elem_of_lookup in Hin. done.
  - intros (i & Hi). exists 1%Z. split; [| by apply bool_decide_eq_true].
    apply list_elem_of_In, list_elem_of_lookup. eauto.
Qed.

Lemma any_required_false req : any_required req = false <-> forall i, req !! i <> Some 1%Z.
Proof.
  rewrite <- not_true_iff_false, any_required_true. split.
  - intros Hno i Hi. apply Hno. eauto.
  - intros Hno [i Hi]. by apply (Hno i).
Qed.

(** ** [Robot.has_skills] *)

Lemma has_skills_from_spec sk i req :
  binary sk -> (i + length req <= length sk)%nat ->
  exists b, Robot.has_skills_from sk i req = Ret b /\
    (b = true <-> forall j, req !! j = Some 1%Z -> sk !! (i + j)%nat = Some 1%Z).
Proof.
  intros Hbin. revert i. induction req as [|x req IH]; intros i Hlen; simpl in *.
  - exists true. split; [done |]. split; [| done]. intros _ j. by rewrite lookup_nil.
  - destruct (IH (S i)) as (b & Hb & Hiff); [lia |].
    assert (Hstep : b = true <->
              forall j, req !! j = Some 1%Z -> sk !! (i + S j)%nat = Some 1%Z).
    { rewrite Hiff. apply forall_proper; intros j.
      by replace (S i + j)%nat with (i + S j)%nat by lia. }
    case_decide as Hx.
    + subst x. destruct (lookup_lt_is_Some_2 sk i) as [s Hs]; [lia |].
      unfold index. rewrite Hs. simpl. case_decide as Hs0.
      * exists false. split; [done |]. split; [done |]. intros Hall.
        specialize (Hall 0%nat eq_refl). rewrite Nat.add_0_r in Hall. congruence.
      * exists b. split; [done |]. rewrite Hstep. split.
        -- intros Hall [|j] Hj; [| by apply Hall].
           rewrite Nat.add_0_r, Hs. f_equal.
           eapply Forall_lookup_1 in Hbin; [| exact Hs]. lia.
        -- intros Hall j Hj. by apply (Hall (S j)).
    + exists b. split; [done |]. rewrite Hstep. split.
      * intros Hall [|j] Hj; [simpl in Hj; congruence | by apply Hall].
      * intros Hall j Hj. by apply (Hall (S j)).
Qed.

Lemma has_skills_spec r req :
  binary (Robot.skills r) -> length (Robot.skills r) = length req ->
  exists b, Robot.has_skills r req = Ret b /\ (b = true <-> dominates (Robot.skills r) req).
Proof.
  intros Hbin Hlen. unfold Robot.has_skills.
  destruct (has_skills_from_spec (Robot.skills r) 0 req) as (b & Hb & Hiff); [done | lia |].
  eauto.
Qed.

(** ** The search for a single capable robot *)

Lemma first_capable_spec req robots :
  roster_fits (length req) robots ->
  exists o, first_capable req robots = Ret o /\
    match o with
    | Some r =>
        exists before after, robots = before ++ r :: after /\
          dominates (Robot.skills r) req /\
          Forall (fun r' => ~ dominates (Robot.skills r') req) before
    | None => Forall (fun r' => ~ dominates (Robot.skills r') req) robots
    end.
Proof.
  induction 1 as [|r robots [Hbin Hlen] _ IH]; simpl.
  - exists None. split; [done | constructor].
  - destruct (has_skills_spec r req Hbin Hlen) as (b & -> & Hiff). simpl.
    destruct b.
    + exists (Some r). split; [done |]. exists [], robots.
      split_and!; [done | by apply Hiff | constructor].
    + assert (~ dominates (Robot.skills r) req) as Hno by (rewrite <- Hiff; done).
      destruct IH as (o & -> & Ho). exists o. split; [done |].
      destruct o as [r' |].
      * destruct Ho as (before & after & -> & Hdom & Hbefore).
        exists (r :: before), after. split_and!; [done.. | by constructor].
      * by constructor.
Qed.

Lemma first_capable_elem_of req robots r :
  first_capable req robots = Ret (Some r) ->
  exists before after, robots = before ++ r :: after.
Proof.
  induction robots as [|r' robots IH]; simpl; [done |].
  intros H. inv_ret. destruct v.
  - simplify_eq. by exists [], robots.
  - destruct (IH H) as (before & after & ->). by exists (r' :: before), after.
Qed.

(** ** The greedy set cover *)

Section cover.
Variable U : gset nat.

Lemma better_spec (acc : option Robot.t * gset nat) (r : Robot.t) :
  better U acc r =
    (if decide (size acc.2 < size (U ∩ ones (Robot.skills r)))
     then (Some r, U ∩ ones (Robot.skills r)) else acc).
Proof. done. Qed.

Lemma scan_ok_step seen acc r :
  scan_ok U seen acc -> scan_ok U (seen ++ [r]) (better U acc r).
Proof.
  intros Hok. rewrite better_spec. case_decide as Hlt.
  - unfold scan_ok; simpl. split_and!; [set_solver | done |].
    intros Hempty. rewrite Hempty, size_empty in Hlt. lia.
  - unfold scan_ok in *. destruct acc as [[best |] cov]; simpl in *.
    + destruct Hok as (Hin & ? & ?). split_and!; [set_solver | done..].
    + destruct Hok as (-> & Hnone). split; [done |].
      intros r' [Hr' | ->%list_elem_of_singleton]%elem_of_app; [by apply Hnone |].
      rewrite size_empty in Hlt. apply leibniz_equiv, size_empty_inv. lia.
Qed.

Lemma scan_ok_foldl seen pool acc :
  scan_ok U seen acc -> scan_ok U (seen ++ pool) (foldl (better U) acc pool).
Proof.
  revert seen acc. induction pool as [|r pool IH]; intros seen acc Hok; simpl.
  - by rewrite app_nil_r.
  - rewrite (assoc_L _ seen [r] pool : seen ++ r :: pool = (seen ++ [r]) ++ pool).
    apply IH. by apply scan_ok_step.
Qed.

Lemma find_best_spec pool : scan_ok U pool (find_best U pool).
Proof.
  apply (scan_ok_foldl [] pool (None, ∅)). unfold scan_ok; simpl. split; [done |].
  by intros r ?%elem_of_nil.
Qed.
End cover.

Lemma cover_loop_spec fuel U C A :
  (length A < fuel)%nat ->
  exists res, cover_loop fuel U C A = Ret res /\
    (res = None <-> exists i, i ∈ U /\ forall r, r ∈ A -> i ∉ ones (Robot.skills r)) /\
    (forall c, res = Some c ->
       (forall i, i ∈ U -> exists r, r ∈ c /\ i ∈ ones (Robot.skills r)) /\
       exists chosen rest, c = C ++ chosen /\ chosen ++ rest ≡ₚ A).
Proof.
  revert U C A. induction fuel as [|fuel IH]; intros U C A Hfuel; [lia |].
  simpl. case_decide as HU.
  { exists (Some C). split; [done |]. split.
    - split; [done |]. intros (i & Hi & _). set_solver.
    - intros c [= <-]. split; [set_solver |]. exists [], A. by rewrite app_nil_r. }
  pose proof (find_best_spec U A) as Hbest. unfold scan_ok in Hbest.
  destruct (find_best U A) as [[best |] cov]; simpl in Hbest.
  - destruct Hbest as (Hin & -> & Hne).
    destruct (list_remove_elem_of _ _ Hin) as [A' HA']. rewrite HA'. simpl.
    pose proof (list_remove_Permutation _ _ _ HA') as Hperm.
    pose proof (list_remove_length _ _ _ HA') as Hlen.
    set (cov := U ∩ ones (Robot.skills best)) in *.
    destruct (IH (U ∖ cov) (C ++ [best]) A') as (res & -> & Hnone & Hsome); [lia |].
    exists res. split; [done |]. split.
    + rewrite Hnone. split.
      * intros (i & Hi & Hno). exists i. split; [set_solver |].
        intros r Hr. rewrite Hperm in Hr. apply elem_of_cons in Hr as [-> | Hr]; [| by apply Hno].
        set_solver.
      * intros (i & Hi & Hno). exists i. split.
        -- specialize (Hno best Hin). set_solver.
        -- intros r Hr. apply Hno. rewrite Hperm. set_solver.
    + intros c Hc. destruct (Hsome c Hc) as (Hcov & chosen & rest & -> & Hrest). split.
      * intros i Hi. destruct (decide (i ∈ cov)) as [Hic | Hic].
        -- exists best. split; [set_solver | set_solver].
        -- apply Hcov. set_solver.
      * exists (best :: chosen), rest. split; [by rewrite <- (assoc_L _) |].
        rewrite Hperm. simpl. by rewrite Hrest.
  - destruct Hbest as (_ & Hnone). exists None. split; [done |]. split; [| done].
    split; [| done]. intros _.
    apply set_choose_L in HU as [i Hi]. exists i. split; [done |].
    intros r Hr. specialize (Hnone r Hr). set_solver.
Qed.

(** What a returned coalition is made of, whatever the vectors look like. *)
Lemma find_minimal_coalition_members task robots c :
  find_minimal_coalition task robots = Ret (Some c) ->
  exists rest, c ++ rest ≡ₚ robots.
Proof.
  unfold find_minimal_coalition. destruct (negb _).
  - intros [= <-]. by exists robots.
  - intros H. inv_ret. destruct v as [r |].
    + simplify_eq. apply first_capable_elem_of in E as (before & after & ->).
      exists (before ++ after). simpl. by rewrite Permutation_middle.
    + destruct (cover_loop_spec (S (length robots)) (ones (Task.requirements task)) [] robots)
        as (res & Hres & _ & Hsome); [lia |].
      rewrite Hres in H. simplify_eq.
      destruct (Hsome c eq_refl) as (_ & chosen & rest & -> & Hperm). eauto.
Qed.

(** C2. Under the data model's invariant (binary skill vectors of the
    task's dimension), [find_minimal_coalition] returns [None] exactly when
    some required index is covered by no robot of the roster; any coalition
    it returns covers every required index. *)
Theorem find_minimal_coalition_feasible_iff_covered task robots :
  roster_fits (length (Task.requirements task)) robots ->
  exists res, find_minimal_coalition task robots = Ret res /\
    (res = None <->
       exists i, Task.requirements task !! i = Some 1%Z /\ ~ union_covers robots i) /\
    (forall c, res = Some c ->
       forall i, Task.requirements task !! i = Some 1%Z -> union_covers c i).
Proof.
  intros Hfit. unfold find_minimal_coalition.
  destruct (any_required (Task.requirements task)) eqn:Hany; cbn [negb].
  - destruct (first_capable_spec _ _ Hfit) as (o & -> & Ho). cbn [obind].
    destruct o as [r |].
    + destruct Ho as (before & after & -> & Hdom & _).
      exists (Some [r]). split; [done |]. split.
      * split; [done |]. intros (i & Hi & Hno). exfalso. apply Hno.
        exists r. split; [set_solver | by apply Hdom].
      * intros c [= <-] i Hi. exists r. split; [set_solver | by apply Hdom].
    + destruct (cover_loop_spec (S (length robots)) (ones (Task.requirements task)) [] robots)
        as (res & -> & Hnone & Hsome); [lia |].
      exists res. split; [done |]. split.
      * rewrite Hnone. split.
        -- intros (i & Hi & Hno). exists i. split; [by apply elem_of_ones |].
           intros (r & Hr & Hri). apply (Hno r Hr). by apply elem_of_ones.
        -- intros (i & Hi & Hno). exists i. split; [by apply elem_of_ones |].
           intros r Hr Hri. apply Hno. exists r. split; [done | by apply elem_of_ones].
      * intros c Hc i Hi. destruct (Hsome c Hc) as (Hcov & _).
        destruct (Hcov i) as (r & Hr & Hri); [by apply elem_of_ones |].
        exists r. split; [done | by apply elem_of_ones].
  - pose proof (proj1 (any_required_false _) Hany) as Hnone. exists (Some []). split; [done |]. split.
    + split; [done |]. intros (i & Hi & _). by apply Hnone in Hi.
    + intros c _ i Hi. by apply Hnone in Hi.
Qed.

Lemma find_minimal_coalition_feasible_iff_covered_witness :
  roster_fits (length (Task.requirements two_skill_task)) specialists /\
  exists res, find_minimal_coalition two_skill_task specialists = Ret res /\
    (res = None <->
       exists i, Task.requirements two_skill_task !! i = Some 1%Z /\
                 ~ union_covers specialists i) /\
    (forall c, res = Some c ->
       forall i, Task.requirements two_skill_task !! i = Some 1%Z -> union_covers c i).
Proof.
  split; [compute_done |].
  apply (find_minimal_coalition_feasible_iff_covered two_skill_task specialists).
  compute_done.
Defined.

Lemma first_capable_first req before r after :
  roster_fits (length req) (before ++ r :: after) ->
  dominates (Robot.skills r) req ->
  Forall (fun r' => ~ dominates (Robot.skills r') req) before ->
  first_capable req (before ++ r :: after) = Ret (Some r).
Proof.
  intros Hfit Hdom Hbefore. induction Hbefore as [|r' before Hr' _ IH]; simpl in *.
  - apply Forall_cons in Hfit as [[Hbin Hlen] _].
    destruct (has_skills_spec r req Hbin Hlen) as (b & -> & Hiff). simpl.
    apply Hiff in Hdom as ->. done.
  - apply Forall_cons in Hfit as [[Hbin Hlen] Hfit].
    destruct (has_skills_spec r' req Hbin Hlen) as (b & -> & Hiff). simpl.
    destruct b; [by destruct Hr'; apply Hiff | by apply IH].
Qed.

(** C7. When the requirement vector has a set bit and some robot dominates
    it, the coalition is the singleton of the first dominating robot of the
    roster; where robot ids are roster positions, that robot has the least
    id among the dominating ones; and on the store the call allocates the
    singleton list and nothing else (neither the [coalition] nor the
    [available_robots] list of the set-cover search). *)
Theorem first_dominating_robot_is_the_coalition task before r after :
  roster_fits (length (Task.requirements task)) (before ++ r :: after) ->
  (exists i, Task.requirements task !! i = Some 1%Z) ->
  dominates (Robot.skills r) (Task.requirements task) ->
  Forall (fun r' => ~ dominates (Robot.skills r') (Task.requirements task)) before ->
  find_minimal_coalition task (before ++ r :: after) = Ret (Some [r]) /\
  (ids_are_positions (before ++ r :: after) ->
   forall r', r' ∈ before ++ r :: after ->
              dominates (Robot.skills r') (Task.requirements task) ->
              (Robot.id r <= Robot.id r')%nat) /\
  (forall s, ProblemInstance.robots (Store.problem s) = before ++ r :: after ->
     OnStore.find_minimal_coalition task Store.ProblemRobots s
     = Ret (Some (Store.LocalRobots (length (Store.robot_lists s))),
            Store.mk (Store.problem s) (Store.task_lists s)
                     (Store.robot_lists s ++ [[r]]))).
Proof.
  intros Hfit Hany Hdom Hbefore. split_and!.
  - unfold find_minimal_coalition.
    apply any_required_true in Hany as ->. cbn [negb].
    by rewrite first_capable_first.
  - intros Hids r' Hin Hdom'.
    apply list_elem_of_lookup in Hin as [j Hj].
    rewrite (Hids j r' Hj).
    rewrite (Hids (length before) r) by (by rewrite list_lookup_middle).
    destruct (decide (j < length before)%nat) as [Hlt | ?]; [| lia].
    rewrite lookup_app_l in Hj by done.
    eapply Forall_lookup_1 in Hbefore; [| exact Hj]. done.
  - intros s Hs. unfold OnStore.find_minimal_coalition.
    apply any_required_true in Hany as ->. cbn [negb].
    unfold sbind at 1. cbn [read_robots]. rewrite Hs.
    unfold sbind at 1, lift at 1. by rewrite first_capable_first.
Qed.

Lemma first_dominating_robot_is_the_coalition_witness :
  roster_fits (length (Task.requirements both_skills_task)) generalists /\
  (exists i, Task.requirements both_skills_task !! i = Some 1%Z) /\
  dominates [1; 1]%Z (Task.requirements both_skills_task) /\
  Forall (fun r' => ~ dominates (Robot.skills r') (Task.requirements both_skills_task))
         [Robot.mk 0 [0; 1]%Z] /\
  find_minimal_coalition both_skills_task generalists
    = Ret (Some [Robot.mk 1 [1; 1]%Z]) /\
  (ids_are_positions generalists ->
   forall r', r' ∈ generalists ->
              dominates (Robot.skills r') (Task.requirements both_skills_task) ->
              (1 <= Robot.id r')%nat) /\
  (forall s, ProblemInstance.robots (Store.problem s) = generalists ->
     OnStore.find_minimal_coalition both_skills_task Store.ProblemRobots s
     = Ret (Some (Store.LocalRobots (length (Store.robot_lists s))),
            Store.mk (Store.problem s) (Store.task_lists s)
                     (Store.robot_lists s ++ [[Robot.mk 1 [1; 1]%Z]]))).
Proof.
  assert (Hfit : roster_fits (length (Task.requirements both_skills_task)) generalists)
    by compute_done.
  assert (Hany : exists i, Task.requirements both_skills_task !! i = Some 1%Z)
    by (by exists 0%nat).
  assert (Hdom : dominates [1; 1]%Z (Task.requirements both_skills_task))
    by (intros [|[|i]] Hi; simpl in *; done).
  assert (Hbefore : Forall (fun r' => ~ dominates (Robot.skills r')
                                         (Task.requirements both_skills_task))
                           [Robot.mk 0 [0; 1]%Z]).
  { constructor; [| constructor]. intros Hd. by specialize (Hd 0%nat eq_refl). }
  split_and!; [done.. | | |];
    apply (first_dominating_robot_is_the_coalition both_skills_task
             [Robot.mk 0 [0; 1]%Z] (Robot.mk 1 [1; 1]%Z) [Robot.mk 2 [1; 1]%Z]
             Hfit Hany Hdom Hbefore).
Defined.

(** ** One round of the scheduler *)

Lemma max_list_Ret xs m :
  max_list xs = Ret m -> m ∈ xs /\ forall x, x ∈ xs -> (x <= m)%Q.
Proof.
  destruct xs as [|x xs]; simpl; [done |]. intros [= <-]. split.
  - apply max_from_elem_of.
  - intros y [-> | Hy]%elem_of_cons; [apply max_from_ge_first | by apply max_from_ge].
Qed.

Lemma arrival_time_Ret problem st t r x :
  arrival_time problem st t r = Ret x <-> arrives problem st t r x.
Proof.
  unfold arrival_time, arrives. split.
  - intros H. inv_ret. subst x.
    apply index_Ret in E, E0, E1, E2. by exists v, v0, v1, v2.
  - intros (free & here & row & travel & H1 & H2 & H3 & H4 & ->).
    apply index_Ret in H1, H2, H3, H4.
    rewrite H1; cbn [obind]. rewrite H2; cbn [obind].
    rewrite H3; cbn [obind]. by rewrite H4.
Qed.

(** What a candidate is made of. *)
Lemma candidate_Some problem st t c :
  candidate problem st t = Ret (Some c) ->
  all_scheduled st (predecessors_of problem t) = true /\
  find_minimal_coalition t (ProblemInstance.robots problem)
    = Ret (Some (Assignment.coalition c)) /\
  Assignment.coalition c <> [] /\
  timed_by_rule problem st t c.
Proof.
  unfold candidate. destruct (all_scheduled _ _); cbn [negb]; [| done].
  intros H. apply obind_Ret in H as (coalition & Hfind & H).
  destruct coalition as [[|r members] |]; cbn [truthy] in H; try done.
  simpl in H.
  apply obind_Ret in H as (arrivals & Harr & H).
  apply obind_Ret in H as (ready & Hready & H).
  injection H as <-. cbn.
  apply max_list_Ret in Hready as [Hin Hmax].
  apply (comprehension_Ret _ (r :: members)) in Harr.
  split_and!; [done.. |]. split; [done |].
  exists arrivals, ready. split_and!; [| done..].
  eapply Forall2_impl; [exact Harr |]. intros ??. by apply arrival_time_Ret.
Qed.

Lemma best_so_far_step problem st seen acc t acc' :
  best_so_far problem st seen acc ->
  consider problem st acc t = Ret acc' ->
  best_so_far problem st (seen ++ [t]) acc'.
Proof.
  unfold consider. intros Hacc H. inv_ret. destruct v as [c |].
  - assert (Assignment.task c = t) as Htask.
    { apply candidate_Some in E as (_ & _ & _ & [? _]). done. }
    destruct (lt_etime (Assignment.finish_time c) acc.2) eqn:Hlt; simplify_eq.
    + unfold best_so_far; simpl. split; [done |].
      exists seen, []. split_and!; [done | done | | by intros ?? ?%elem_of_nil].
      intros t' c' Hin Hc'. unfold best_so_far in Hacc.
      destruct acc as [[a |] e]; simpl in *.
      * destruct Hacc as (-> & before & after & -> & Ha & Hbefore & Hafter).
        simpl in Hlt. destruct (Qlt_le_dec _ _) as [Hlt' |]; [| done].
        apply elem_of_app in Hin as [Hin | Hin].
        -- specialize (Hbefore _ _ Hin Hc'). lra.
        -- apply elem_of_cons in Hin as [-> | Hin].
           ++ rewrite Ha in Hc'. by simplify_eq.
           ++ specialize (Hafter _ _ Hin Hc'). lra.
      * destruct Hacc as (_ & Hnone).
        apply (proj1 (Forall_forall _ _) Hnone) in Hin. rewrite Hin in Hc'. done.
    + unfold best_so_far in *. destruct acc' as [[a |] e]; simpl in *.
      * destruct Hacc as (-> & before & after & -> & Ha & Hbefore & Hafter).
        split; [done |]. exists before, (after ++ [Assignment.task c]).
        split_and!; [by rewrite <- (assoc_L _) | done..|].
        intros t' c' [Hin | ->%list_elem_of_singleton]%elem_of_app Hc'; [by eapply Hafter |].
        rewrite E in Hc'. simplify_eq. simpl in Hlt.
        by destruct (Qlt_le_dec _ _).
      * destruct Hacc as (-> & _). done.
  - simplify_eq. unfold best_so_far in *. destruct acc' as [[a |] e]; simpl in *.
    + destruct Hacc as (-> & before & after & -> & Ha & Hbefore & Hafter).
      split; [done |]. exists before, (after ++ [t]).
      split_and!; [by rewrite <- (assoc_L _) | done..|].
      intros t' c' [Hin | ->%list_elem_of_singleton]%elem_of_app Hc'; [by eapply Hafter |].
      rewrite E in Hc'. done.
    + destruct Hacc as (-> & Hnone). split; [done |].
      apply Forall_app. split; [done | by constructor].
Qed.

Lemma best_so_far_for_each problem st seen acc tasks acc' :
  best_so_far problem st seen acc ->
  for_each (consider problem st) acc tasks = Ret acc' ->
  best_so_far problem st (seen ++ tasks) acc'.
Proof.
  revert seen acc. induction tasks as [|t tasks IH]; intros seen acc Hacc; simpl.
  - intros [= <-]. by rewrite app_nil_r.
  - intros H. inv_ret.
    rewrite (assoc_L _ seen [t] tasks : seen ++ t :: tasks = (seen ++ [t]) ++ tasks).
    eapply IH; [| exact H]. by eapply best_so_far_step.
Qed.

Lemma select_best_spec problem st acc :
  select_best problem st = Ret acc ->
  best_so_far problem st (State.tasks_to_schedule st) acc.
Proof.
  intros H. apply (best_so_far_for_each problem st [] (None, PosInf) _ _); [| done].
  split; [done | constructor].
Qed.

(** What an iteration that commits has done. *)
Lemma loop_body_Committed problem st a st' :
  loop_body problem st = Ret (Committed a st') ->
  earliest_first problem st (State.tasks_to_schedule st) a /\ commit a st = Ret st'.
Proof.
  unfold loop_body. intros H. inv_ret.
  apply select_best_spec in E. unfold best_so_far in E.
  destruct v.1 as [a' |]; [| done]. inv_ret. simplify_eq.
  by destruct E as [_ ?].
Qed.

Lemma loop_body_Break problem st st' :
  loop_body problem st = Ret (Break st') ->
  Forall (fun t => candidate problem st t = Ret None) (State.tasks_to_schedule st) /\
  st' = abandon st.
Proof.
  unfold loop_body. intros H. inv_ret.
  apply select_best_spec in E. unfold best_so_far in E.
  destruct v.1 as [a' |]; [by inv_ret |]. simplify_eq.
  by destruct E as [_ ?].
Qed.

(** ** Committing an assignment *)

(** Reduces the projections of explicit state records. *)
Ltac state_simpl :=
  cbn [State.robot_available_time State.robot_current_location State.tasks_to_schedule
       State.scheduled_task_ids State.task_finish_times State.robot_schedules
       State.stdout] in *.

Lemma commit_robot_Ret (a : Assignment.t) (st : State.t) r st1 :
  commit_robot a st r = Ret st1 ->
  (Robot.id r < length (State.robot_available_time st))%nat /\
  (Robot.id r < length (State.robot_current_location st))%nat /\
  exists entries,
    State.robot_schedules st !! Robot.id r = Some entries /\
    st1 = {| State.robot_available_time :=
               <[Robot.id r := Assignment.finish_time a]> (State.robot_available_time st);
             State.robot_current_location :=
               <[Robot.id r := Task.id (Assignment.task a)]> (State.robot_current_location st);
             State.tasks_to_schedule := State.tasks_to_schedule st;
             State.scheduled_task_ids := State.scheduled_task_ids st;
             State.task_finish_times := State.task_finish_times st;
             State.robot_schedules :=
               <[Robot.id r := entries ++ [entry_of a]]> (State.robot_schedules st);
             State.stdout := State.stdout st |}.
Proof.
  unfold commit_robot. intros H.
  apply obind_Ret in H as (free & [Hlt1 ->]%setitem_Ret & H).
  apply obind_Ret in H as (here & [Hlt2 ->]%setitem_Ret & H).
  destruct (State.robot_schedules st !! Robot.id r) as [entries |] eqn:Hs; [| done].
  injection H as <-. split_and!; [done.. |]. by exists entries.
Qed.

(** The effect of the loop over a coalition whose members have distinct
    ids: each member's slot is overwritten once, the other slots are kept. *)
Lemma commit_robots_effect (a : Assignment.t) c (st : State.t) st1 :
  NoDup (Robot.id <$> c) ->
  for_each (commit_robot a) st c = Ret st1 ->
  length (State.robot_available_time st1) = length (State.robot_available_time st) /\
  length (State.robot_current_location st1) = length (State.robot_current_location st) /\
  State.tasks_to_schedule st1 = State.tasks_to_schedule st /\
  State.scheduled_task_ids st1 = State.scheduled_task_ids st /\
  State.task_finish_times st1 = State.task_finish_times st /\
  State.stdout st1 = State.stdout st /\
  (forall i, i ∈ Robot.id <$> c ->
     (i < length (State.robot_available_time st))%nat /\
     State.robot_available_time st1 !! i = Some (Assignment.finish_time a) /\
     State.robot_current_location st1 !! i = Some (Task.id (Assignment.task a)) /\
     exists es, State.robot_schedules st !! i = Some es /\
                State.robot_schedules st1 !! i = Some (es ++ [entry_of a])) /\
  (forall i, i ∉ Robot.id <$> c ->
     State.robot_available_time st1 !! i = State.robot_available_time st !! i /\
     State.robot_current_location st1 !! i = State.robot_current_location st !! i /\
     State.robot_schedules st1 !! i = State.robot_schedules st !! i).
Proof.
  revert st. induction c as [|r c IH]; intros st Hnd; simpl.
  - intros [= <-]. split_and!; try done. by intros i ?%elem_of_nil.
  - intros H. apply obind_Ret in H as (st0 & Hr & H).
    apply NoDup_cons in Hnd as [Hr_fresh Hnd].
    apply commit_robot_Ret in Hr as (Hlt1 & Hlt2 & entries & Hentries & ->).
    destruct (IH _ Hnd H) as (Hl1 & Hl2 & Ht & Hs & Hf & Ho & Hin & Hout); clear IH H.
    state_simpl.
    rewrite length_insert in Hl1. rewrite length_insert in Hl2.
    split_and!; try done.
    + intros i [-> | Hi]%elem_of_cons.
      * destruct (Hout _ Hr_fresh) as (Ha & Hc & Hsch).
        rewrite Ha, Hc, Hsch, !list_lookup_insert_eq, lookup_insert_eq by done.
        split_and!; [done.. |]. by exists entries.
      * destruct (Hin _ Hi) as (Hlt & Ha & Hc & es & Hes & Hes').
        rewrite length_insert in Hlt.
        assert (Robot.id r <> i) by (intros <-; done).
        rewrite lookup_insert_ne in Hes by done.
        split_and!; [done.. |]. by exists es.
    + intros i Hi. apply not_elem_of_cons in Hi as [Hne Hi].
      destruct (Hout _ Hi) as (Ha & Hc & Hsch).
      rewrite Ha, Hc, Hsch, !list_lookup_insert_ne, lookup_insert_ne by done. done.
Qed.

Lemma ids_are_positions_seq robots :
  ids_are_positions robots -> Robot.id <$> robots = seq 0 (length robots).
Proof.
  intros Hids. apply list_eq. intros i. rewrite list_lookup_fmap.
  destruct (robots !! i) as [r |] eqn:Hr; simpl.
  - rewrite (Hids _ _ Hr). symmetry. apply lookup_seq. split; [done |].
    by eapply lookup_lt_Some.
  - symmetry. apply lookup_ge_None. rewrite length_seq. by apply lookup_ge_None.
Qed.

Lemma ids_are_positions_NoDup robots :
  ids_are_positions robots -> NoDup (Robot.id <$> robots).
Proof. intros ->%ids_are_positions_seq. apply NoDup_seq. Qed.

(** The members of a candidate's coalition are robots of the roster, each
    taken once. *)
Lemma candidate_coalition problem st t c :
  candidate problem st t = Ret (Some c) ->
  exists rest, Assignment.coalition c ++ rest ≡ₚ ProblemInstance.robots problem.
Proof.
  intros (_ & Hfind & _)%candidate_Some.
  by apply find_minimal_coalition_members in Hfind.
Qed.

Lemma candidate_coalition_NoDup problem st t c :
  ids_are_positions (ProblemInstance.robots problem) ->
  candidate problem st t = Ret (Some c) ->
  NoDup (Robot.id <$> Assignment.coalition c).
Proof.
  intros Hids%ids_are_positions_NoDup [rest Hperm]%candidate_coalition.
  rewrite <- Hperm, fmap_app in Hids. by apply NoDup_app in Hids as [? _].
Qed.

Lemma chain_first_round :
  loop_body chain_problem (initial_state chain_problem)
    = Ret (Committed chain_first chain_after_first).
Proof. vm_compute. reflexivity. Qed.

Lemma chain_second_round :
  loop_body chain_problem chain_after_first = Ret (Committed chain_second chain_final).
Proof. vm_compute. reflexivity. Qed.

Lemma commit_Ret a st st' :
  commit a st = Ret st' ->
  exists st1 remaining,
    for_each (commit_robot a) st (Assignment.coalition a) = Ret st1 /\
    list_remove (Assignment.task a) (State.tasks_to_schedule st1) = Ret remaining /\
    st' = {| State.robot_available_time := State.robot_available_time st1;
             State.robot_current_location := State.robot_current_location st1;
             State.tasks_to_schedule := remaining;
             State.scheduled_task_ids :=
               {[Task.id (Assignment.task a)]} ∪ State.scheduled_task_ids st1;
             State.task_finish_times :=
               <[Task.id (Assignment.task a) := Assignment.finish_time a]>
                 (State.task_finish_times st1);
             State.robot_schedules := State.robot_schedules st1;
             State.stdout := State.stdout st1 |}.
Proof.
  unfold commit. intros H.
  apply obind_Ret in H as (st1 & Hst1 & H).
  apply obind_Ret in H as (remaining & Hrem & H).
  injection H as <-. by exists st1, remaining.
Qed.

(** What the loop over the coalition keeps, whatever the coalition. *)
Lemma commit_robots_shape (a : Assignment.t) c (st : State.t) st1 :
  for_each (commit_robot a) st c = Ret st1 ->
  length (State.robot_available_time st1) = length (State.robot_available_time st) /\
  length (State.robot_current_location st1) = length (State.robot_current_location st) /\
  State.tasks_to_schedule st1 = State.tasks_to_schedule st /\
  State.scheduled_task_ids st1 = State.scheduled_task_ids st /\
  State.task_finish_times st1 = State.task_finish_times st /\
  State.stdout st1 = State.stdout st /\
  (forall i, is_Some (State.robot_schedules st1 !! i)
             <-> is_Some (State.robot_schedules st !! i)).
Proof.
  revert st. induction c as [|r c IH]; intros st; simpl.
  - by intros [= <-].
  - intros H. apply obind_Ret in H as (st0 & Hr & H).
    apply commit_robot_Ret in Hr as (Hlt1 & Hlt2 & entries & Hentries & ->).
    destruct (IH _ H) as (Hl1 & Hl2 & Ht & Hs & Hf & Ho & Hdom); clear IH H.
    state_simpl. rewrite length_insert in Hl1. rewrite length_insert in Hl2.
    split_and!; try done.
    intros i. rewrite Hdom. destruct (decide (Robot.id r = i)) as [<- | Hne].
    + rewrite lookup_insert_eq, Hentries. split; eauto.
    + by rewrite lookup_insert_ne.
Qed.

(** ** The shape of the state is kept *)

Lemma well_shaped_initial problem : well_shaped problem (initial_state problem).
Proof.
  split; simpl.
  - apply length_replicate.
  - apply length_replicate.
  - intros i. rewrite <- elem_of_dom, dom_list_to_map_L, <- list_fmap_compose.
    rewrite elem_of_list_to_set, list_elem_of_fmap. split.
    + intros (j & -> & Hj%elem_of_seq). simpl. lia.
    + intros Hi. exists i. split; [done |]. apply elem_of_seq. lia.
  - done.
  - apply dom_singleton_L.
Qed.

Lemma well_shaped_commit problem st a st' :
  well_shaped problem st -> commit a st = Ret st' -> well_shaped problem st'.
Proof.
  intros [H1 H2 H3 H4 H5] (st1 & remaining & Hst1 & Hrem & ->)%commit_Ret.
  apply commit_robots_shape in Hst1 as (Hl1 & Hl2 & Ht & Hs & Hf & _ & Hdom).
  split; state_simpl.
  - congruence.
  - congruence.
  - intros i. by rewrite Hdom.
  - rewrite Ht in Hrem. apply list_remove_split in Hrem as (l1 & l2 & Hl & -> & _).
    etrans; [| exact H4]. rewrite Hl. apply sublist_app; [done |]. by apply sublist_cons.
  - rewrite dom_insert_L, Hf, Hs, H5. done.
Qed.

Lemma reaches_well_shaped problem tr st :
  reaches problem tr st -> well_shaped problem st.
Proof.
  induction 1 as [|tr st a st' _ IH _ Hbody].
  - apply well_shaped_initial.
  - apply loop_body_Committed in Hbody as [_ Hcommit].
    by eapply well_shaped_commit.
Qed.

Lemma max_default_ge xs d x : x ∈ xs -> (x <= max_default xs d)%Q.
Proof.
  destruct xs as [|y xs]; [by intros ?%elem_of_nil |]. simpl.
  intros [-> | Hin]%elem_of_cons; [apply max_from_ge_first | by apply max_from_ge].
Qed.

Lemma all_scheduled_true (st : State.t) preds :
  all_scheduled st preds = true <-> forall q, q ∈ preds -> q ∈ State.scheduled_task_ids st.
Proof.
  unfold all_scheduled. rewrite forallb_forall. split.
  - intros H q Hq. eapply bool_decide_eq_true_1, H. by apply list_elem_of_In.
  - intros H q Hq. eapply bool_decide_eq_true_2, H. by apply list_elem_of_In.
Qed.




(** ** The fuel is never used up *)

Lemma obind_fuel {A B} (m : outcome A) (k : A -> outcome B) :
  m <> OutOfFuel -> (forall a, m = Ret a -> k a <> OutOfFuel) -> obind m k <> OutOfFuel.
Proof. destruct m; simpl; auto. Qed.

Lemma index_fuel {A} (xs : list A) i : index xs i <> OutOfFuel.
Proof. unfold index. by destruct (xs !! i). Qed.

Lemma setitem_fuel {A} (xs : list A) i v : setitem xs i v <> OutOfFuel.
Proof. unfold setitem. by case_decide. Qed.

Lemma comprehension_fuel {A B} (f : A -> outcome B) xs :
  (forall x, f x <> OutOfFuel) -> comprehension f xs <> OutOfFuel.
Proof.
  intros Hf. induction xs as [|x xs IH]; simpl; [done |].
  apply obind_fuel; [done |]. intros y _. apply obind_fuel; [done |]. done.
Qed.

Lemma for_each_fuel {S A} (body : S -> A -> outcome S) s xs :
  (forall s x, body s x <> OutOfFuel) -> for_each body s xs <> OutOfFuel.
Proof.
  intros Hb. revert s. induction xs as [|x xs IH]; intros s; simpl; [done |].
  apply obind_fuel; [done |]. intros s' _. apply IH.
Qed.

Lemma has_skills_from_fuel sk i req : Robot.has_skills_from sk i req <> OutOfFuel.
Proof.
  revert i. induction req as [|x req IH]; intros i; simpl; [done |].
  case_decide; [| done]. apply obind_fuel; [apply index_fuel |].
  intros s _. by case_decide.
Qed.

Lemma first_capable_fuel req robots : first_capable req robots <> OutOfFuel.
Proof.
  induction robots as [|r robots IH]; simpl; [done |].
  apply obind_fuel; [apply has_skills_from_fuel |]. by intros [] _.
Qed.

Lemma find_minimal_coalition_fuel task robots :
  find_minimal_coalition task robots <> OutOfFuel.
Proof.
  unfold find_minimal_coalition. destruct (negb _); [done |].
  apply obind_fuel; [apply first_capable_fuel |]. intros [r |] _; [done |].
  destruct (cover_loop_spec (S (length robots)) (ones (Task.requirements task)) [] robots)
    as (res & -> & _); [lia | done].
Qed.

Lemma arrival_time_fuel {L} problem (st : State.gen L) t r :
  arrival_time problem st t r <> OutOfFuel.
Proof.
  unfold arrival_time.
  repeat (apply obind_fuel; [apply index_fuel | intros ? _]). done.
Qed.

Lemma candidate_fuel problem st t : candidate problem st t <> OutOfFuel.
Proof.
  unfold candidate. destruct (negb _); [done |].
  apply obind_fuel; [apply find_minimal_coalition_fuel |]. intros c _.
  destruct (truthy c); [| done].
  apply obind_fuel; [apply comprehension_fuel, arrival_time_fuel |]. intros xs _.
  apply obind_fuel; [by destruct xs | done].
Qed.

Lemma select_best_fuel problem st : select_best problem st <> OutOfFuel.
Proof.
  apply for_each_fuel. intros acc t. unfold consider.
  apply obind_fuel; [apply candidate_fuel |]. intros [c |] _; [| done].
  by destruct (lt_etime _ _).
Qed.

Lemma commit_fuel a st : commit a st <> OutOfFuel.
Proof.
  unfold commit. apply obind_fuel.
  - apply for_each_fuel. intros s r. unfold commit_robot.
    apply obind_fuel; [apply setitem_fuel |]. intros ? _.
    apply obind_fuel; [apply setitem_fuel |]. intros ? _.
    by destruct (_ !! _).
  - intros st1 _. apply obind_fuel; [apply list_remove_not_OutOfFuel | done].
Qed.

Lemma loop_body_fuel problem st : loop_body problem st <> OutOfFuel.
Proof.
  unfold loop_body. apply obind_fuel; [apply select_best_fuel |]. intros best _.
  destruct best.1; [| done]. apply obind_fuel; [apply commit_fuel | done].
Qed.

(** ** The [while] loop *)

(** A committing iteration takes exactly one task out of the pending list. *)
Lemma loop_body_Committed_pending problem st a st' :
  loop_body problem st = Ret (Committed a st') ->
  exists before after,
    State.tasks_to_schedule st = before ++ Assignment.task a :: after /\
    State.tasks_to_schedule st' = before ++ after.
Proof.
  intros [_ (st1 & remaining & Hst1 & Hrem & ->)%commit_Ret]%loop_body_Committed.
  apply commit_robots_shape in Hst1 as (_ & _ & Ht & _).
  rewrite Ht in Hrem. apply list_remove_split in Hrem as (l1 & l2 & -> & -> & _).
  by exists l1, l2.
Qed.

Lemma loop_body_Committed_length problem st a st' :
  loop_body problem st = Ret (Committed a st') ->
  length (State.tasks_to_schedule st) = S (length (State.tasks_to_schedule st')).
Proof.
  intros (before & after & -> & ->)%loop_body_Committed_pending.
  rewrite !length_app. simpl. lia.
Qed.

Lemma main_loop_fuel fuel problem st :
  (length (State.tasks_to_schedule st) <= fuel)%nat ->
  main_loop fuel problem st <> OutOfFuel.
Proof.
  revert st. induction fuel as [|fuel IH]; intros st Hlen.
  - destruct (State.tasks_to_schedule st) eqn:Ht; simpl in *; [by rewrite Ht | lia].
  - simpl. destruct (State.tasks_to_schedule st) eqn:Ht; [done |].
    apply obind_fuel; [apply loop_body_fuel |]. intros [a st' | st'] Hbody; [| done].
    apply IH. apply loop_body_Committed_length in Hbody. rewrite Ht in Hbody. simpl in *. lia.
Qed.

Lemma main_loop_more_fuel fuel fuel' problem st :
  (length (State.tasks_to_schedule st) <= fuel)%nat ->
  (length (State.tasks_to_schedule st) <= fuel')%nat ->
  main_loop fuel problem st = main_loop fuel' problem st.
Proof.
  revert fuel' st. induction fuel as [|fuel IH]; intros fuel' st Hlen Hlen'.
  - destruct fuel', (State.tasks_to_schedule st) eqn:Ht; simpl in *;
      rewrite ?Ht; try done; lia.
  - destruct fuel' as [|fuel'].
    { destruct (State.tasks_to_schedule st) eqn:Ht; simpl in *; rewrite ?Ht; [done | lia]. }
    simpl. destruct (State.tasks_to_schedule st) eqn:Ht; [done |].
    destruct (loop_body problem st) as [[a st' | st'] | |] eqn:Hbody; simpl; try done.
    apply loop_body_Committed_length in Hbody. rewrite Ht in Hbody. simpl in *.
    apply IH; lia.
Qed.

Lemma main_loop_run fuel problem st st' :
  main_loop fuel problem st = Ret st' -> exists tr, loop_run problem st tr st'.
Proof.
  revert st. induction fuel as [|fuel IH]; intros st; simpl.
  - destruct (State.tasks_to_schedule st) eqn:Ht; [| done].
    intros [= <-]. exists []. by apply loop_exhausted.
  - destruct (State.tasks_to_schedule st) eqn:Ht.
    { intros [= <-]. exists []. by apply loop_exhausted. }
    intros H. apply obind_Ret in H as ([a st1 | st1] & Hbody & H).
    + destruct (IH _ H) as [tr Htr]. exists (a :: tr).
      eapply loop_commit; [by rewrite Ht | done..].
    + injection H as <-. exists []. apply loop_break; [by rewrite Ht | done].
Qed.

Lemma loop_run_main_loop problem st tr st' :
  loop_run problem st tr st' ->
  main_loop (length (State.tasks_to_schedule st)) problem st = Ret st'.
Proof.
  induction 1 as [st Ht | st st' Ht Hbody | st a st' tr st'' Ht Hbody _ IH].
  - rewrite Ht. simpl. by rewrite Ht.
  - destruct (State.tasks_to_schedule st) eqn:Hts; [done |]. simpl.
    rewrite Hts, Hbody. done.
  - pose proof (loop_body_Committed_length _ _ _ _ Hbody) as Hlen.
    rewrite Hlen. simpl.
    destruct (State.tasks_to_schedule st) eqn:Hts; [done |].
    rewrite Hbody. simpl. exact IH.
Qed.

Lemma loop_run_deterministic problem st tr1 st1 tr2 st2 :
  loop_run problem st tr1 st1 -> loop_run problem st tr2 st2 -> tr1 = tr2 /\ st1 = st2.
Proof.
  intros H1. revert tr2 st2.
  induction H1 as [st Ht | st st' Ht Hbody | st a st' tr st'' Ht Hbody _ IH];
    intros tr2 st2 H2;
    inversion H2 as [? Ht2 | ? ? Ht2 Hb2 | ? a2 st2' tr2' ? Ht2 Hb2 Hrun2]; subst;
    try done; try congruence.
  - split; congruence.
  - assert (a2 = a /\ st2' = st') as [-> ->] by (split; congruence).
    destruct (IH _ _ Hrun2) as [-> ->]. done.
Qed.

Lemma run_loop_run problem st :
  run problem = Ret st <-> exists tr, loop_run problem (initial_state problem) tr st.
Proof.
  unfold run. split.
  - apply main_loop_run.
  - intros [tr Htr]. by apply loop_run_main_loop in Htr.
Qed.

(** The loop-head states of a complete execution. *)
Lemma loop_run_reaches problem tr0 st tr st' :
  reaches problem tr0 st -> loop_run problem st tr st' ->
  exists st0, reaches problem (tr0 ++ tr) st0 /\
              (st' = st0 \/ State.tasks_to_schedule st0 <> [] /\
                            loop_body problem st0 = Ret (Break st')).
Proof.
  intros Hreach Hrun. revert tr0 Hreach.
  induction Hrun as [st Ht | st st' Ht Hbody | st a st' tr st'' Ht Hbody _ IH];
    intros tr0 Hreach.
  - exists st. rewrite app_nil_r. auto.
  - exists st. rewrite app_nil_r. auto.
  - destruct (IH (tr0 ++ [a])) as (st0 & Hst0 & Hend).
    { by eapply reaches_commit. }
    exists st0. rewrite <- (assoc_L _) in Hst0. auto.
Qed.

(** C8. The [while] loop terminates: run on as many steps as there are
    pending tasks (or more) it never exhausts them, and more steps do not
    change its outcome; an iteration either commits, and then exactly one
    task leaves the pending list, or breaks or raises, and then the loop is
    left with that outcome. *)
Theorem main_loop_terminates problem st fuel :
  (length (State.tasks_to_schedule st) <= fuel)%nat ->
  main_loop fuel problem st <> OutOfFuel /\
  main_loop fuel problem st
    = main_loop (length (State.tasks_to_schedule st)) problem st /\
  match loop_body problem st with
  | Ret (Committed a st') =>
      exists before after,
        State.tasks_to_schedule st = before ++ Assignment.task a :: after /\
        State.tasks_to_schedule st' = before ++ after
  | Ret (Break st') =>
      State.tasks_to_schedule st <> [] -> main_loop fuel problem st = Ret st'
  | Raise e =>
      State.tasks_to_schedule st <> [] -> main_loop fuel problem st = Raise e
  | OutOfFuel => False
  end.
Proof.
  intros Hlen. split_and!.
  - by apply main_loop_fuel.
  - by apply main_loop_more_fuel.
  - destruct (loop_body problem st) as [[a st' | st'] | e |] eqn:Hbody.
    + by apply (loop_body_Committed_pending problem).
    + intros Ht. destruct fuel, (State.tasks_to_schedule st) eqn:Hts;
        simpl in *; try done; try lia. by rewrite Hts, Hbody.
    + intros Ht. destruct fuel, (State.tasks_to_schedule st) eqn:Hts;
        simpl in *; try done; try lia. by rewrite Hts, Hbody.
    + by apply (loop_body_fuel problem st).
Qed.

Lemma main_loop_terminates_witness :
  (length (State.tasks_to_schedule (initial_state chain_problem)) <= 2)%nat /\
  main_loop 2 chain_problem (initial_state chain_problem) <> OutOfFuel /\
  main_loop 2 chain_problem (initial_state chain_problem)
    = main_loop (length (State.tasks_to_schedule (initial_state chain_problem)))
                chain_problem (initial_state chain_problem) /\
  exists before after,
    State.tasks_to_schedule (initial_state chain_problem)
      = before ++ Assignment.task chain_first :: after /\
    State.tasks_to_schedule chain_after_first = before ++ after.
Proof.
  assert (Hlen : (length (State.tasks_to_schedule (initial_state chain_problem)) <= 2)%nat)
    by (vm_compute; lia).
  pose proof (main_loop_terminates chain_problem (initial_state chain_problem) 2 Hlen)
    as (Hfuel & Hsame & Hiter).
  rewrite chain_first_round in Hiter. done.
Defined.

(** ** Times along a run *)


Lemma schedule_of_trace_snoc i tr a :
  schedule_of_trace i (tr ++ [a])
    = schedule_of_trace i tr
      ++ (if decide (i ∈ Robot.id <$> Assignment.coalition a) then [entry_of a] else []).
Proof.
  unfold schedule_of_trace. rewrite filter_app, fmap_app. f_equal.
  rewrite filter_cons, filter_nil. by case_decide.
Qed.



(** What the loop over a coalition does to the availability and location
    of the robots, whatever the coalition. *)
Lemma commit_robots_available (a : Assignment.t) c (st : State.t) st1 :
  for_each (commit_robot a) st c = Ret st1 ->
  (forall i, i ∈ Robot.id <$> c ->
     (i < length (State.robot_available_time st))%nat /\
     State.robot_available_time st1 !! i = Some (Assignment.finish_time a) /\
     State.robot_current_location st1 !! i = Some (Task.id (Assignment.task a))) /\
  (forall i, i ∉ Robot.id <$> c ->
     State.robot_available_time st1 !! i = State.robot_available_time st !! i /\
     State.robot_current_location st1 !! i = State.robot_current_location st !! i).
Proof.
  revert st. induction c as [|r c IH]; intros st; simpl.
  - intros [= <-]. split; [by intros i ?%elem_of_nil | done].
  - intros H. apply obind_Ret in H as (st0 & Hr & H).
    apply commit_robot_Ret in Hr as (Hlt1 & Hlt2 & entries & Hentries & ->).
    destruct (IH _ H) as (Hin & Hout); clear IH H. state_simpl.
    split.
    + intros i Hi. destruct (decide (i ∈ Robot.id <$> c)) as [Hic | Hic].
      * destruct (Hin i Hic) as (Hlt & Ha & Hc). by rewrite length_insert in Hlt.
      * apply elem_of_cons in Hi as [-> | Hi]; [| done].
        destruct (Hout _ Hic) as (Ha & Hc).
        rewrite Ha, Hc, !list_lookup_insert_eq by done. done.
    + intros i Hi. apply not_elem_of_cons in Hi as [Hne Hi].
      destruct (Hout _ Hi) as (Ha & Hc).
      rewrite Ha, Hc, !list_lookup_insert_ne by done. done.
Qed.


(** What a committing iteration does to the schedules, for a roster whose
    ids are its positions. *)
Lemma committed_step_schedules problem st a st' :
  ids_are_positions (ProblemInstance.robots problem) ->
  loop_body problem st = Ret (Committed a st') ->
  (forall i, i ∈ Robot.id <$> Assignment.coalition a ->
     exists es, State.robot_schedules st !! i = Some es /\
                State.robot_schedules st' !! i = Some (es ++ [entry_of a])) /\
  (forall i, i ∉ Robot.id <$> Assignment.coalition a ->
     State.robot_schedules st' !! i = State.robot_schedules st !! i).
Proof.
  intros Hids Hbody.
  apply loop_body_Committed in Hbody as [(before & after & Htasks & Hcand & _) Hcommit].
  pose proof (candidate_coalition_NoDup _ _ _ _ Hids Hcand) as Hnd.
  apply commit_Ret in Hcommit as (st1 & remaining & Hst1 & _ & ->). state_simpl.
  apply (commit_robots_effect _ _ _ _ Hnd) in Hst1
    as (_ & _ & _ & _ & _ & _ & Hin & Hout).
  split.
  - intros i Hi. destruct (Hin i Hi) as (_ & _ & _ & Hes). done.
  - intros i Hi. destruct (Hout i Hi) as (_ & _ & Hes). done.
Qed.


Lemma initial_schedules problem i :
  (i < ProblemInstance.num_robots problem)%nat ->
  State.robot_schedules (initial_state problem) !! i = Some [].
Proof.
  intros Hi. simpl. apply elem_of_list_to_map.
  - rewrite <- list_fmap_compose. simpl. rewrite list_fmap_id. apply NoDup_seq.
  - apply list_elem_of_fmap. exists i. split; [done |]. apply elem_of_seq. lia.
Qed.







(** The state in which a complete execution leaves the loop differs from a
    loop-head state at most by what was printed. *)
Lemma loop_run_final problem tr st :
  loop_run problem (initial_state problem) tr st ->
  exists st0, reaches problem tr st0 /\ (st = st0 \/ st = abandon st0).
Proof.
  intros Hrun.
  destruct (loop_run_reaches problem [] _ _ _ (reaches_initial problem) Hrun)
    as (st0 & Hst0 & [-> | [_ Hbreak]]); simpl in Hst0.
  - exists st0. auto.
  - apply loop_body_Break in Hbreak as [_ ->]. exists st0. auto.
Qed.

Lemma abandon_fields st :
  State.robot_available_time (abandon st) = State.robot_available_time st /\
  State.robot_current_location (abandon st) = State.robot_current_location st /\
  State.tasks_to_schedule (abandon st) = State.tasks_to_schedule st /\
  State.scheduled_task_ids (abandon st) = State.scheduled_task_ids st /\
  State.task_finish_times (abandon st) = State.task_finish_times st /\
  State.robot_schedules (abandon st) = State.robot_schedules st.
Proof. unfold abandon. destruct (State.tasks_to_schedule st) eqn:E; split_and!; done. Qed.



Lemma loop_run_well_shaped problem tr st :
  loop_run problem (initial_state problem) tr st -> well_shaped problem st.
Proof.
  intros (st0 & Hreach & Hst)%loop_run_final.
  pose proof (reaches_well_shaped _ _ _ Hreach) as Hs.
  destruct Hst as [-> | ->]; [done |].
  destruct (abandon_fields st0) as (E1 & E2 & E3 & E4 & E5 & E6).
  destruct Hs. split; rewrite ?E1, ?E2, ?E3, ?E4, ?E5, ?E6; done.
Qed.

(** Each robot's schedule holds the entries of the committed assignments it
    took part in, oldest first. *)
Lemma reaches_schedule_entries problem tr st :
  ids_are_positions (ProblemInstance.robots problem) ->
  reaches problem tr st ->
  forall i, (i < ProblemInstance.num_robots problem)%nat ->
            State.robot_schedules st !! i = Some (schedule_of_trace i tr).
Proof.
  intros Hids. induction 1 as [|tr st a st' Hreach IH _ Hbody]; intros i Hi.
  - by apply initial_schedules.
  - pose proof (committed_step_schedules _ _ _ _ Hids Hbody) as (Hsin & Hsout).
    rewrite schedule_of_trace_snoc. case_decide as Hmem.
    + destruct (Hsin i Hmem) as (es & Hes & Hes').
      rewrite IH in Hes by done. injection Hes as <-. done.
    + rewrite (Hsout i Hmem), app_nil_r. by apply IH.
Qed.

Lemma loop_run_schedule_entries problem tr st :
  ids_are_positions (ProblemInstance.robots problem) ->
  loop_run problem (initial_state problem) tr st ->
  forall i, (i < ProblemInstance.num_robots problem)%nat ->
            State.robot_schedules st !! i = Some (schedule_of_trace i tr).
Proof.
  intros Hids (st0 & Hreach & Hst)%loop_run_final i Hi.
  pose proof (reaches_schedule_entries _ _ _ Hids Hreach i Hi) as Hs.
  destruct Hst as [-> | ->]; [done |].
  destruct (abandon_fields st0) as (_ & _ & _ & _ & _ & ->). done.
Qed.

(** ** The returned record *)

Lemma makespan_of_Ret times :
  exists m, makespan_of times = Ret m /\
    match times with
    | [] => m = 0%Q
    | _ :: _ => m ∈ times /\ forall x, x ∈ times -> (x <= m)%Q
    end.
Proof.
  destruct times as [|x times]; [by exists 0%Q |].
  destruct (max_list (x :: times)) as [m | |] eqn:Hm; try done.
  exists m. split; [done |]. by apply max_list_Ret.
Qed.

Lemma greedy_heuristic_of_run problem st :
  run problem = Ret st ->
  exists res,
    greedy_heuristic problem = Ret res /\
    makespan_of (State.robot_available_time st) = Ret (Result.makespan res) /\
    Result.n_tasks res = length (ProblemInstance.get_real_tasks problem) /\
    Result.n_robots res = ProblemInstance.num_robots problem /\
    Result.robot_schedules res = State.robot_schedules st.
Proof.
  intros Hrun. unfold greedy_heuristic, result_of. rewrite Hrun. cbn [obind].
  destruct (makespan_of_Ret (State.robot_available_time st)) as (m & -> & _).
  cbn [obind]. eexists. split; [done |]. done.
Qed.



Lemma chain_loop_run :
  loop_run chain_problem (initial_state chain_problem) [chain_first; chain_second] chain_final.
Proof.
  eapply loop_commit; [discriminate | apply chain_first_round |].
  eapply loop_commit; [discriminate | apply chain_second_round |].
  by apply loop_exhausted.
Qed.

Lemma chain_ids_are_positions : ids_are_positions (ProblemInstance.robots chain_problem).
Proof. intros [|i] r Hr; simpl in Hr; by simplify_eq. Qed.




(** ** A round without candidate *)

Lemma select_best_none problem st :
  Forall (fun t => candidate problem st t = Ret None) (State.tasks_to_schedule st) ->
  select_best problem st = Ret (None, PosInf).
Proof.
  unfold select_best. induction 1 as [|t tasks Ht _ IH]; simpl; [done |].
  unfold consider at 1. rewrite Ht. simpl. exact IH.
Qed.

Lemma reaches_loop_run problem tr st tr' st' :
  reaches problem tr st -> loop_run problem st tr' st' ->
  loop_run problem (initial_state problem) (tr ++ tr') st'.
Proof.
  intros Hreach. revert tr' st'.
  induction Hreach as [|tr st a st1 _ IH Ht Hbody]; intros tr' st' Hrun; [done |].
  rewrite <- (assoc_L _). apply IH. simpl. by eapply loop_commit.
Qed.

(** C6. When, at the head of the loop, tasks are pending and none of them
    has a candidate, the loop is left through its [break]: the call returns
    a record (it does not raise) whose schedules are those of that state,
    that is the entries of the assignments committed before; the pending
    tasks stay pending, no task id is added to [scheduled_task_ids], and
    the warning is printed. *)
Theorem stall_returns_partial_schedule problem tr st :
  reaches problem tr st ->
  State.tasks_to_schedule st <> [] ->
  Forall (fun t => candidate problem st t = Ret None) (State.tasks_to_schedule st) ->
  exists res,
    greedy_heuristic problem = Ret res /\
    loop_run problem (initial_state problem) tr (abandon st) /\
    Result.robot_schedules res = State.robot_schedules st /\
    State.tasks_to_schedule (abandon st) = State.tasks_to_schedule st /\
    State.scheduled_task_ids (abandon st) = State.scheduled_task_ids st /\
    State.stdout (abandon st) = State.stdout st ++ [warning] /\
    (ids_are_positions (ProblemInstance.robots problem) ->
     forall i, (i < ProblemInstance.num_robots problem)%nat ->
               Result.robot_schedules res !! i = Some (schedule_of_trace i tr)).
Proof.
  intros Hreach Hpending Hnone.
  assert (loop_body problem st = Ret (Break (abandon st))) as Hbody.
  { unfold loop_body. by rewrite select_best_none. }
  assert (loop_run problem (initial_state problem) tr (abandon st)) as Hrun.
  { rewrite <- (app_nil_r tr). eapply reaches_loop_run; [done |]. by apply loop_break. }
  assert (run problem = Ret (abandon st)) as Hst by (apply run_loop_run; eauto).
  destruct (greedy_heuristic_of_run _ _ Hst) as (res & Hres & _ & _ & _ & Hsched).
  destruct (abandon_fields st) as (_ & _ & E3 & E4 & _ & E6).
  exists res. split_and!; try done.
  - by rewrite Hsched.
  - unfold abandon. by destruct (State.tasks_to_schedule st).
  - intros Hids i Hi. rewrite Hsched, E6.
    by apply (reaches_schedule_entries problem tr st).
Qed.

Lemma stall_first_round :
  loop_body stall_problem (initial_state stall_problem)
    = Ret (Committed stall_first stall_after_first).
Proof. vm_compute. reflexivity. Qed.

Lemma stall_reaches_after_first : reaches stall_problem [stall_first] stall_after_first.
Proof.
  apply (reaches_commit stall_problem [] (initial_state stall_problem)
           stall_first stall_after_first).
  - apply reaches_initial.
  - discriminate.
  - apply stall_first_round.
Qed.

Lemma stall_returns_partial_schedule_witness :
  reaches stall_problem [stall_first] stall_after_first /\
  State.tasks_to_schedule stall_after_first <> [] /\
  Forall (fun t => candidate stall_problem stall_after_first t = Ret None)
         (State.tasks_to_schedule stall_after_first) /\
  exists res,
    greedy_heuristic stall_problem = Ret res /\
    loop_run stall_problem (initial_state stall_problem) [stall_first]
             (abandon stall_after_first) /\
    Result.robot_schedules res = State.robot_schedules stall_after_first /\
    State.tasks_to_schedule (abandon stall_after_first)
      = State.tasks_to_schedule stall_after_first /\
    State.scheduled_task_ids (abandon stall_after_first)
      = State.scheduled_task_ids stall_after_first /\
    State.stdout (abandon stall_after_first)
      = State.stdout stall_after_first ++ [warning] /\
    (ids_are_positions (ProblemInstance.robots stall_problem) ->
     forall i, (i < ProblemInstance.num_robots stall_problem)%nat ->
               Result.robot_schedules res !! i = Some (schedule_of_trace i [stall_first])).
Proof.
  assert (Hnone : Forall (fun t => candidate stall_problem stall_after_first t = Ret None)
                         (State.tasks_to_schedule stall_after_first)).
  { repeat constructor. }
  split; [apply stall_reaches_after_first |].
  split; [discriminate |].
  split; [exact Hnone |].
  apply (stall_returns_partial_schedule stall_problem [stall_first] stall_after_first).
  - apply stall_reaches_after_first.
  - discriminate.
  - exact Hnone.
Defined.

(** A task without requirement gets the empty coalition, and the empty
    coalition gets no candidate. *)
Lemma find_minimal_coalition_no_requirement task robots :
  any_required (Task.requirements task) = false ->
  find_minimal_coalition task robots = Ret (Some []).
Proof. unfold find_minimal_coalition. by intros ->. Qed.

Lemma candidate_no_requirement problem st task :
  any_required (Task.requirements task) = false ->
  candidate problem st task = Ret None.
Proof.
  intros Hany. unfold candidate. destruct (negb _); [done |].
  by rewrite find_minimal_coalition_no_requirement.
Qed.

(** The example instances are what the constructor builds from raw input. *)
Lemma idle_problem_is_built : ProblemInstance.init idle_raw = Ret idle_problem.
Proof. vm_compute. reflexivity. Qed.

Lemma chain_problem_is_built : ProblemInstance.init chain_raw = Ret chain_problem.
Proof. vm_compute. reflexivity. Qed.

Lemma tie_problem_is_built : ProblemInstance.init tie_raw = Ret tie_problem.
Proof. vm_compute. reflexivity. Qed.

Lemma stall_problem_is_built : ProblemInstance.init stall_raw = Ret stall_problem.
Proof. vm_compute. reflexivity. Qed.

(** C1 (the code departs from the claim). On [idle_problem], built from
    [idle_raw], whose only real task has the requirement vector [[0]]: the
    coalition finder returns the empty coalition, the scheduler derives no
    candidate from it, and the run ends in the first round with the task
    still pending, its id not in [scheduled_task_ids], no finish time
    recorded for it, the warning printed and a makespan of 0. *)
Theorem task_without_requirement_is_left_pending :
  ProblemInstance.init idle_raw = Ret idle_problem /\
  find_minimal_coalition idle_task (ProblemInstance.robots idle_problem) = Ret (Some []) /\
  candidate idle_problem (initial_state idle_problem) idle_task = Ret None /\
  run idle_problem = Ret (abandon (initial_state idle_problem)) /\
  State.tasks_to_schedule (abandon (initial_state idle_problem)) = [idle_task] /\
  (Task.id idle_task ∉ State.scheduled_task_ids (abandon (initial_state idle_problem))) /\
  State.task_finish_times (abandon (initial_state idle_problem)) !! Task.id idle_task = None /\
  State.stdout (abandon (initial_state idle_problem)) = [warning] /\
  greedy_heuristic idle_problem
    = Ret (Result.mk 0 1 1 {[0 := []]}).
Proof.
  split_and!; try (vm_compute; reflexivity).
  simpl. set_solver.
Qed.

(** ** The constructor *)

Lemma comprehension_seq_lookup {B} (f : nat -> outcome B) start n ys i y :
  comprehension f (seq start n) = Ret ys ->
  ys !! i = Some y -> f (start + i)%nat = Ret y.
Proof.
  intros Hc%comprehension_Ret Hy.
  destruct (Forall2_lookup_r _ _ _ _ _ Hc Hy) as (j & Hj & Hf).
  apply lookup_seq in Hj as [-> _]. done.
Qed.


(** ** The store-level code does what the value-level code does *)

Lemma refines_bind {A B A' B'} (R1 : B -> A -> Store.t -> Prop)
    (R2 : B' -> A' -> Store.t -> Prop) p (m : stateful A) kp km s :
  refines R1 p (m s) ->
  (forall b a s', R1 b a s' -> refines R2 (kp b) (km a s')) ->
  refines R2 (obind p kp) (sbind m km s).
Proof.
  unfold refines, sbind. intros H1 H2.
  destruct p as [b | e |], (m s) as [[a s'] | e' |]; simpl; try done.
  by apply H2.
Qed.

Lemma refines_lift {A} (o : outcome A) s :
  refines (fun b a s' => a = b /\ s' = s) o (lift o s).
Proof. by destruct o. Qed.

Lemma refines_impl {A B} (R R' : B -> A -> Store.t -> Prop) p m :
  refines R p m -> (forall b a s', R b a s' -> R' b a s') -> refines R' p m.
Proof.
  unfold refines. destruct p as [b | |], m as [[a s'] | |]; try done.
  intros H HR. by apply HR.
Qed.

Lemma read_robots_deref r s l :
  deref_robots s r = Some l -> read_robots r s = Ret (l, s).
Proof. destruct r; simpl; [by intros [= <-] | by intros ->]. Qed.

Lemma read_tasks_deref r s l :
  deref_tasks s r = Some l -> read_tasks r s = Ret (l, s).
Proof. destruct r; simpl; [by intros [= <-] | by intros ->]. Qed.

Lemma grows_refl s : grows s s.
Proof. by split. Qed.

Lemma grows_trans s1 s2 s3 : grows s1 s2 -> grows s2 s3 -> grows s1 s3.
Proof.
  intros [H1 H2 H3] [H1' H2' H3']. split; [congruence.. |]. by etrans.
Qed.

Lemma grows_deref_robots s s' r l :
  grows s s' -> deref_robots s r = Some l -> deref_robots s' r = Some l.
Proof.
  intros [Hp _ Hr]. destruct r as [|k]; simpl.
  - by rewrite Hp.
  - intros Hk. by eapply prefix_lookup_Some.
Qed.

Lemma grows_deref_tasks s s' r : grows s s' -> deref_tasks s' r = deref_tasks s r.
Proof. intros [Hp Ht _]. destruct r as [|k]; simpl; by rewrite ?Hp, ?Ht. Qed.

Lemma grows_denote_assignment s s' a a' :
  grows s s' -> denote_assignment s a = Some a' -> denote_assignment s' a = Some a'.
Proof.
  unfold denote_assignment. intros Hg.
  destruct (deref_robots s (Assignment.coalition a)) as [c |] eqn:Hc; [| done].
  by rewrite (grows_deref_robots _ _ _ _ Hg Hc).
Qed.

Lemma grows_denote_state s s' st : grows s s' -> denote_state s' st = denote_state s st.
Proof. intros Hg. unfold denote_state. by rewrite (grows_deref_tasks _ _ _ Hg). Qed.

(** The two list objects of the cover loop are the only ones it writes. *)
Lemma cover_loop_refines fuel U kc ka C A s :
  kc <> ka ->
  Store.robot_lists s !! kc = Some C ->
  Store.robot_lists s !! ka = Some A ->
  refines (fun res r s' =>
             Store.problem s' = Store.problem s /\
             Store.task_lists s' = Store.task_lists s /\
             length (Store.robot_lists s') = length (Store.robot_lists s) /\
             (forall k, k <> kc -> k <> ka ->
                        Store.robot_lists s' !! k = Store.robot_lists s !! k) /\
             match res, r with
             | Some c, Some r => r = Store.LocalRobots kc /\ Store.robot_lists s' !! kc = Some c
             | None, None => True
             | _, _ => False
             end)
          (cover_loop fuel U C A)
          (OnStore.cover_loop fuel U (Store.LocalRobots kc) (Store.LocalRobots ka) s).
Proof.
  intros Hne. revert U C A s. induction fuel as [|fuel IH]; intros U C A s HC HA; simpl.
  - case_decide; simpl; [| done]. by split_and!.
  - case_decide; simpl; [by split_and! |].
    unfold sbind at 1. simpl. rewrite HA.
    destruct (find_best U A) as [[best |] cov]; [| by split_and!].
    unfold sbind at 1. simpl. rewrite HC.
    unfold sbind at 1. simpl.
    pose proof (lookup_lt_Some _ _ _ HC) as HltC.
    pose proof (lookup_lt_Some _ _ _ HA) as HltA.
    rewrite decide_True by done.
    unfold sbind at 1. simpl. rewrite list_lookup_insert_ne by done. rewrite HA.
    unfold sbind at 1, lift at 1.
    destruct (list_remove best A) as [rest | e |]; simpl; [| done..].
    unfold sbind at 1. simpl. rewrite length_insert, decide_True by done.
    set (s2 := Store.mk _ _ _).
    eapply refines_impl; [apply (IH _ (C ++ [best]) rest s2) |].
    + subst s2. simpl. rewrite list_lookup_insert_ne by done.
      by rewrite list_lookup_insert_eq.
    + subst s2. simpl. by rewrite list_lookup_insert_eq by (by rewrite length_insert).
    + subst s2. simpl. intros res r s' (Hp & Ht & Hl & Hk & Hres).
      rewrite !length_insert in Hl. split_and!; try done.
      intros k Hkc Hka. rewrite Hk by done.
      by rewrite !list_lookup_insert_ne by done.
Qed.

Lemma prefix_of_lookups {A} (l l' : list A) :
  (forall k, (k < length l)%nat -> l' !! k = l !! k) -> l `prefix_of` l'.
Proof.
  intros H. exists (drop (length l) l'). apply list_eq. intros k.
  destruct (decide (k < length l)%nat) as [Hlt | Hge].
  - rewrite lookup_app_l by done. by apply H.
  - rewrite lookup_app_r, lookup_drop by lia. f_equal. lia.
Qed.

#[local] Opaque cover_loop OnStore.cover_loop.

(** A returned coalition is a list object of the store; the roster and all
    earlier lists are as before. *)
Lemma find_minimal_coalition_refines task s :
  refines (fun res r s' =>
             grows s s' /\
             match res, r with
             | Some c, Some r => deref_robots s' r = Some c
             | None, None => True
             | _, _ => False
             end)
          (find_minimal_coalition task (ProblemInstance.robots (Store.problem s)))
          (OnStore.find_minimal_coalition task Store.ProblemRobots s).
Proof.
  unfold find_minimal_coalition, OnStore.find_minimal_coalition.
  destruct (negb _).
  { simpl. split; [| by rewrite lookup_app_r, Nat.sub_diag by done].
    split; simpl; [done.. | by apply prefix_app_r]. }
  unfold sbind at 1. simpl. unfold sbind at 1, lift at 1.
  destruct (first_capable _ _) as [[robot |] | e |]; cbn [obind]; try done.
  { simpl. split; [| by rewrite lookup_app_r, Nat.sub_diag by done].
    split; simpl; [done.. | by apply prefix_app_r]. }
  unfold sbind at 1. simpl. unfold sbind at 1. simpl. unfold sbind at 1. simpl.
  set (n := length (Store.robot_lists s)).
  set (s2 := Store.mk _ _ _).
  assert (Hka : length (Store.robot_lists s ++ [[]]) = S n)
    by (rewrite length_app; simpl; lia).
  eapply refines_impl.
  - apply (cover_loop_refines _ _ n (length (Store.robot_lists s ++ [[]]))
             [] (ProblemInstance.robots (Store.problem s)) s2).
    + lia.
    + subst s2 n. simpl. rewrite lookup_app_l by lia.
      by rewrite lookup_app_r, Nat.sub_diag by done.
    + subst s2. simpl. by rewrite lookup_app_r, Nat.sub_diag by done.
  - subst s2. simpl. intros res r s' (Hp & Ht & Hl & Hk & Hres). split.
    + split; [done.. |]. apply prefix_of_lookups. intros k Hlt.
      rewrite Hk by (subst n; lia).
      rewrite lookup_app_l by lia.
      by rewrite lookup_app_l by done.
    + destruct res, r; try done. by destruct Hres as [-> ?].
Qed.

#[local] Transparent cover_loop OnStore.cover_loop.

#[local] Opaque find_minimal_coalition OnStore.find_minimal_coalition.

Lemma candidate_refines (st : OnStore.state) l task s :
  refines (fun c c' s' => grows s s' /\ same_assignment s' c c')
          (candidate (Store.problem s) (retarget l st) task)
          (OnStore.candidate st task s).
Proof.
  unfold candidate, OnStore.candidate.
  unfold sbind at 1, get_problem at 1.
  change (all_scheduled (retarget l st)) with (all_scheduled st).
  change (max_pred_finish_time (retarget l st))
    with (max_pred_finish_time st).
  destruct (negb _); [by split; [apply grows_refl |] |].
  eapply refines_bind; [apply find_minimal_coalition_refines |].
  intros res r s1 [Hg Hres]. cbn beta.
  pose proof (grows_problem _ _ Hg) as Hp.
  destruct res as [c |], r as [r |]; try done; cbn [truthy OnStore.truthy].
  unfold sbind at 1. unfold sbind at 1.
  rewrite (read_robots_deref _ _ _ Hres). unfold sret at 1.
  destruct c as [|x c]; [by split |]. cbn [default from_option id].
  unfold sbind at 1. rewrite (read_robots_deref _ _ _ Hres).
  unfold sbind at 1, get_problem at 1. rewrite Hp.
  change (arrival_time (Store.problem s) (retarget l st))
    with (arrival_time (Store.problem s) st).
  unfold sbind at 1, lift at 1.
  destruct (comprehension _ _) as [arrivals | e |]; cbn [obind]; [| done..].
  unfold sbind at 1, lift at 1.
  destruct (max_list arrivals) as [ready | e |]; cbn [obind]; [| done..].
  split; [done |]. unfold same_assignment, denote_assignment. simpl.
  by rewrite Hres.
Qed.

Lemma same_assignment_finish s a a' :
  denote_assignment s a' = Some a -> Assignment.finish_time a' = Assignment.finish_time a.
Proof.
  unfold denote_assignment. destruct (deref_robots _ _); [| done]. by intros [= <-].
Qed.

Lemma same_assignment_grows s s' c c' :
  grows s s' -> same_assignment s c c' -> same_assignment s' c c'.
Proof.
  intros Hg. destruct c, c'; simpl; try done. by apply grows_denote_assignment.
Qed.

Lemma consider_refines (st : OnStore.state) l acc acc' task s :
  same_best s acc acc' ->
  refines (fun b b' s' => grows s s' /\ same_best s' b b')
          (consider (Store.problem s) (retarget l st) acc task)
          (OnStore.consider st acc' task s).
Proof.
  intros [Hacc He]. unfold consider, OnStore.consider.
  eapply refines_bind; [apply candidate_refines |].
  intros c c' s1 [Hg Hc]. cbn beta.
  pose proof (same_assignment_grows _ _ _ _ Hg Hacc) as Hacc1.
  destruct c as [a |], c' as [a' |]; try done; simpl in Hc.
  rewrite (same_assignment_finish _ _ _ Hc), He.
  destruct (lt_etime _ _); simpl; split; try done.
Qed.

Lemma for_each_consider_refines (st : OnStore.state) l tasks acc acc' s :
  same_best s acc acc' ->
  refines (fun b b' s' => grows s s' /\ same_best s' b b')
          (for_each (consider (Store.problem s) (retarget l st)) acc tasks)
          (for_each_stateful (OnStore.consider st) acc' tasks s).
Proof.
  revert acc acc' s. induction tasks as [|t tasks IH]; intros acc acc' s Hacc; simpl.
  - split; [apply grows_refl | done].
  - eapply refines_bind; [by apply consider_refines |].
    intros b b' s1 [Hg Hb]. cbn beta.
    rewrite <- (grows_problem _ _ Hg).
    eapply refines_impl; [by apply IH |].
    intros b2 b2' s2 [Hg2 Hb2]. split; [by eapply grows_trans | done].
Qed.

Lemma select_best_refines (st : OnStore.state) st0 s :
  denote_state s st = Some st0 ->
  refines (fun b b' s' => grows s s' /\ same_best s' b b')
          (select_best (Store.problem s) st0)
          (OnStore.select_best st s).
Proof.
  unfold denote_state, select_best, OnStore.select_best. intros Hst.
  destruct (deref_tasks s (State.tasks_to_schedule st)) as [l |] eqn:Hl; [| done].
  injection Hst as <-. unfold sbind at 1. rewrite (read_tasks_deref _ _ _ Hl).
  by apply for_each_consider_refines.
Qed.

Lemma commit_robot_retarget {C C' L L'} (a' : Assignment.gen C) (st : State.gen L)
    (c : C') (l : L') r :
  commit_robot (recoalesce c a') (retarget l st) r
  = obind (commit_robot a' st r) (fun st1 => Ret (retarget l st1)).
Proof.
  unfold commit_robot. simpl.
  destruct (setitem (State.robot_available_time st) _ _); simpl; [| done..].
  destruct (setitem (State.robot_current_location st) _ _); simpl; [| done..].
  by destruct (State.robot_schedules st !! Robot.id r).
Qed.

Lemma commit_robots_retarget {C C' L L'} (a' : Assignment.gen C) (st : State.gen L)
    (c : C') (l : L') members :
  for_each (commit_robot (recoalesce c a')) (retarget l st) members
  = obind (for_each (commit_robot a') st members) (fun st1 => Ret (retarget l st1)).
Proof.
  revert st. induction members as [|r members IH]; intros st; simpl; [done |].
  rewrite commit_robot_retarget.
  destruct (commit_robot a' st r) as [st1 | e |]; simpl; [| done..]. apply IH.
Qed.

Lemma commit_robot_tasks {C L} (a : Assignment.gen C) (st : State.gen L) r st1 :
  commit_robot a st r = Ret st1 ->
  State.tasks_to_schedule st1 = State.tasks_to_schedule st.
Proof.
  unfold commit_robot. intros H.
  apply obind_Ret in H as (free & _ & H). apply obind_Ret in H as (here & _ & H).
  destruct (State.robot_schedules st !! Robot.id r); [| done]. by injection H as <-.
Qed.

Lemma commit_robots_tasks {C L} (a : Assignment.gen C) (st : State.gen L) members st1 :
  for_each (commit_robot a) st members = Ret st1 ->
  State.tasks_to_schedule st1 = State.tasks_to_schedule st.
Proof.
  revert st. induction members as [|r members IH]; intros st; simpl.
  - by intros [= <-].
  - intros H. apply obind_Ret in H as (st0 & Hr & H).
    rewrite (IH _ H). by eapply commit_robot_tasks.
Qed.

(** Committing writes one list object: the local [tasks_to_schedule]. *)
Lemma commit_refines (a' : OnStore.assignment) a (st' : OnStore.state) st s k :
  State.tasks_to_schedule st' = Store.LocalTasks k ->
  denote_assignment s a' = Some a ->
  denote_state s st' = Some st ->
  refines (steps_to s) (commit a st) (OnStore.commit a' st' s).
Proof.
  unfold denote_assignment, denote_state. intros Hk Ha Hst.
  destruct (deref_robots s (Assignment.coalition a')) as [c |] eqn:Hc; [| done].
  destruct (deref_tasks s (State.tasks_to_schedule st')) as [l |] eqn:Hl; [| done].
  injection Ha as <-. injection Hst as <-.
  unfold commit, OnStore.commit.
  unfold sbind at 1. rewrite (read_robots_deref _ _ _ Hc).
  cbn [Assignment.coalition recoalesce].
  rewrite commit_robots_retarget.
  unfold sbind at 1, lift at 1.
  destruct (for_each (commit_robot a') st' c) as [st1 | e |] eqn:Hst1; cbn [obind]; [| done..].
  pose proof (commit_robots_tasks _ _ _ _ Hst1) as Ht. rewrite Hk in Ht.
  unfold sbind at 1. rewrite Ht. rewrite Hk in Hl.
  rewrite (read_tasks_deref _ _ _ Hl).
  cbn [retarget State.tasks_to_schedule Assignment.task recoalesce].
  unfold sbind at 1, lift at 1.
  destruct (list_remove (Assignment.task a') l) as [remaining | e |]; cbn [obind]; [| done..].
  simpl in Hl. pose proof (lookup_lt_Some _ _ _ Hl) as Hlt.
  unfold sbind at 1. simpl. rewrite decide_True by done. simpl.
  split; simpl.
  - done.
  - by exists k.
  - unfold denote_state. simpl. by rewrite list_lookup_insert_eq by done.
Qed.

Lemma abandon_refines (st' : OnStore.state) st s k :
  State.tasks_to_schedule st' = Store.LocalTasks k ->
  denote_state s st' = Some st ->
  refines (steps_to s) (Ret (abandon st)) (OnStore.abandon st' s).
Proof.
  unfold denote_state. intros Hk Hst.
  destruct (deref_tasks s (State.tasks_to_schedule st')) as [l |] eqn:Hl; [| done].
  injection Hst as <-. unfold abandon, OnStore.abandon.
  unfold sbind at 1. rewrite (read_tasks_deref _ _ _ Hl).
  destruct l as [|t l]; simpl.
  - split; [done | by exists k |]. unfold denote_state. by rewrite Hl.
  - split; [done | by exists k |]. unfold denote_state. simpl. by rewrite Hl.
Qed.

Lemma loop_body_refines (st' : OnStore.state) st s k :
  State.tasks_to_schedule st' = Store.LocalTasks k ->
  denote_state s st' = Some st ->
  refines (same_iteration s) (loop_body (Store.problem s) st) (OnStore.loop_body st' s).
Proof.
  intros Hk Hst. unfold loop_body, OnStore.loop_body.
  eapply refines_bind; [by apply select_best_refines |].
  intros best best' s1 [Hg [Hbest _]]. cbn beta.
  assert (denote_state s1 st' = Some st) as Hst1 by (by rewrite (grows_denote_state _ _ _ Hg)).
  pose proof (grows_problem _ _ Hg) as Hp.
  destruct best.1 as [a |], best'.1 as [a' |]; try done; simpl in Hbest.
  - eapply (refines_bind (steps_to s1)); [by eapply commit_refines |].
    intros st2 st2' s2 [Hp2 Hk2 Hd2]. simpl. split; [congruence | done..].
  - eapply (refines_bind (steps_to s1) _ (Ret (abandon st)) _ (fun st1 => Ret (Break st1)));
      [by eapply abandon_refines |].
    intros st2 st2' s2 [Hp2 Hk2 Hd2]. simpl. split; [congruence | done..].
Qed.

Lemma main_loop_refines fuel (st' : OnStore.state) st s k :
  State.tasks_to_schedule st' = Store.LocalTasks k ->
  denote_state s st' = Some st ->
  refines (steps_to s) (main_loop fuel (Store.problem s) st) (OnStore.main_loop fuel st' s).
Proof.
  revert st' st s k. induction fuel as [|fuel IH]; intros st' st s k Hk Hst.
  - simpl. unfold denote_state in Hst.
    destruct (deref_tasks s (State.tasks_to_schedule st')) as [l |] eqn:Hl; [| done].
    injection Hst as <-. unfold sbind at 1. rewrite (read_tasks_deref _ _ _ Hl). simpl.
    destruct l; simpl; [| done].
    split; [done | by exists k |]. unfold denote_state. by rewrite Hl.
  - simpl. pose proof Hst as Hst0. unfold denote_state in Hst.
    destruct (deref_tasks s (State.tasks_to_schedule st')) as [l |] eqn:Hl; [| done].
    injection Hst as <-. unfold sbind at 1. rewrite (read_tasks_deref _ _ _ Hl). simpl.
    destruct l as [|t l]; simpl.
    { split; [done | by exists k |]. unfold denote_state. by rewrite Hl. }
    eapply refines_bind; [by eapply loop_body_refines |].
    intros it it' s1 Hit. cbn beta.
    destruct it as [a st1 | st1], it' as [a' st1' | st1']; try done; simpl in Hit.
    destruct Hit as [Hp [k1 Hk1] Hd]. rewrite <- Hp.
    eapply refines_impl; [by eapply IH |].
    intros st2 st2' s2 [Hp2 Hk2 Hd2]. split; [congruence | done..].
Qed.

Lemma greedy_heuristic_refines s :
  refines (fun res res' s' => res' = res /\ Store.problem s' = Store.problem s)
          (greedy_heuristic (Store.problem s)) (OnStore.greedy_heuristic s).
Proof.
  unfold greedy_heuristic, OnStore.greedy_heuristic, run.
  unfold sbind at 1. simpl.
  unfold sbind at 1, OnStore.get_real_tasks at 1. unfold sbind at 1. simpl.
  unfold sbind at 1. simpl. rewrite lookup_app_r, Nat.sub_diag by done. simpl.
  set (s1 := Store.mk _ _ _).
  set (st' := initial_locals _ _).
  eapply refines_bind.
  - apply (main_loop_refines _ st' (initial_state (Store.problem s)) s1
             (length (Store.task_lists s))); [done |].
    unfold denote_state. subst st' s1. simpl.
    by rewrite lookup_app_r, Nat.sub_diag by done.
  - intros st2 st2' s2 [Hp2 _ Hd2]. cbn beta.
    unfold denote_state in Hd2.
    destruct (deref_tasks s2 (State.tasks_to_schedule st2')) as [l2 |]; [| done].
    injection Hd2 as <-. unfold result_of. simpl.
    eapply refines_bind; [apply refines_lift |].
    intros m m' s3 [-> ->]. cbn beta.
    unfold sbind, OnStore.get_real_tasks, read_tasks, alloc_tasks, read_robots, sret.
    simpl. rewrite lookup_app_r, Nat.sub_diag by done. simpl.
    rewrite Hp2. subst s1. simpl. done.
Qed.

(** C9. A call leaves the problem object of the store as it was (its lists
    of tasks and of robots, its travel times and its precedence map), and
    returns what the value-level [greedy_heuristic] computes from it; a
    second call, made in the store that the first one leaves, returns the
    same record. *)
Theorem greedy_heuristic_keeps_problem_and_repeats (s : Store.t) :
  match OnStore.greedy_heuristic s with
  | Ret (res, s') =>
      ProblemInstance.tasks (Store.problem s') = ProblemInstance.tasks (Store.problem s) /\
      ProblemInstance.robots (Store.problem s') = ProblemInstance.robots (Store.problem s) /\
      ProblemInstance.travel_times (Store.problem s')
        = ProblemInstance.travel_times (Store.problem s) /\
      ProblemInstance.precedence_constraints (Store.problem s')
        = ProblemInstance.precedence_constraints (Store.problem s) /\
      greedy_heuristic (Store.problem s) = Ret res /\
      exists s'', OnStore.greedy_heuristic s' = Ret (res, s'')
  | Raise e => greedy_heuristic (Store.problem s) = Raise e
  | OutOfFuel => False
  end.
Proof.
  pose proof (greedy_heuristic_refines s) as H1. unfold refines in H1.
  destruct (OnStore.greedy_heuristic s) as [[res s'] | e |] eqn:Hrun.
  - destruct (greedy_heuristic (Store.problem s)) as [res0 | |] eqn:Hpure; try done.
    destruct H1 as [-> Hp]. rewrite Hp. split_and!; try done.
    pose proof (greedy_heuristic_refines s') as H2. unfold refines in H2.
    rewrite Hp, Hpure in H2.
    destruct (OnStore.greedy_heuristic s') as [[res2 s''] | |]; try done.
    destruct H2 as [-> _]. by exists s''.
  - by destruct (greedy_heuristic (Store.problem s)) as [| e0 |]; try done; subst.
  - destruct (greedy_heuristic (Store.problem s)) as [| |] eqn:Hpure; try done.
    unfold greedy_heuristic in Hpure.
    destruct (run (Store.problem s)) as [st | |] eqn:Hr; simpl in Hpure.
    + unfold result_of in Hpure.
      destruct (makespan_of_Ret (State.robot_available_time st)) as (m & Hm & _).
      by rewrite Hm in Hpure.
    + done.
    + unfold run in Hr. by apply main_loop_fuel in Hr.
Qed.

(** The store tells an alias from a copy: through an alias of
    [problem.tasks], the [remove] of a commit takes the task out of the
    problem. *)
Lemma commit_through_alias_changes_problem :
  exists st' s',
    OnStore.commit chain_first_ref aliased_state chain_store = Ret (st', s') /\
    ProblemInstance.tasks (Store.problem s')
      = [Task.mk 0 0 [0; 0]%Z [0]%Z true; chain_task2; Task.mk 3 0 [0; 0]%Z [0]%Z true] /\
    ProblemInstance.tasks (Store.problem s')
      <> ProblemInstance.tasks (Store.problem chain_store).
Proof. eexists _, _. split_and!; [vm_compute; reflexivity | reflexivity | discriminate]. Qed.

(** A call on [chain_store]: the record of the value-level run, and the
    problem object as it was. *)
Lemma chain_store_run :
  exists s',
    OnStore.greedy_heuristic chain_store
      = Ret (Result.mk 12 2 1 {[0 := [Entry.mk 1 2 7; Entry.mk 2 8 12]]}, s') /\
    Store.problem s' = chain_problem.
Proof. eexists. split; [vm_compute; reflexivity | reflexivity]. Qed.

(** ** Termination of the whole call *)

Lemma run_terminates problem : run problem <> OutOfFuel.
Proof. unfold run. by apply main_loop_fuel. Qed.

Lemma greedy_heuristic_terminates problem : greedy_heuristic problem <> OutOfFuel.
Proof.
  unfold greedy_heuristic. apply obind_fuel; [apply run_terminates |].
  intros st _. unfold result_of.
  destruct (makespan_of_Ret (State.robot_available_time st)) as (m & -> & _). done.
Qed.

(** * Further properties *)

#[local] Transparent find_minimal_coalition OnStore.find_minimal_coalition.

(** ** [Robot.has_skills] on arbitrary vectors *)

Lemma has_skills_from_cases sk k rest :
  match Robot.has_skills_from sk k rest with
  | Ret true =>
      forall j, rest !! j = Some 1%Z -> exists s, sk !! (k + j)%nat = Some s /\ s <> 0%Z
  | Ret false =>
      exists j, rest !! j = Some 1%Z /\ sk !! (k + j)%nat = Some 0%Z /\
                forall j', (j' < j)%nat -> rest !! j' = Some 1%Z ->
                           exists s, sk !! (k + j')%nat = Some s /\ s <> 0%Z
  | Raise e =>
      e = IndexError /\
      exists j, rest !! j = Some 1%Z /\ sk !! (k + j)%nat = None /\
                forall j', (j' < j)%nat -> rest !! j' = Some 1%Z ->
                           exists s, sk !! (k + j')%nat = Some s /\ s <> 0%Z
  | OutOfFuel => False
  end.
Proof.
  revert k. induction rest as [|x rest IH]; intros k; simpl.
  - intros j Hj. by rewrite lookup_nil in Hj.
  - assert (Hshift : forall j, (S k + j = k + S j)%nat) by (intros; lia).
    specialize (IH (S k)). case_decide as Hx.
    + subst x. unfold index. destruct (sk !! k) as [s |] eqn:Hs; simpl.
      * case_decide as Hs0.
        -- subst s. exists 0%nat. rewrite Nat.add_0_r. split_and!; [done.. |].
           intros j' Hj'. lia.
        -- destruct (Robot.has_skills_from sk (S k) rest) as [[] | e |]; try done.
           ++ intros [|j] Hj.
              ** rewrite Nat.add_0_r. eauto.
              ** rewrite <- Hshift. by apply IH.
           ++ destruct IH as (j & Hj & Hsk & Hbefore). exists (S j).
              rewrite <- Hshift. split_and!; [done.. |].
              intros [|j'] Hlt Hj'.
              ** rewrite Nat.add_0_r. eauto.
              ** rewrite <- Hshift. apply Hbefore; [lia | done].
           ++ destruct IH as (-> & j & Hj & Hsk & Hbefore). split; [done |].
              exists (S j). rewrite <- Hshift. split_and!; [done.. |].
              intros [|j'] Hlt Hj'.
              ** rewrite Nat.add_0_r. eauto.
              ** rewrite <- Hshift. apply Hbefore; [lia | done].
      * split; [done |]. exists 0%nat. rewrite Nat.add_0_r. split_and!; [done.. |].
        intros j' Hj'. lia.
    + destruct (Robot.has_skills_from sk (S k) rest) as [[] | e |]; try done.
      * intros [|j] Hj; [simpl in Hj; congruence |].
        rewrite <- Hshift. by apply IH.
      * destruct IH as (j & Hj & Hsk & Hbefore). exists (S j).
        rewrite <- Hshift. split_and!; [done.. |].
        intros [|j'] Hlt Hj'; [simpl in Hj'; congruence |].
        rewrite <- Hshift. apply Hbefore; [lia | done].
      * destruct IH as (-> & j & Hj & Hsk & Hbefore). split; [done |].
        exists (S j). rewrite <- Hshift. split_and!; [done.. |].
        intros [|j'] Hlt Hj'; [simpl in Hj'; congruence |].
        rewrite <- Hshift. apply Hbefore; [lia | done].
Qed.

(** X1. [has_skills] answers [True] exactly when every required index
    holds a non-zero skill entry (any non-zero value counts, and entries
    beyond the requirement vector are not looked at); it answers [False] or
    raises [IndexError] according to whether the first required index
    without a non-zero entry holds a 0 or lies beyond the skill vector. *)
Theorem has_skills_answer (r : Robot.t) (required_skills : list Z) :
  match Robot.has_skills r required_skills with
  | Ret true =>
      forall i, required_skills !! i = Some 1%Z ->
                exists s, Robot.skills r !! i = Some s /\ s <> 0%Z
  | Ret false =>
      exists i, first_lacking (Robot.skills r) required_skills i /\
                Robot.skills r !! i = Some 0%Z
  | Raise e =>
      e = IndexError /\
      exists i, first_lacking (Robot.skills r) required_skills i /\
                Robot.skills r !! i = None
  | OutOfFuel => False
  end.
Proof.
  unfold Robot.has_skills, first_lacking.
  pose proof (has_skills_from_cases (Robot.skills r) 0 required_skills) as H.
  destruct (Robot.has_skills_from _ _ _) as [[] | e |]; simpl in *; try done.
  - destruct H as (i & Hi & Hs & Hbefore). exists i. split_and!; auto.
  - destruct H as (-> & i & Hi & Hs & Hbefore). split; [done |].
    exists i. split_and!; auto.
Qed.

(** ** What [find_minimal_coalition] can raise *)

Lemma first_capable_cases req robots :
  match first_capable req robots with
  | Ret (Some r) =>
      r ∈ robots /\ forall i, req !! i = Some 1%Z ->
                              exists s, Robot.skills r !! i = Some s /\ s <> 0%Z
  | Ret None => True
  | Raise e =>
      e = IndexError /\
      exists r i, r ∈ robots /\ req !! i = Some 1%Z /\ Robot.skills r !! i = None
  | OutOfFuel => False
  end.
Proof.
  induction robots as [|r robots IH]; simpl; [done |].
  pose proof (has_skills_answer r req) as Hr.
  destruct (Robot.has_skills r req) as [[] | e |]; simpl; try done.
  - split; [set_solver | done].
  - destruct (first_capable req robots) as [[r' |] | e |]; try done.
    + destruct IH as [Hin Hall]. split; [set_solver | done].
    + destruct IH as (-> & r' & i & Hin & Hi & Hs). split; [done |].
      exists r', i. split_and!; [set_solver | done..].
  - destruct Hr as (-> & i & (Hi & _ & _) & Hs). split; [done |].
    exists r, i. split_and!; [set_solver | done..].
Qed.

(** X2. The only exception [find_minimal_coalition] raises is
    [IndexError], and it raises it only when some robot's skill vector has
    no entry at an index the task requires; in particular it returns
    whenever no skill vector is shorter than the requirement vector. *)
Theorem find_minimal_coalition_raises_only_on_short_skills task robots :
  match find_minimal_coalition task robots with
  | Ret _ =>
      True
  | Raise e =>
      e = IndexError /\
      exists r i, r ∈ robots /\ Task.requirements task !! i = Some 1%Z /\
                  Robot.skills r !! i = None /\
                  (length (Robot.skills r) < length (Task.requirements task))%nat
  | OutOfFuel => False
  end.
Proof.
  unfold find_minimal_coalition. destruct (negb _); [done |].
  pose proof (first_capable_cases (Task.requirements task) robots) as H.
  destruct (first_capable _ _) as [[r |] | e |]; cbn [obind]; try done.
  - destruct (cover_loop_spec (S (length robots)) (ones (Task.requirements task)) [] robots)
      as (res & -> & _); [lia | done].
  - destruct H as (-> & r & i & Hin & Hi & Hs). split; [done |].
    exists r, i. split_and!; try done.
    apply lookup_ge_None in Hs. apply lookup_lt_Some in Hi. lia.
Qed.

(** ** The greedy choice of [find_best] *)

Lemma scan_result_step U seen acc r :
  scan_result U seen acc -> scan_result U (seen ++ [r]) (better U acc r).
Proof.
  intros Hok. rewrite better_spec. fold (gain U r). case_decide as Hlt.
  - unfold scan_result; simpl. split; [done |].
    exists seen, []. split_and!; [done | | | by intros ? ?%elem_of_nil].
    + intros Hempty. rewrite Hempty, size_empty in Hlt. lia.
    + unfold scan_result in Hok. destruct acc as [[best |] cov]; simpl in *.
      * destruct Hok as (-> & before & after & -> & _ & Hbefore & Hafter).
        intros r' [Hr' | [-> | Hr']%elem_of_cons]%elem_of_app.
        -- specialize (Hbefore _ Hr'). lia.
        -- done.
        -- specialize (Hafter _ Hr'). lia.
      * destruct Hok as (-> & Hnone). intros r' Hr'. by rewrite (Hnone _ Hr').
  - unfold scan_result in *. destruct acc as [[best |] cov]; simpl in *.
    + destruct Hok as (-> & before & after & -> & Hne & Hbefore & Hafter).
      split; [done |]. exists before, (after ++ [r]).
      split_and!; [by rewrite <- app_assoc | done | done |].
      intros r' [Hr' | ->%list_elem_of_singleton]%elem_of_app; [by apply Hafter | lia].
    + destruct Hok as (-> & Hnone). split; [done |].
      intros r' [Hr' | ->%list_elem_of_singleton]%elem_of_app; [by apply Hnone |].
      rewrite size_empty in Hlt. apply leibniz_equiv, size_empty_inv. lia.
Qed.

Lemma scan_result_foldl U seen pool acc :
  scan_result U seen acc -> scan_result U (seen ++ pool) (foldl (better U) acc pool).
Proof.
  revert seen acc. induction pool as [|r pool IH]; intros seen acc Hok; simpl.
  - by rewrite app_nil_r.
  - rewrite (assoc_L _ seen [r] pool : seen ++ r :: pool = (seen ++ [r]) ++ pool).
    apply IH. by apply scan_result_step.
Qed.

(** X3. One pass of the inner loop of [find_minimal_coalition] picks the
    first robot, in roster order, among those that have the most of the
    still uncovered skills (ties go to the earliest robot), together with
    exactly the uncovered skills it has; it picks no robot only when no
    robot of the pool has any uncovered skill. *)
Theorem find_best_picks_first_largest_gain (U : gset nat) (pool : list Robot.t) :
  match find_best U pool with
  | (Some r, covered) => covered = gain U r /\ first_largest_gain U pool r
  | (None, covered) => covered = ∅ /\ forall r, r ∈ pool -> gain U r = ∅
  end.
Proof.
  pose proof (scan_result_foldl U [] pool (None, ∅)) as H.
  unfold find_best. simpl in H.
  destruct (foldl (better U) (None, ∅) pool) as [[r |] cov]; apply H;
    (split; [done | by intros ? ?%elem_of_nil]).
Qed.

(** ** Every member of a coalition is needed *)

Lemma cover_loop_members_add fuel U C A c :
  cover_loop fuel U C A = Ret (Some c) ->
  exists chosen, c = C ++ chosen /\ length chosen <= size U /\ each_member_adds U chosen.
Proof.
  revert U C A. induction fuel as [|fuel IH]; intros U C A; simpl.
  - case_decide; [| done]. intros [= <-]. exists []. rewrite app_nil_r.
    split_and!; [done | simpl; lia |]. intros k r Hk. by rewrite lookup_nil in Hk.
  - case_decide as HU.
    { intros [= <-]. exists []. rewrite app_nil_r.
      split_and!; [done | simpl; lia |]. intros k r Hk. by rewrite lookup_nil in Hk. }
    pose proof (find_best_spec U A) as Hbest. unfold scan_ok in Hbest.
    destruct (find_best U A) as [[best |] cov]; simpl in Hbest; [| done].
    destruct Hbest as (Hin & -> & Hne). intros H.
    apply obind_Ret in H as (A' & HA' & H).
    apply IH in H as (chosen & -> & Hlen & Hadds).
    exists (best :: chosen). split; [by rewrite <- app_assoc |].
    set (cov := U ∩ ones (Robot.skills best)) in *.
    assert (Hsize : size U = size cov + size (U ∖ cov)).
    { rewrite <- size_union by set_solver. f_equal. apply set_eq. intros i.
      destruct (decide (i ∈ cov)); set_solver. }
    assert (0 < size cov).
    { destruct (decide (size cov = 0)) as [E |]; [| lia].
      apply size_empty_inv in E. destruct Hne. by apply leibniz_equiv. }
    split; [simpl; lia |].
    intros [|k] r Hk; simpl in Hk.
    + simplify_eq. apply set_choose_L in Hne as [i Hi]. exists i.
      split_and!; [set_solver | set_solver |]. simpl. by intros ? ?%elem_of_nil.
    + destruct (Hadds k r Hk) as (i & Hi & Hr & Hearlier). exists i.
      split_and!; [set_solver | done |].
      simpl. intros r' [-> | Hr']%elem_of_cons; [set_solver | by apply Hearlier].
Qed.

(** X4. A coalition returned by [find_minimal_coalition] has no idle
    member: each member brings a required skill that no earlier member of
    the coalition has (a non-zero entry for a robot that covers the task
    alone), so the coalition is never larger than the number of required
    skills. *)
Theorem coalition_members_each_add_a_skill task robots c :
  find_minimal_coalition task robots = Ret (Some c) ->
  length c <= size (ones (Task.requirements task)) /\
  forall k r, c !! k = Some r ->
    exists i s, Task.requirements task !! i = Some 1%Z /\
                Robot.skills r !! i = Some s /\ s <> 0%Z /\
                forall r', r' ∈ take k c -> Robot.skills r' !! i <> Some 1%Z.
Proof.
  unfold find_minimal_coalition. destruct (any_required _) eqn:Hany; cbn [negb].
  - intros H. apply obind_Ret in H as (single & Hsingle & H).
    pose proof (first_capable_cases (Task.requirements task) robots) as Hcases.
    rewrite Hsingle in Hcases. apply any_required_true in Hany as [i Hi].
    destruct single as [r |].
    + simplify_eq. destruct Hcases as [_ Hall]. split.
      * simpl. assert (i ∈ ones (Task.requirements task)) as Hin by by apply elem_of_ones.
        destruct (decide (size (ones (Task.requirements task)) = 0)) as [E |]; [| lia].
        apply size_empty_inv in E. set_solver.
      * intros [|k] r' Hk; simpl in Hk; [| by rewrite lookup_nil in Hk]. simplify_eq.
        destruct (Hall i Hi) as (s & Hs & Hs0). exists i, s.
        split_and!; [done.. |]. simpl. by intros ? ?%elem_of_nil.
    + apply cover_loop_members_add in H as (chosen & -> & Hlen & Hadds). simpl.
      split; [done |]. intros k r Hk.
      destruct (Hadds k r Hk) as (j & Hj & Hr & Hearlier).
      apply elem_of_ones in Hj, Hr. exists j, 1%Z. split_and!; [done.. |].
      intros r' Hr'. rewrite <- elem_of_ones. by apply Hearlier.
  - intros [= <-]. split; [simpl; lia |]. intros k r Hk. by rewrite lookup_nil in Hk.
Qed.

Lemma coalition_members_each_add_a_skill_witness :
  find_minimal_coalition two_skill_task specialists = Ret (Some (take 2 specialists)) /\
  length (take 2 specialists) <= size (ones (Task.requirements two_skill_task)) /\
  forall k r, take 2 specialists !! k = Some r ->
    exists i s, Task.requirements two_skill_task !! i = Some 1%Z /\
                Robot.skills r !! i = Some s /\ s <> 0%Z /\
                forall r', r' ∈ take k (take 2 specialists) ->
                           Robot.skills r' !! i <> Some 1%Z.
Proof.
  split; [vm_compute; reflexivity |].
  apply (coalition_members_each_add_a_skill two_skill_task specialists (take 2 specialists)).
  vm_compute; reflexivity.
Defined.

(** ** [ProblemInstance.init] *)

Lemma comprehension_cases {A B} (f : A -> outcome B) xs :
  match comprehension f xs with
  | Ret ys => Forall2 (fun x y => f x = Ret y) xs ys
  | Raise e => exists x, x ∈ xs /\ f x = Raise e
  | OutOfFuel => exists x, x ∈ xs /\ f x = OutOfFuel
  end.
Proof.
  induction xs as [|x xs IH]; simpl; [constructor |].
  destruct (f x) as [y | e |] eqn:Hx; simpl.
  - destruct (comprehension f xs) as [ys | e |]; simpl.
    + by constructor.
    + destruct IH as (x' & Hin & Hx'). exists x'. split; [set_solver | done].
    + destruct IH as (x' & Hin & Hx'). exists x'. split; [set_solver | done].
  - exists x. split; [set_solver | done].
  - exists x. split; [set_solver | done].
Qed.

Lemma build_task_cases data n i :
  match ProblemInstance.build_task data n i with
  | Ret t =>
      exists e loc req,
        T_e data !! i = Some e /\ task_locations data !! i = Some loc /\
        R data !! i = Some req /\ t = Task.mk i e loc req (dummy_position n i)
  | Raise e =>
      e = IndexError /\
      (T_e data !! i = None \/ task_locations data !! i = None \/ R data !! i = None)
  | OutOfFuel => False
  end.
Proof.
  unfold ProblemInstance.build_task, index.
  destruct (T_e data !! i) as [e |]; simpl; [| by auto].
  destruct (task_locations data !! i) as [loc |]; simpl; [| by auto].
  destruct (R data !! i) as [req |]; simpl; [| by auto].
  exists e, loc, req. split_and!; try done. f_equal.
  unfold dummy_position. repeat case_bool_decide; simpl; try done; naive_solver lia.
Qed.

Lemma build_robot_cases data i :
  match ProblemInstance.build_robot data i with
  | Ret r => exists sk, Q_ data !! i = Some sk /\ r = Robot.mk i sk
  | Raise e => e = IndexError /\ Q_ data !! i = None
  | OutOfFuel => False
  end.
Proof.
  unfold ProblemInstance.build_robot, index.
  destruct (Q_ data !! i) as [sk |]; simpl; eauto.
Qed.

Lemma init_unfold data :
  ProblemInstance.init data =
  let! ts := comprehension (ProblemInstance.build_task data (length (T_e data)))
               (seq 0 (length (T_e data))) in
  let! rs := comprehension (ProblemInstance.build_robot data) (seq 0 (length (Q_ data))) in
  Ret (ProblemInstance.mk ts rs (T_t data)
         (foldl ProblemInstance.add_precedence ∅ (raw_precedence_constraints data))).
Proof. done. Qed.

(** X5. [ProblemInstance.init] raises [IndexError] exactly when
    [task_locations] or [R] has fewer rows than [T_e]; otherwise it builds
    one task per entry of [T_e] and one robot per row of [Q], whatever the
    travel matrix and the precedence pairs are. *)
Theorem init_raises_iff_task_rows_missing (data : RawData) :
  match ProblemInstance.init data with
  | Ret problem =>
      length (T_e data) <= length (task_locations data) /\
      length (T_e data) <= length (R data) /\
      length (ProblemInstance.tasks problem) = length (T_e data) /\
      length (ProblemInstance.robots problem) = length (Q_ data)
  | Raise e =>
      e = IndexError /\
      (length (task_locations data) < length (T_e data) \/
       length (R data) < length (T_e data))
  | OutOfFuel => False
  end.
Proof.
  rewrite init_unfold.
  pose proof (comprehension_cases (ProblemInstance.build_task data (length (T_e data)))
                (seq 0 (length (T_e data)))) as Hts.
  pose proof (comprehension_cases (ProblemInstance.build_robot data)
                (seq 0 (length (Q_ data)))) as Hrs.
  destruct (comprehension (ProblemInstance.build_task _ _) _) as [ts | e |]; simpl.
  - destruct (comprehension (ProblemInstance.build_robot _) _) as [rs | e |]; simpl.
    + pose proof (Forall2_length _ _ _ Hts) as Hlen. rewrite length_seq in Hlen.
      pose proof (Forall2_length _ _ _ Hrs) as Hlen'. rewrite length_seq in Hlen'.
      split_and!; try done.
      * destruct (decide (length (T_e data) = 0)) as [| Hpos]; [lia |].
        destruct (Forall2_lookup_l _ _ _ (length (T_e data) - 1) (length (T_e data) - 1) Hts)
          as (t & _ & Ht); [apply lookup_seq; lia |].
        pose proof (build_task_cases data (length (T_e data)) (length (T_e data) - 1)) as Hc.
        rewrite Ht in Hc. destruct Hc as (e & loc & req & _ & Hloc%lookup_lt_Some & _). lia.
      * destruct (decide (length (T_e data) = 0)) as [| Hpos]; [lia |].
        destruct (Forall2_lookup_l _ _ _ (length (T_e data) - 1) (length (T_e data) - 1) Hts)
          as (t & _ & Ht); [apply lookup_seq; lia |].
        pose proof (build_task_cases data (length (T_e data)) (length (T_e data) - 1)) as Hc.
        rewrite Ht in Hc.
        destruct Hc as (e & loc & req & _ & _ & Hreq%lookup_lt_Some & _). lia.
    + destruct Hrs as (i & [_ Hi]%elem_of_seq & Hraise).
      pose proof (build_robot_cases data i) as Hc. rewrite Hraise in Hc.
      destruct Hc as [_ Hnone%lookup_ge_None]. lia.
    + destruct Hrs as (i & _ & Hoof).
      pose proof (build_robot_cases data i) as Hc. by rewrite Hoof in Hc.
  - destruct Hts as (i & [_ Hi]%elem_of_seq & Hraise).
    pose proof (build_task_cases data (length (T_e data)) i) as Hc. rewrite Hraise in Hc.
    destruct Hc as (-> & Hnone). split; [done |].
    rewrite !lookup_ge_None in Hnone. lia.
  - destruct Hts as (i & _ & Hoof).
    pose proof (build_task_cases data (length (T_e data)) i) as Hc. by rewrite Hoof in Hc.
Qed.

Lemma init_tasks_lookup data problem i t :
  ProblemInstance.init data = Ret problem ->
  ProblemInstance.tasks problem !! i = Some t ->
  exists e loc req,
    T_e data !! i = Some e /\ task_locations data !! i = Some loc /\
    R data !! i = Some req /\
    t = Task.mk i e loc req (dummy_position (length (T_e data)) i).
Proof.
  rewrite init_unfold. intros H Ht.
  apply obind_Ret in H as (ts & Hts & H).
  apply obind_Ret in H as (rs & Hrs & H).
  injection H as <-. simpl in Ht.
  pose proof (comprehension_seq_lookup _ _ _ _ _ _ Hts Ht) as Hb. simpl in Hb.
  pose proof (build_task_cases data (length (T_e data)) i) as Hc. by rewrite Hb in Hc.
Qed.

Lemma init_robots_lookup data problem i r :
  ProblemInstance.init data = Ret problem ->
  ProblemInstance.robots problem !! i = Some r ->
  exists sk, Q_ data !! i = Some sk /\ r = Robot.mk i sk.
Proof.
  rewrite init_unfold. intros H Hr.
  apply obind_Ret in H as (ts & Hts & H).
  apply obind_Ret in H as (rs & Hrs & H).
  injection H as <-. simpl in Hr.
  pose proof (comprehension_seq_lookup _ _ _ _ _ _ Hrs Hr) as Hb. simpl in Hb.
  pose proof (build_robot_cases data i) as Hc. by rewrite Hb in Hc.
Qed.

Lemma init_lengths data problem :
  ProblemInstance.init data = Ret problem ->
  length (ProblemInstance.tasks problem) = length (T_e data) /\
  length (ProblemInstance.robots problem) = length (Q_ data).
Proof.
  rewrite init_unfold. intros H.
  apply obind_Ret in H as (ts & Hts%comprehension_Ret%Forall2_length & H).
  apply obind_Ret in H as (rs & Hrs%comprehension_Ret%Forall2_length & H).
  injection H as <-. simpl. rewrite length_seq in Hts, Hrs. done.
Qed.

(** X6. In a built instance the object at position [i] of [tasks] is the
    task with id [i], the [i]-th execution time, location and requirement
    vector, flagged as dummy exactly when it is the first task or the last
    of more than one; the robot at position [i] has id [i] and the [i]-th
    row of [Q]; the travel matrix is [T_t] as given. *)
Theorem init_builds_tasks_and_robots_by_position data problem :
  ProblemInstance.init data = Ret problem ->
  ProblemInstance.travel_times problem = T_t data /\
  (forall i t, ProblemInstance.tasks problem !! i = Some t <->
     exists e loc req,
       T_e data !! i = Some e /\ task_locations data !! i = Some loc /\
       R data !! i = Some req /\
       t = Task.mk i e loc req (dummy_position (length (T_e data)) i)) /\
  (forall i r, ProblemInstance.robots problem !! i = Some r <->
     exists sk, Q_ data !! i = Some sk /\ r = Robot.mk i sk).
Proof.
  intros Hinit. destruct (init_lengths _ _ Hinit) as [Hlt Hlr]. split_and!.
  - rewrite init_unfold in Hinit.
    apply obind_Ret in Hinit as (ts & _ & H). apply obind_Ret in H as (rs & _ & H).
    by injection H as <-.
  - intros i t. split; [by apply init_tasks_lookup |].
    intros (e & loc & req & He & Hloc & Hreq & ->).
    destruct (lookup_lt_is_Some_2 (ProblemInstance.tasks problem) i) as [t Ht].
    { rewrite Hlt. by apply lookup_lt_Some in He. }
    rewrite Ht. f_equal.
    destruct (init_tasks_lookup _ _ _ _ Hinit Ht) as (e' & loc' & req' & ? & ? & ? & ->).
    congruence.
  - intros i r. split; [by apply init_robots_lookup |].
    intros (sk & Hsk & ->).
    destruct (lookup_lt_is_Some_2 (ProblemInstance.robots problem) i) as [r Hr].
    { rewrite Hlr. by apply lookup_lt_Some in Hsk. }
    rewrite Hr. f_equal.
    destruct (init_robots_lookup _ _ _ _ Hinit Hr) as (sk' & ? & ->). congruence.
Qed.

Lemma init_builds_tasks_and_robots_by_position_witness :
  ProblemInstance.init chain_raw = Ret chain_problem /\
  ProblemInstance.travel_times chain_problem = T_t chain_raw /\
  (forall i t, ProblemInstance.tasks chain_problem !! i = Some t <->
     exists e loc req,
       T_e chain_raw !! i = Some e /\ task_locations chain_raw !! i = Some loc /\
       R chain_raw !! i = Some req /\
       t = Task.mk i e loc req (dummy_position (length (T_e chain_raw)) i)) /\
  (forall i r, ProblemInstance.robots chain_problem !! i = Some r <->
     exists sk, Q_ chain_raw !! i = Some sk /\ r = Robot.mk i sk).
Proof.
  split; [vm_compute; reflexivity |].
  apply (init_builds_tasks_and_robots_by_position chain_raw chain_problem).
  vm_compute; reflexivity.
Defined.

Lemma filter_all {A} (P : A -> Prop) `{forall x, Decision (P x)} (l : list A) :
  Forall P l -> filter P l = l.
Proof.
  induction 1 as [|x l Hx _ IH]; [done |].
  by rewrite filter_cons_True, IH.
Qed.

Lemma filter_none {A} (P : A -> Prop) `{forall x, Decision (P x)} (l : list A) :
  Forall (fun x => ~ P x) l -> filter P l = [].
Proof.
  induction 1 as [|x l Hx _ IH]; [done |].
  by rewrite filter_cons_False, IH.
Qed.

(** X7. The real tasks of a built instance are the tasks strictly between
    the first and the last, in the order of their ids: there are
    [len(T_e) - 2] of them (none when [T_e] has at most two entries), and
    the task at position [k] of [get_real_tasks()] has id [k + 1]. *)
Theorem real_tasks_are_the_inner_tasks data problem :
  ProblemInstance.init data = Ret problem ->
  ProblemInstance.get_real_tasks problem =
    take (length (T_e data) - 2) (drop 1 (ProblemInstance.tasks problem)) /\
  length (ProblemInstance.get_real_tasks problem) = length (T_e data) - 2 /\
  forall k t, ProblemInstance.get_real_tasks problem !! k = Some t -> Task.id t = S k.
Proof.
  intros Hinit. destruct (init_lengths _ _ Hinit) as [Hlen _].
  set (ts := ProblemInstance.tasks problem) in *.
  set (n := length (T_e data)) in *.
  assert (Hflag : forall i t, ts !! i = Some t ->
            Task.id t = i /\ Task.is_dummy t = dummy_position n i).
  { intros i t Ht.
    destruct (init_tasks_lookup _ _ _ _ Hinit Ht) as (e & loc & req & _ & _ & _ & ->).
    done. }
  assert (Hreal : ProblemInstance.get_real_tasks problem = take (n - 2) (drop 1 ts)).
  { unfold ProblemInstance.get_real_tasks. fold ts.
    rewrite <- (take_drop 1 ts) at 1. rewrite filter_app.
    rewrite <- (take_drop (n - 2) (drop 1 ts)) at 1. rewrite filter_app.
    rewrite (filter_none _ (take 1 ts)), (filter_all _ (take _ (drop 1 ts))),
      (filter_none _ (drop _ (drop 1 ts))); [by rewrite app_nil_r | ..].
    - apply Forall_lookup. intros i t. rewrite !lookup_drop. intros Ht.
      pose proof (lookup_lt_Some _ _ _ Ht) as Hi.
      destruct (Hflag _ _ Ht) as [_ ->]. unfold dummy_position.
      rewrite bool_decide_eq_true_2; [done | lia].
    - apply Forall_lookup. intros i t [Ht Hi]%lookup_take_Some.
      rewrite lookup_drop in Ht. destruct (Hflag _ _ Ht) as [_ ->].
      unfold dummy_position. rewrite bool_decide_eq_false_2; [done | lia].
    - apply Forall_lookup. intros i t [Ht Hi]%lookup_take_Some.
      destruct (Hflag _ _ Ht) as [_ ->]. unfold dummy_position.
      rewrite bool_decide_eq_true_2; [done | lia]. }
  split; [done |]. rewrite Hreal. split.
  - rewrite length_take, length_drop. lia.
  - intros k t [Ht _]%lookup_take_Some. rewrite lookup_drop in Ht.
    by destruct (Hflag _ _ Ht) as [-> _].
Qed.

Lemma real_tasks_are_the_inner_tasks_witness :
  ProblemInstance.init chain_raw = Ret chain_problem /\
  ProblemInstance.get_real_tasks chain_problem =
    take (length (T_e chain_raw) - 2) (drop 1 (ProblemInstance.tasks chain_problem)) /\
  length (ProblemInstance.get_real_tasks chain_problem) = length (T_e chain_raw) - 2 /\
  forall k t, ProblemInstance.get_real_tasks chain_problem !! k = Some t -> Task.id t = S k.
Proof.
  split; [vm_compute; reflexivity |].
  apply (real_tasks_are_the_inner_tasks chain_raw chain_problem).
  vm_compute; reflexivity.
Defined.

Lemma add_precedence_foldl raw (m : gmap nat (list nat)) suc :
  foldl ProblemInstance.add_precedence m raw !! suc =
    match m !! suc with
    | Some old => Some (old ++ listed_predecessors raw suc)
    | None =>
        if decide (listed_predecessors raw suc = []) then None
        else Some (listed_predecessors raw suc)
    end.
Proof.
  revert m. induction raw as [|[pre s] raw IH]; intros m; simpl.
  - unfold listed_predecessors. simpl. destruct (m !! suc); [by rewrite app_nil_r | done].
  - rewrite IH. unfold listed_predecessors.
    destruct (decide (s = suc)) as [-> | Hne].
    + rewrite filter_cons_True by done. simpl.
      destruct (m !! suc) as [old |] eqn:Hm.
      * rewrite lookup_insert_eq, Hm. simpl. f_equal. by rewrite <- app_assoc.
      * rewrite !lookup_insert_eq. simpl. done.
    + rewrite filter_cons_False by done.
      destruct (m !! s); rewrite ?lookup_insert_ne by done. all: done.
Qed.

(** X8. The precedence dictionary of a built instance inverts the raw
    [pre, suc] pairs: a task is a key exactly when it is the successor of
    some pair, and its value lists the predecessors of its pairs in input
    order, a repeated pair being listed as often as it is given. *)
Theorem init_groups_predecessors_by_successor data problem suc :
  ProblemInstance.init data = Ret problem ->
  ProblemInstance.precedence_constraints problem !! suc =
    (if decide (suc ∈ (raw_precedence_constraints data).*2)
     then Some (listed_predecessors (raw_precedence_constraints data) suc)
     else None) /\
  (forall pre, pre ∈ default [] (ProblemInstance.precedence_constraints problem !! suc) <->
               (pre, suc) ∈ raw_precedence_constraints data).
Proof.
  rewrite init_unfold. intros H.
  apply obind_Ret in H as (ts & _ & H). apply obind_Ret in H as (rs & _ & H).
  injection H as <-. simpl. rewrite add_precedence_foldl, lookup_empty.
  set (raw := raw_precedence_constraints data).
  assert (Hin : forall pre, pre ∈ listed_predecessors raw suc <-> (pre, suc) ∈ raw).
  { intros pre. unfold listed_predecessors. rewrite list_elem_of_fmap. split.
    - intros ([pre' s] & -> & [Hs Hraw]%list_elem_of_filter). simpl in *. by subst.
    - intros Hraw. exists (pre, suc). split; [done |]. by apply list_elem_of_filter. }
  split.
  - destruct (decide (listed_predecessors raw suc = [])) as [E | E];
      destruct (decide (suc ∈ raw.*2)) as [Hsuc | Hsuc]; try done.
    + apply list_elem_of_fmap in Hsuc as ([pre s] & Hs & Hraw). simpl in Hs. subst s.
      apply Hin in Hraw. rewrite E in Hraw. by apply elem_of_nil in Hraw.
    + destruct Hsuc.
      assert (exists pre, pre ∈ listed_predecessors raw suc) as [pre Hpre].
      { destruct (listed_predecessors raw suc) as [|pre l]; [done |]. exists pre. set_solver. }
      apply Hin in Hpre. apply list_elem_of_fmap. by exists (pre, suc).
  - intros pre. case_decide as E; simpl; [| by apply Hin].
    rewrite <- Hin, E. done.
Qed.

Lemma init_groups_predecessors_by_successor_witness :
  ProblemInstance.init chain_raw = Ret chain_problem /\
  ProblemInstance.precedence_constraints chain_problem !! 2 =
    (if decide (2 ∈ (raw_precedence_constraints chain_raw).*2)
     then Some (listed_predecessors (raw_precedence_constraints chain_raw) 2)
     else None) /\
  (forall pre, pre ∈ default [] (ProblemInstance.precedence_constraints chain_problem !! 2) <->
               (pre, 2) ∈ raw_precedence_constraints chain_raw).
Proof.
  split; [vm_compute; reflexivity |].
  apply (init_groups_predecessors_by_successor chain_raw chain_problem 2).
  vm_compute; reflexivity.
Defined.

(** ** Pending and committed tasks *)

Lemma commit_fields a st st' :
  commit a st = Ret st' ->
  State.scheduled_task_ids st'
    = {[Task.id (Assignment.task a)]} ∪ State.scheduled_task_ids st /\
  State.task_finish_times st'
    = <[Task.id (Assignment.task a) := Assignment.finish_time a]> (State.task_finish_times st) /\
  State.stdout st' = State.stdout st.
Proof.
  intros (st1 & remaining & Hst1 & _ & ->)%commit_Ret. simpl.
  apply commit_robots_shape in Hst1 as (_ & _ & _ & -> & -> & -> & _). done.
Qed.

Lemma reaches_partition problem tr st :
  reaches problem tr st ->
  State.tasks_to_schedule st ++ (Assignment.task <$> tr)
    ≡ₚ ProblemInstance.get_real_tasks problem /\
  State.scheduled_task_ids st = {[0]} ∪ list_to_set (committed_ids tr) /\
  State.stdout st = [].
Proof.
  induction 1 as [|tr st a st' _ (IHp & IHs & IHo) _ Hbody].
  - simpl. rewrite app_nil_r. split_and!; [done | set_solver | done].
  - destruct (loop_body_Committed_pending _ _ _ _ Hbody) as (before & after & Hst & Hst').
    apply loop_body_Committed in Hbody as [_ (Hids & _ & Hout)%commit_fields].
    split_and!.
    + rewrite Hst', fmap_app. simpl. rewrite <- IHp, Hst.
      rewrite <- !app_assoc. f_equiv. simpl.
      rewrite (Permutation_app_comm _ [Assignment.task a]). simpl.
      by rewrite Permutation_middle.
    + rewrite Hids, IHs. unfold committed_ids. rewrite fmap_app, list_to_set_app_L. simpl.
      set_solver.
    + by rewrite Hout.
Qed.

Lemma loop_run_exit problem st tr st' tr0 :
  reaches problem tr0 st -> loop_run problem st tr st' ->
  exists st0, reaches problem (tr0 ++ tr) st0 /\
    ((st' = st0 /\ State.tasks_to_schedule st0 = []) \/
     (st' = abandon st0 /\ State.tasks_to_schedule st0 <> [] /\
      Forall (fun t => candidate problem st0 t = Ret None) (State.tasks_to_schedule st0))).
Proof.
  intros Hreach Hrun. revert tr0 Hreach.
  induction Hrun as [st Hnil | st st' Hne Hbody | st a st' tr st'' Hne Hbody _ IH];
    intros tr0 Hreach.
  - exists st. rewrite app_nil_r. auto.
  - exists st. rewrite app_nil_r. split; [done |]. right.
    apply loop_body_Break in Hbody as [Hall ->]. done.
  - destruct (IH (tr0 ++ [a])) as (st0 & Hst0 & Hexit).
    { by eapply reaches_commit. }
    exists st0. by rewrite <- app_assoc in Hst0.
Qed.

(** X9. When the loop is left, every real task is either still pending
    or the task of exactly one committed assignment, never both and never
    twice; [scheduled_task_ids] holds 0 and the ids of the committed tasks,
    and these are the tasks that have a finish time recorded. *)
Theorem real_tasks_are_pending_or_committed_once problem tr st :
  loop_run problem (initial_state problem) tr st ->
  State.tasks_to_schedule st ++ (Assignment.task <$> tr)
    ≡ₚ ProblemInstance.get_real_tasks problem /\
  State.scheduled_task_ids st = {[0]} ∪ list_to_set (committed_ids tr) /\
  dom (State.task_finish_times st) = State.scheduled_task_ids st.
Proof.
  intros Hrun. pose proof (loop_run_well_shaped _ _ _ Hrun) as [_ _ _ _ Hdom].
  destruct (loop_run_exit _ _ _ _ [] (reaches_initial problem) Hrun) as (st0 & Hreach & Hexit).
  simpl in Hreach. apply reaches_partition in Hreach as (Hp & Hs & _).
  destruct (abandon_fields st0) as (_ & _ & Ht & Hi & _).
  destruct Hexit as [[-> _] | [-> _]]; [done |].
  rewrite Hi in Hdom. by rewrite Ht, Hi.
Qed.

Lemma real_tasks_are_pending_or_committed_once_witness :
  loop_run chain_problem (initial_state chain_problem) [chain_first; chain_second] chain_final /\
  State.tasks_to_schedule chain_final ++ (Assignment.task <$> [chain_first; chain_second])
    ≡ₚ ProblemInstance.get_real_tasks chain_problem /\
  State.scheduled_task_ids chain_final
    = {[0]} ∪ list_to_set (committed_ids [chain_first; chain_second]) /\
  dom (State.task_finish_times chain_final) = State.scheduled_task_ids chain_final.
Proof.
  split; [exact chain_loop_run |].
  apply (real_tasks_are_pending_or_committed_once chain_problem
           [chain_first; chain_second] chain_final).
  exact chain_loop_run.
Defined.

(** ** Where the robots are *)

Lemma committed_step_fields problem st a st' :
  loop_body problem st = Ret (Committed a st') ->
  (forall i, i ∈ Robot.id <$> Assignment.coalition a ->
     State.robot_available_time st' !! i = Some (Assignment.finish_time a) /\
     State.robot_current_location st' !! i = Some (Task.id (Assignment.task a))) /\
  (forall i, i ∉ Robot.id <$> Assignment.coalition a ->
     State.robot_available_time st' !! i = State.robot_available_time st !! i /\
     State.robot_current_location st' !! i = State.robot_current_location st !! i).
Proof.
  intros [_ (st1 & remaining & Hst1 & _ & ->)%commit_Ret]%loop_body_Committed. simpl.
  apply commit_robots_available in Hst1 as [Hin Hout]. split.
  - intros i Hi. by destruct (Hin i Hi) as (_ & ? & ?).
  - done.
Qed.

Lemma last_end_snoc es e : last_end (es ++ [e]) = Entry.end_time e.
Proof. unfold last_end. by rewrite last_snoc. Qed.

Lemma last_task_snoc es e : last_task (es ++ [e]) = Entry.task e.
Proof. unfold last_task. by rewrite last_snoc. Qed.

Lemma reaches_last_entry problem tr st i :
  reaches problem tr st ->
  (i < ProblemInstance.num_robots problem)%nat ->
  State.robot_available_time st !! i = Some (last_end (schedule_of_trace i tr)) /\
  State.robot_current_location st !! i = Some (last_task (schedule_of_trace i tr)).
Proof.
  intros Hreach Hi. induction Hreach as [|tr st a st' _ [IHa IHl] _ Hbody].
  - simpl. rewrite !lookup_replicate_2 by done. done.
  - apply committed_step_fields in Hbody as [Hin Hout].
    rewrite schedule_of_trace_snoc. case_decide as Hmem.
    + rewrite last_end_snoc, last_task_snoc. by apply Hin.
    + rewrite app_nil_r. destruct (Hout i Hmem) as [-> ->]. done.
Qed.

(** X11. Under the constructor's numbering of the robots, when the loop
    is left [robot_available_time[i]] is the end time of the last entry of
    robot [i]'s schedule and [robot_current_location[i]] is the task of that
    entry; for a robot without entries they are 0.0 and task 0. *)
Theorem available_time_and_location_are_of_last_entry problem tr st i entries :
  ids_are_positions (ProblemInstance.robots problem) ->
  loop_run problem (initial_state problem) tr st ->
  State.robot_schedules st !! i = Some entries ->
  State.robot_available_time st !! i = Some (last_end entries) /\
  State.robot_current_location st !! i = Some (last_task entries).
Proof.
  intros Hids Hrun Hentries.
  pose proof (loop_run_well_shaped _ _ _ Hrun) as [_ _ Hkeys _ _].
  assert (Hi : (i < ProblemInstance.num_robots problem)%nat) by (apply Hkeys; eauto).
  rewrite (loop_run_schedule_entries _ _ _ Hids Hrun i Hi) in Hentries.
  injection Hentries as <-.
  destruct (loop_run_final _ _ _ Hrun) as (st0 & Hreach & Hst).
  pose proof (reaches_last_entry _ _ _ i Hreach Hi) as Hlast.
  destruct (abandon_fields st0) as (Ha & Hl & _).
  destruct Hst as [-> | ->]; [done |]. by rewrite Ha, Hl.
Qed.

Lemma available_time_and_location_are_of_last_entry_witness :
  ids_are_positions (ProblemInstance.robots chain_problem) /\
  loop_run chain_problem (initial_state chain_problem) [chain_first; chain_second] chain_final /\
  State.robot_schedules chain_final !! 0 = Some [Entry.mk 1 2 7; Entry.mk 2 8 12] /\
  State.robot_available_time chain_final !! 0
    = Some (last_end [Entry.mk 1 2 7; Entry.mk 2 8 12]) /\
  State.robot_current_location chain_final !! 0
    = Some (last_task [Entry.mk 1 2 7; Entry.mk 2 8 12]).
Proof.
  split; [exact chain_ids_are_positions |].
  split; [exact chain_loop_run |].
  split; [vm_compute; reflexivity |].
  apply (available_time_and_location_are_of_last_entry chain_problem
           [chain_first; chain_second] chain_final 0 [Entry.mk 1 2 7; Entry.mk 2 8 12]).
  - exact chain_ids_are_positions.
  - exact chain_loop_run.
  - vm_compute; reflexivity.
Defined.

(** ** Precedence in the committed assignments *)

Lemma reaches_split problem tr1 b tr2 st :
  reaches problem (tr1 ++ b :: tr2) st ->
  exists st1 st1',
    reaches problem tr1 st1 /\ loop_body problem st1 = Ret (Committed b st1').
Proof.
  remember (tr1 ++ b :: tr2) as tr eqn:Htr. intros Hreach. revert tr2 Htr.
  induction Hreach as [|tr st a st' Hreach IH _ Hbody]; intros tr2 Htr.
  - by destruct tr1.
  - destruct tr2 as [|x tr2 _] using rev_ind.
    + apply app_inj_tail in Htr as [-> ->]. eauto.
    + rewrite app_comm_cons, app_assoc in Htr. apply app_inj_tail in Htr as [-> _].
      by eapply IH.
Qed.

Lemma committed_ids_fmap tr : committed_ids tr = Task.id <$> (Assignment.task <$> tr).
Proof. unfold committed_ids. by rewrite <- list_fmap_compose. Qed.

Lemma elem_of_committed_ids q tr :
  q ∈ committed_ids tr <-> exists a, a ∈ tr /\ Task.id (Assignment.task a) = q.
Proof. unfold committed_ids. rewrite list_elem_of_fmap. naive_solver. Qed.

Lemma reaches_committed_real problem tr st a :
  reaches problem tr st -> a ∈ tr ->
  Assignment.task a ∈ ProblemInstance.get_real_tasks problem.
Proof.
  intros (Hp & _)%reaches_partition Ha. rewrite <- Hp.
  apply elem_of_app. right. by apply list_elem_of_fmap_2.
Qed.

Lemma reaches_committed_distinct problem tr st :
  distinct_task_ids problem ->
  reaches problem tr st ->
  NoDup (committed_ids tr) /\ (0 ∉ committed_ids tr) /\
  forall t, t ∈ State.tasks_to_schedule st ->
            Task.id t <> 0 /\ (Task.id t ∉ committed_ids tr).
Proof.
  intros [Hnodup Hzero] Hreach.
  pose proof (reaches_partition _ _ _ Hreach) as (Hp & _).
  rewrite <- Hp, fmap_app, <- committed_ids_fmap in Hnodup, Hzero.
  apply NoDup_app in Hnodup as (_ & Hdisj & Hnodup).
  split_and!; [done | set_solver |].
  intros t Ht. split.
  - intros Hid. apply Hzero. rewrite <- Hid. apply elem_of_app. left.
    by apply list_elem_of_fmap_2.
  - apply Hdisj. by apply list_elem_of_fmap_2.
Qed.



Lemma committed_predecessors problem st b st' q :
  loop_body problem st = Ret (Committed b st') ->
  q ∈ predecessors_of problem (Assignment.task b) ->
  q ∈ State.scheduled_task_ids st /\
  (default 0 (State.task_finish_times st !! q) <= Assignment.start_time b)%Q.
Proof.
  intros [(_ & _ & _ & Hcand & _) _]%loop_body_Committed Hq.
  apply candidate_Some in Hcand
    as (Hready & _ & _ & _ & arrivals & ready & _ & _ & _ & Hstart & _).
  split; [by apply (proj1 (all_scheduled_true _ _) Hready) |].
  rewrite Hstart. eapply Qle_trans; [| apply pymax_ge_r].
  apply max_default_ge. apply list_elem_of_fmap. by exists q.
Qed.



(** X14. A task whose predecessors include an id that is neither 0 nor
    the id of a real task (the end dummy, for one) is never committed: when
    the loop is left it is still pending, and the warning is printed. *)
Theorem task_waiting_for_unknown_predecessor_stays_pending problem st t q :
  run problem = Ret st ->
  t ∈ ProblemInstance.get_real_tasks problem ->
  q ∈ predecessors_of problem t ->
  q <> 0 ->
  q ∉ Task.id <$> ProblemInstance.get_real_tasks problem ->
  t ∈ State.tasks_to_schedule st /\ State.stdout st = [warning].
Proof.
  intros [tr Hrun]%run_loop_run Ht Hq Hq0 Hunknown.
  destruct (loop_run_exit _ _ _ _ [] (reaches_initial problem) Hrun) as (st0 & Hreach & Hexit).
  simpl in Hreach. pose proof (reaches_partition _ _ _ Hreach) as (Hp & _ & Hout).
  assert (Hpending : t ∈ State.tasks_to_schedule st0).
  { rewrite <- Hp in Ht. apply elem_of_app in Ht as [Ht | Ht]; [done |].
    apply list_elem_of_fmap in Ht as (b & -> & Hb).
    apply list_elem_of_split in Hb as (tr1 & tr2 & ->).
    apply reaches_split in Hreach as (st1 & st1' & Hreach1 & Hbody).
    destruct (committed_predecessors _ _ _ _ _ Hbody Hq) as [Hsched _].
    pose proof (reaches_partition _ _ _ Hreach1) as (_ & Hids & _).
    rewrite Hids in Hsched.
    apply elem_of_union in Hsched as [->%elem_of_singleton | Hsched]; [done |].
    apply elem_of_list_to_set, elem_of_committed_ids in Hsched as (a & Ha & <-).
    destruct Hunknown. apply list_elem_of_fmap_2.
    by eapply reaches_committed_real. }
  destruct Hexit as [[-> Hnil] | (-> & Hne & _)].
  - rewrite Hnil in Hpending. by apply elem_of_nil in Hpending.
  - destruct (abandon_fields st0) as (_ & _ & -> & _). split; [done |].
    unfold abandon. destruct (State.tasks_to_schedule st0); [done |]. simpl.
    by rewrite Hout.
Qed.

Lemma task_waiting_for_unknown_predecessor_stays_pending_witness :
  run blocked_problem = Ret (abandon chain_after_first) /\
  chain_task2 ∈ ProblemInstance.get_real_tasks blocked_problem /\
  3 ∈ predecessors_of blocked_problem chain_task2 /\
  3 <> 0 /\
  (3 ∉ Task.id <$> ProblemInstance.get_real_tasks blocked_problem) /\
  chain_task2 ∈ State.tasks_to_schedule (abandon chain_after_first) /\
  State.stdout (abandon chain_after_first) = [warning].
Proof.
  assert (Hrun : run blocked_problem = Ret (abandon chain_after_first))
    by (vm_compute; reflexivity).
  assert (Hreal : chain_task2 ∈ ProblemInstance.get_real_tasks blocked_problem)
    by compute_done.
  assert (Hpred : 3 ∈ predecessors_of blocked_problem chain_task2) by compute_done.
  assert (Hunknown : 3 ∉ Task.id <$> ProblemInstance.get_real_tasks blocked_problem)
    by compute_done.
  split; [exact Hrun |]. split; [exact Hreal |]. split; [exact Hpred |].
  split; [lia |]. split; [exact Hunknown |].
  apply (task_waiting_for_unknown_predecessor_stays_pending blocked_problem
           (abandon chain_after_first) chain_task2 3 Hrun Hreal Hpred ltac:(lia) Hunknown).
Defined.

(** ** One entry per task *)

Lemma NoDup_fmap_eq {A B} (f : A -> B) (l : list A) x y :
  NoDup (f <$> l) -> x ∈ l -> y ∈ l -> f x = f y -> x = y.
Proof.
  induction l as [|z l IH]; simpl; [by intros _ ?%elem_of_nil |].
  intros [Hz Hl]%NoDup_cons [-> | Hx]%elem_of_cons [-> | Hy]%elem_of_cons Heq; try done.
  - destruct Hz. rewrite Heq. by apply list_elem_of_fmap_2.
  - destruct Hz. rewrite <- Heq. by apply list_elem_of_fmap_2.
  - by apply IH.
Qed.

Lemma elem_of_schedule_of_trace e i tr :
  e ∈ schedule_of_trace i tr <->
  exists a, a ∈ tr /\ e = entry_of a /\ i ∈ Robot.id <$> Assignment.coalition a.
Proof.
  unfold schedule_of_trace. rewrite list_elem_of_fmap. split.
  - intros (a & -> & [Hi Ha]%list_elem_of_filter). eauto.
  - intros (a & Ha & -> & Hi). exists a. split; [done |]. by apply list_elem_of_filter.
Qed.

Lemma schedule_of_trace_tasks i tr :
  Entry.task <$> schedule_of_trace i tr `sublist_of` committed_ids tr.
Proof.
  unfold schedule_of_trace, committed_ids. rewrite <- list_fmap_compose.
  apply fmap_sublist, sublist_filter.
Qed.

(** X15. With distinct ids for the real tasks and the constructor's
    numbering of the robots: a returned schedule holds a task at most once,
    its entries are those of the committed assignments whose coalition the
    robot is in, and the robots that execute a task together hold the same
    entry for it, with the same start and end time. *)
Theorem coalition_members_share_one_entry problem tr st i j entries entries' :
  ids_are_positions (ProblemInstance.robots problem) ->
  distinct_task_ids problem ->
  loop_run problem (initial_state problem) tr st ->
  State.robot_schedules st !! i = Some entries ->
  State.robot_schedules st !! j = Some entries' ->
  NoDup (Entry.task <$> entries) /\
  (forall e, e ∈ entries <->
     exists a, a ∈ tr /\ e = entry_of a /\ i ∈ Robot.id <$> Assignment.coalition a) /\
  (forall e e', e ∈ entries -> e' ∈ entries' -> Entry.task e = Entry.task e' -> e = e').
Proof.
  intros Hids Hdistinct Hrun Hi Hj.
  pose proof (loop_run_well_shaped _ _ _ Hrun) as [_ _ Hkeys _ _].
  rewrite (loop_run_schedule_entries _ _ _ Hids Hrun i) in Hi by (apply Hkeys; eauto).
  rewrite (loop_run_schedule_entries _ _ _ Hids Hrun j) in Hj by (apply Hkeys; eauto).
  injection Hi as <-. injection Hj as <-.
  destruct (loop_run_final _ _ _ Hrun) as (st0 & Hreach & _).
  destruct (reaches_committed_distinct _ _ _ Hdistinct Hreach) as (Hnodup & _).
  split_and!.
  - apply (sublist_NoDup _ _ Hnodup (schedule_of_trace_tasks i tr)).
  - intros e. apply elem_of_schedule_of_trace.
  - intros e e' (a & Ha & -> & _)%elem_of_schedule_of_trace
             (a' & Ha' & -> & _)%elem_of_schedule_of_trace Heq.
    simpl in Heq. f_equal.
    by apply (NoDup_fmap_eq (fun a => Task.id (Assignment.task a)) tr).
Qed.

Lemma pair_loop_run :
  loop_run pair_problem (initial_state pair_problem) [pair_first] pair_final.
Proof.
  eapply loop_commit; [discriminate | by vm_compute |].
  by apply loop_exhausted.
Qed.

Lemma pair_ids_are_positions : ids_are_positions (ProblemInstance.robots pair_problem).
Proof. intros [|[|i]] r Hr; simpl in Hr; by simplify_eq. Qed.

Lemma coalition_members_share_one_entry_witness :
  ids_are_positions (ProblemInstance.robots pair_problem) /\
  distinct_task_ids pair_problem /\
  loop_run pair_problem (initial_state pair_problem) [pair_first] pair_final /\
  State.robot_schedules pair_final !! 0 = Some [Entry.mk 1 2 7] /\
  State.robot_schedules pair_final !! 1 = Some [Entry.mk 1 2 7] /\
  NoDup (Entry.task <$> [Entry.mk 1 2 7]) /\
  (forall e, e ∈ [Entry.mk 1 2 7] <->
     exists a, a ∈ [pair_first] /\ e = entry_of a /\
               0 ∈ Robot.id <$> Assignment.coalition a) /\
  (forall e e', e ∈ [Entry.mk 1 2 7] -> e' ∈ [Entry.mk 1 2 7] ->
                Entry.task e = Entry.task e' -> e = e').
Proof.
  assert (Hdistinct : distinct_task_ids pair_problem) by compute_done.
  assert (Hfirst : State.robot_schedules pair_final !! 0 = Some [Entry.mk 1 2 7])
    by (vm_compute; reflexivity).
  assert (Hsecond : State.robot_schedules pair_final !! 1 = Some [Entry.mk 1 2 7])
    by (vm_compute; reflexivity).
  split; [exact pair_ids_are_positions |]. split; [exact Hdistinct |].
  split; [exact pair_loop_run |]. split; [exact Hfirst |]. split; [exact Hsecond |].
  apply (coalition_members_share_one_entry pair_problem [pair_first] pair_final 0 1 _ _
           pair_ids_are_positions Hdistinct pair_loop_run Hfirst Hsecond).
Defined.

(** ** The returned record *)


(** X16. The returned record counts all the real tasks in [n_tasks], the
    committed ones and the ones left pending alike, and the robots in
    [n_robots]; its schedules have one key per robot, [0] to
    [n_robots - 1], also for the robots that were given no task. *)
Theorem result_counts_all_tasks_and_robots problem tr st :
  loop_run problem (initial_state problem) tr st ->
  exists res,
    greedy_heuristic problem = Ret res /\
    Result.n_tasks res = length tr + length (State.tasks_to_schedule st) /\
    Result.n_robots res = length (ProblemInstance.robots problem) /\
    forall i, is_Some (Result.robot_schedules res !! i) <-> i < Result.n_robots res.
Proof.
  intros Hrun.
  pose proof (loop_run_well_shaped _ _ _ Hrun) as [_ _ Hkeys _ _].
  destruct (loop_run_exit _ _ _ _ [] (reaches_initial problem) Hrun) as (st0 & Hreach & Hexit).
  simpl in Hreach. apply reaches_partition in Hreach as (Hp & _).
  assert (Hpending : State.tasks_to_schedule st = State.tasks_to_schedule st0).
  { destruct Hexit as [[-> _] | (-> & _)]; [done |].
    by destruct (abandon_fields st0) as (_ & _ & -> & _). }
  assert (Hst : run problem = Ret st) by (apply run_loop_run; eauto).
  destruct (greedy_heuristic_of_run _ _ Hst) as (res & Hres & _ & Hn & Hr & Hs).
  exists res. split_and!; [done | | done |].
  - rewrite Hn, <- Hp, Hpending, length_app, length_fmap. lia.
  - intros i. rewrite Hs, Hr. apply Hkeys.
Qed.

Lemma result_counts_all_tasks_and_robots_witness :
  loop_run chain_problem (initial_state chain_problem) [chain_first; chain_second] chain_final /\
  exists res,
    greedy_heuristic chain_problem = Ret res /\
    Result.n_tasks res
      = length [chain_first; chain_second] + length (State.tasks_to_schedule chain_final) /\
    Result.n_robots res = length (ProblemInstance.robots chain_problem) /\
    forall i, is_Some (Result.robot_schedules res !! i) <-> i < Result.n_robots res.
Proof.
  split; [exact chain_loop_run |].
  apply (result_counts_all_tasks_and_robots chain_problem
           [chain_first; chain_second] chain_final chain_loop_run).
Defined.

(** ** Instances whose dimensions fit *)

Lemma find_minimal_coalition_returns task robots :
  Forall (fun r => length (Task.requirements task) <= length (Robot.skills r)) robots ->
  exists res, find_minimal_coalition task robots = Ret res.
Proof.
  intros Hlen. unfold find_minimal_coalition. destruct (negb _); [eauto |].
  pose proof (first_capable_cases (Task.requirements task) robots) as H.
  destruct (first_capable _ _) as [[r |] | e |]; cbn [obind]; [eauto | | | done].
  - destruct (cover_loop_spec (S (length robots)) (ones (Task.requirements task)) [] robots)
      as (res & -> & _); [lia | eauto].
  - destruct H as (_ & r & i & Hin & Hi%lookup_lt_Some & Hs%lookup_ge_None).
    rewrite Forall_forall in Hlen. specialize (Hlen r Hin). lia.
Qed.


Lemma roster_member_id robots r :
  ids_are_positions robots -> r ∈ robots -> Robot.id r < length robots.
Proof.
  intros Hids [k Hk]%list_elem_of_lookup.
  rewrite (Hids _ _ Hk). by eapply lookup_lt_Some.
Qed.

(** ** Instances that the scheduler completes *)

Lemma coverable_coalition problem t res :
  coverable problem ->
  t ∈ ProblemInstance.get_real_tasks problem ->
  find_minimal_coalition t (ProblemInstance.robots problem) = Ret res ->
  truthy res = true.
Proof.
  intros Hcov Ht. unfold coverable in Hcov. rewrite Forall_forall in Hcov.
  destruct (Hcov t Ht) as [Hany Hskills].
  unfold find_minimal_coalition. rewrite Hany. cbn [negb].
  intros H. apply obind_Ret in H as (single & _ & H).
  destruct single as [r |]; [by simplify_eq |].
  destruct (cover_loop_spec (S (length (ProblemInstance.robots problem)))
              (ones (Task.requirements t)) [] (ProblemInstance.robots problem))
    as (res' & Hres' & Hnone & Hsome); [lia |].
  rewrite Hres' in H. injection H as ->.
  apply any_required_true in Hany as [i Hi]. apply elem_of_ones in Hi.
  destruct res as [c |].
  - destruct (Hsome c eq_refl) as [Hcovers _].
    destruct (Hcovers i Hi) as (r & Hr & _). destruct c; [by apply elem_of_nil in Hr | done].
  - destruct (proj1 Hnone eq_refl) as (j & Hj & Hno).
    rewrite Forall_forall in Hskills.
    assert (Hj' : j ∈ ones_from 0 (Task.requirements t)).
    { apply elem_of_ones_from. rewrite Nat.sub_0_r. apply elem_of_ones in Hj. split; [lia | done]. }
    specialize (Hskills j Hj'). apply Exists_exists in Hskills as (r & Hr & Hskill).
    destruct (Hno r Hr). by apply elem_of_ones.
Qed.

Lemma least_rank_exists {A} (f : A -> nat) (l : list A) :
  l <> [] -> exists x, x ∈ l /\ forall y, y ∈ l -> f x <= f y.
Proof.
  induction l as [|x l IH]; [done |]. intros _.
  destruct l as [|x' l].
  - exists x. split; [set_solver |]. intros y ->%list_elem_of_singleton. done.
  - destruct IH as (m & Hm & Hleast); [done |].
    destruct (decide (f x <= f m)) as [Hle | Hgt].
    + exists x. split; [set_solver |].
      intros y [-> | Hy]%elem_of_cons; [done |]. specialize (Hleast y Hy). lia.
    + exists m. split; [set_solver |].
      intros y [-> | Hy]%elem_of_cons; [lia | by apply Hleast].
Qed.

(** ** Coalitions and the roster *)

(** X19. A coalition returned by [find_minimal_coalition] is drawn from
    the roster without taking a robot more often than the roster holds it:
    its members are roster robots, it is no longer than the roster, and
    where robot ids are roster positions no two members have the same id. *)
Theorem coalition_is_drawn_from_roster task robots c :
  find_minimal_coalition task robots = Ret (Some c) ->
  (exists rest, c ++ rest ≡ₚ robots) /\
  (forall r, r ∈ c -> r ∈ robots) /\
  length c <= length robots /\
  (ids_are_positions robots -> NoDup (Robot.id <$> c)).
Proof.
  intros [rest Hperm]%find_minimal_coalition_members. split_and!.
  - by exists rest.
  - intros r Hr. rewrite <- Hperm. apply elem_of_app. by left.
  - rewrite <- Hperm, length_app. lia.
  - intros Hids%ids_are_positions_NoDup.
    rewrite <- Hperm, fmap_app in Hids. by apply NoDup_app in Hids as (? & _).
Qed.

Lemma coalition_is_drawn_from_roster_witness :
  find_minimal_coalition two_skill_task specialists = Ret (Some (take 2 specialists)) /\
  (exists rest, take 2 specialists ++ rest ≡ₚ specialists) /\
  (forall r, r ∈ take 2 specialists -> r ∈ specialists) /\
  length (take 2 specialists) <= length specialists /\
  (ids_are_positions specialists -> NoDup (Robot.id <$> take 2 specialists)).
Proof.
  split; [vm_compute; reflexivity |].
  apply (coalition_is_drawn_from_roster two_skill_task specialists (take 2 specialists)).
  vm_compute; reflexivity.
Defined.

(** ** From the raw data to the schedule *)






(** ** The files of an instance *)

Lemma append_nil (s : string) : ("" ++ s)%string = s.
Proof. reflexivity. Qed.

Lemma append_cons c (s t : string) : (String c s ++ t)%string = String c (s ++ t).
Proof. reflexivity. Qed.

Ltac string_simpl := rewrite ?append_cons, ?append_nil.

Lemma append_assoc (s1 s2 s3 : string) : ((s1 ++ s2) ++ s3 = s1 ++ (s2 ++ s3))%string.
Proof. induction s1 as [|c s1 IH]; string_simpl; congruence. Qed.

Lemma length_append (s1 s2 : string) :
  String.length (s1 ++ s2) = String.length s1 + String.length s2.
Proof. induction s1 as [|c s1 IH]; string_simpl; simpl; congruence. Qed.

Lemma append_inv_head (s a b : string) : (s ++ a = s ++ b)%string -> a = b.
Proof.
  induction s as [|c s IH]; string_simpl; [done |]. intros H. injection H as H. by apply IH.
Qed.

Lemma append_inv_tail (a b s : string) : (a ++ s = b ++ s)%string -> a = b.
Proof.
  revert b. induction a as [|c a IH]; intros [|c' b] H; revert H; string_simpl; intros H.
  - done.
  - apply (f_equal String.length) in H. simpl in H. rewrite length_append in H. lia.
  - apply (f_equal String.length) in H. simpl in H. rewrite length_append in H. lia.
  - injection H as -> H. f_equal. by apply IH.
Qed.

Lemma ends_with_slash_append (a : string) c b :
  DataLoader.ends_with_slash (a ++ String c b) = DataLoader.ends_with_slash (String c b).
Proof.
  induction a as [|x a IH]; [done |].
  rewrite <- IH. string_simpl. by destruct a.
Qed.

Lemma path_join_directory (base_path : string) c name :
  DataLoader.starts_with_slash (String c name) = false ->
  DataLoader.path_join base_path (String c name)
    = (FileNames.directory_prefix base_path ++ String c name)%string.
Proof.
  intros Hname. unfold DataLoader.path_join, FileNames.directory_prefix. rewrite Hname.
  destruct (_ || _); [done |]. by rewrite append_assoc.
Qed.

Lemma path_join_file (dir : string) c name d file :
  DataLoader.starts_with_slash (String d file) = false ->
  DataLoader.ends_with_slash (String c name) = false ->
  DataLoader.path_join (dir ++ String c name) (String d file)
    = (dir ++ String c name ++ "/" ++ String d file)%string.
Proof.
  intros Hfile Hname. unfold DataLoader.path_join. rewrite Hfile.
  rewrite ends_with_slash_append, Hname.
  replace (String.eqb (dir ++ String c name) "") with false.
  - simpl. by rewrite append_assoc.
  - symmetry. apply String.eqb_neq. destruct dir; string_simpl; done.
Qed.

Lemma problem_filepath_layout instance_id base_path :
  DataLoader.problem_filepath instance_id base_path
    = (FileNames.directory_prefix base_path
       ++ "problem_instances/problem_instance_1p_"
       ++ DataLoader.format_06d instance_id ++ ".json")%string.
Proof.
  unfold DataLoader.problem_filepath, DataLoader.problem_filename.
  rewrite path_join_directory by done. string_simpl.
  rewrite path_join_file by done. by string_simpl.
Qed.

Lemma solution_filepath_layout instance_id base_path :
  DataLoader.solution_filepath instance_id base_path
    = (FileNames.directory_prefix base_path
       ++ "solutions/optimal_schedule_1p_"
       ++ DataLoader.format_06d instance_id ++ ".json")%string.
Proof.
  unfold DataLoader.solution_filepath, DataLoader.solution_filename.
  rewrite path_join_directory by done. string_simpl.
  rewrite path_join_file by done. by string_simpl.
Qed.

Lemma zero_padded_value width d :
  Z.of_uint (DataLoader.zero_padded width d) = Z.of_uint d.
Proof.
  unfold DataLoader.zero_padded, Z.of_uint.
  induction (width - Decimal.nb_digits d) as [|n IH]; [done |]. simpl. exact IH.
Qed.

Lemma read_digits d :
  FileNames.read_06d (DecimalString.NilEmpty.string_of_uint d)
  = match d with
    | Decimal.Nil => None
    | _ => Some (Z.of_uint d)
    end.
Proof.
  pose proof (DecimalString.NilEmpty.usu d) as Husu.
  destruct d; simpl in *; try done; by rewrite Husu.
Qed.

Lemma zero_padded_cons width d :
  d <> Decimal.Nil -> DataLoader.zero_padded width d <> Decimal.Nil.
Proof.
  intros Hd. unfold DataLoader.zero_padded.
  destruct (width - Decimal.nb_digits d); simpl; done.
Qed.

Lemma to_int_digits n :
  match Z.to_int n with
  | Decimal.Pos d | Decimal.Neg d => d <> Decimal.Nil
  end.
Proof.
  destruct n as [|p|p]; simpl; [done | apply DecimalPos.Unsigned.to_uint_nonnil..].
Qed.

Lemma read_format n : FileNames.read_06d (DataLoader.format_06d n) = Some n.
Proof.
  pose proof (DecimalZ.of_to n) as Hn. pose proof (to_int_digits n) as Hd.
  unfold DataLoader.format_06d. destruct (Z.to_int n) as [d | d].
  - rewrite read_digits. pose proof (zero_padded_cons 6 d Hd) as Hp.
    destruct (DataLoader.zero_padded 6 d) eqn:E; try done;
      rewrite <- E, zero_padded_value; f_equal; exact Hn.
  - simpl. rewrite DecimalString.NilEmpty.usu. simpl. rewrite zero_padded_value.
    f_equal. exact Hn.
Qed.

Lemma length_string_of_uint d :
  String.length (DecimalString.NilEmpty.string_of_uint d) = Decimal.nb_digits d.
Proof. induction d; simpl; congruence. Qed.

Lemma of_uint_acc_lower d acc :
  (Z.pos acc * 10 ^ Z.of_nat (Decimal.nb_digits d) <= Z.pos (Pos.of_uint_acc d acc))%Z.
Proof.
  revert acc. induction d as [|d IH|d IH|d IH|d IH|d IH|d IH|d IH|d IH|d IH|d IH];
    intros acc; [simpl; lia | ..];
    cbn [Decimal.nb_digits Pos.of_uint_acc];
    rewrite Nat2Z.inj_succ, Z.pow_succ_r by lia;
    (eapply Z.le_trans; [| apply IH]);
    assert (0 < 10 ^ Z.of_nat (Decimal.nb_digits d))%Z by (apply Z.pow_pos_nonneg; lia);
    nia.
Qed.

Lemma to_uint_lower p :
  (10 ^ Z.of_nat (Decimal.nb_digits (Pos.to_uint p) - 1) <= Z.pos p)%Z.
Proof.
  pose proof (DecimalPos.Unsigned.of_to p) as Hof.
  pose proof (DecimalPos.Unsigned.to_of (Pos.to_uint p)) as Hnorm.
  rewrite Hof in Hnorm. simpl in Hnorm.
  pose proof (DecimalPos.Unsigned.to_uint_nonnil p) as Hnil.
  pose proof (DecimalPos.Unsigned.to_uint_nonzero p) as Hzero.
  destruct (Pos.to_uint p) as [|d|d|d|d|d|d|d|d|d|d] eqn:E; [done | ..].
  { exfalso. unfold Decimal.unorm in Hnorm. rewrite DecimalFacts.nzhead_D0 in Hnorm.
    destruct (Decimal.nzhead d) as [|u|u|u|u|u|u|u|u|u|u] eqn:Ed; try discriminate Hnorm.
    - injection Hnorm as Hd. subst d. by apply Hzero.
    - by apply (DecimalFacts.nzhead_nonzero d u). }
  all: simpl in Hof; injection Hof as <-;
    cbn [Decimal.nb_digits]; rewrite Nat.sub_1_r, Nat.pred_succ;
    (eapply Z.le_trans; [| apply of_uint_acc_lower]); 
    assert (0 < 10 ^ Z.of_nat (Decimal.nb_digits d))%Z by (apply Z.pow_pos_nonneg; lia);
    nia.
Qed.

Lemma format_06d_length n :
  (0 <= n < 1000000)%Z -> String.length (DataLoader.format_06d n) = 6.
Proof.
  intros Hn. unfold DataLoader.format_06d.
  destruct n as [|p|p]; [done | | lia]. simpl.
  rewrite length_string_of_uint. unfold DataLoader.zero_padded.
  rewrite DecimalFacts.nb_digits_iter_D0.
  pose proof (to_uint_lower p) as Hlow.
  destruct (decide (Decimal.nb_digits (Pos.to_uint p) <= 6)) as [| Hmany]; [lia |].
  assert (10 ^ 6 <= 10 ^ Z.of_nat (Decimal.nb_digits (Pos.to_uint p) - 1))%Z
    by (apply Z.pow_le_mono_r; lia).
  lia.
Qed.

(** X21. The two files of an instance are where the docstring of
    [load_problem_instance] puts them: under [base_path] (with a [/]
    added unless it is empty or ends in one) the problem is
    [problem_instances/problem_instance_1p_<id>.json] and the solution
    [solutions/optimal_schedule_1p_<id>.json], where [<id>] is the decimal
    form of the id, never truncated (it reads back as the id) and of
    exactly six digits for the ids from 0 to 999999. *)
Theorem instance_files_follow_the_layout (instance_id : Z) (base_path : string) :
  DataLoader.problem_filepath instance_id base_path
    = (FileNames.directory_prefix base_path
       ++ "problem_instances/problem_instance_1p_"
       ++ DataLoader.format_06d instance_id ++ ".json")%string /\
  DataLoader.solution_filepath instance_id base_path
    = (FileNames.directory_prefix base_path
       ++ "solutions/optimal_schedule_1p_"
       ++ DataLoader.format_06d instance_id ++ ".json")%string /\
  FileNames.read_06d (DataLoader.format_06d instance_id) = Some instance_id /\
  ((0 <= instance_id < 1000000)%Z ->
   String.length (DataLoader.format_06d instance_id) = 6).
Proof.
  split_and!.
  - apply problem_filepath_layout.
  - apply solution_filepath_layout.
  - apply read_format.
  - apply format_06d_length.
Qed.

Lemma instance_files_follow_the_layout_witness :
  (0 <= 42 < 1000000)%Z /\
  DataLoader.problem_filepath 42 "."
    = "./problem_instances/problem_instance_1p_000042.json"%string /\
  String.length (DataLoader.format_06d 42) = 6.
Proof.
  assert (Hrange : (0 <= 42 < 1000000)%Z) by lia.
  destruct (instance_files_follow_the_layout 42 ".") as (Hproblem & _ & _ & Hsix).
  split; [exact Hrange |]. split; [exact Hproblem | exact (Hsix Hrange)].
Defined.

(** X22. Two instance ids never share a file: for one [base_path] the
    problem paths of different ids differ, so do their solution paths, and
    no problem path is a solution path. *)
Theorem instance_files_are_distinct (a b : Z) (base_path : string) :
  (DataLoader.problem_filepath a base_path = DataLoader.problem_filepath b base_path ->
   a = b) /\
  (DataLoader.solution_filepath a base_path = DataLoader.solution_filepath b base_path ->
   a = b) /\
  DataLoader.problem_filepath a base_path <> DataLoader.solution_filepath b base_path.
Proof.
  assert (Hformat : DataLoader.format_06d a = DataLoader.format_06d b -> a = b).
  { intros H. pose proof (read_format a) as Ha. rewrite H, read_format in Ha.
    by injection Ha. }
  rewrite !problem_filepath_layout, !solution_filepath_layout. split_and!.
  - intros H. apply append_inv_head, append_inv_head in H.
    by apply Hformat, (append_inv_tail _ _ ".json").
  - intros H. apply append_inv_head, append_inv_head in H.
    by apply Hformat, (append_inv_tail _ _ ".json").
  - intros H. apply append_inv_head in H. revert H. string_simpl. discriminate.
Qed.

(** ** Tasks that are never scheduled *)

Lemma run_exit problem st :
  run problem = Ret st ->
  exists tr st0,
    reaches problem tr st0 /\
    State.tasks_to_schedule st = State.tasks_to_schedule st0 /\
    (State.tasks_to_schedule st <> [] -> State.stdout st = [warning]).
Proof.
  intros [tr Hrun]%run_loop_run.
  destruct (loop_run_exit _ _ _ _ [] (reaches_initial problem) Hrun) as (st0 & Hreach & Hexit).
  simpl in Hreach. exists tr, st0. split; [done |].
  pose proof (reaches_partition _ _ _ Hreach) as (_ & _ & Hout).
  destruct Hexit as [[-> Hnil] | (-> & Hne & _)].
  - split; [done |]. by rewrite Hnil.
  - destruct (abandon_fields st0) as (_ & _ & -> & _). split; [done |]. intros _.
    unfold abandon. destruct (State.tasks_to_schedule st0); [done |]. simpl.
    by rewrite Hout.
Qed.

Lemma committed_candidate problem tr st b :
  reaches problem tr st -> b ∈ tr ->
  exists tr1 st1,
    reaches problem tr1 st1 /\
    candidate problem st1 (Assignment.task b) = Ret (Some b) /\
    forall q, q ∈ predecessors_of problem (Assignment.task b) ->
              q = 0 \/ q ∈ committed_ids tr1 /\ exists tr2, tr = tr1 ++ b :: tr2.
Proof.
  intros Hreach (tr1 & tr2 & ->)%list_elem_of_split.
  destruct (reaches_split _ _ _ _ _ Hreach) as (st1 & st1' & Hreach1 & Hbody).
  exists tr1, st1. split; [done |]. split.
  - by apply loop_body_Committed in Hbody as [(_ & _ & _ & Hcand & _) _].
  - intros q Hq. destruct (committed_predecessors _ _ _ _ _ Hbody Hq) as [Hsched _].
    pose proof (reaches_partition _ _ _ Hreach1) as (_ & Hids & _).
    rewrite Hids in Hsched.
    apply elem_of_union in Hsched as [->%elem_of_singleton | Hsched]; [by left |].
    right. split; [by apply elem_of_list_to_set in Hsched | eauto].
Qed.

(** X23. A real task for which [find_minimal_coalition] returns the empty
    coalition (no skill required) or [None] (some required skill that no
    robot has) is never scheduled, on any instance: when the call ends the
    task is still pending and the warning has been printed. *)
Theorem task_without_coalition_is_never_scheduled problem st t res :
  run problem = Ret st ->
  t ∈ ProblemInstance.get_real_tasks problem ->
  find_minimal_coalition t (ProblemInstance.robots problem) = Ret res ->
  truthy res = false ->
  t ∈ State.tasks_to_schedule st /\ State.stdout st = [warning].
Proof.
  intros (tr & st0 & Hreach & Hsame & Hwarn)%run_exit Ht Hres Hfalse.
  pose proof (reaches_partition _ _ _ Hreach) as (Hp & _).
  assert (Hpending : t ∈ State.tasks_to_schedule st).
  { rewrite Hsame. rewrite <- Hp in Ht. apply elem_of_app in Ht as [Ht | Ht]; [done |].
    apply list_elem_of_fmap in Ht as (b & -> & Hb).
    destruct (committed_candidate _ _ _ _ Hreach Hb) as (tr1 & st1 & _ & Hcand & _).
    apply candidate_Some in Hcand as (_ & Hcoalition & Hne & _).
    rewrite Hres in Hcoalition. injection Hcoalition as ->.
    simpl in Hfalse. by destruct (Assignment.coalition b). }
  split; [done |]. apply Hwarn. intros Hnil. rewrite Hnil in Hpending.
  by apply elem_of_nil in Hpending.
Qed.

Lemma task_without_coalition_is_never_scheduled_witness :
  run stall_problem = Ret (abandon stall_after_first) /\
  stall_task2 ∈ ProblemInstance.get_real_tasks stall_problem /\
  find_minimal_coalition stall_task2 (ProblemInstance.robots stall_problem) = Ret None /\
  truthy None = false /\
  stall_task2 ∈ State.tasks_to_schedule (abandon stall_after_first) /\
  State.stdout (abandon stall_after_first) = [warning].
Proof.
  assert (Hrun : run stall_problem = Ret (abandon stall_after_first))
    by (vm_compute; reflexivity).
  assert (Hreal : stall_task2 ∈ ProblemInstance.get_real_tasks stall_problem)
    by compute_done.
  assert (Hnone : find_minimal_coalition stall_task2 (ProblemInstance.robots stall_problem)
                  = Ret None) by (vm_compute; reflexivity).
  split; [exact Hrun |]. split; [exact Hreal |]. split; [exact Hnone |].
  split; [reflexivity |].
  apply (task_without_coalition_is_never_scheduled stall_problem
           (abandon stall_after_first) stall_task2 None Hrun Hreal Hnone eq_refl).
Defined.

(** X24. With distinct ids for the real tasks, none of them 0: a real
    task stays pending whenever one of its predecessors does.  A task that
    cannot be scheduled keeps all the tasks that wait for it, directly or
    through others, out of the schedule. *)
Theorem successor_of_pending_task_stays_pending problem st t t' :
  distinct_task_ids problem ->
  run problem = Ret st ->
  t ∈ State.tasks_to_schedule st ->
  t' ∈ ProblemInstance.get_real_tasks problem ->
  Task.id t ∈ predecessors_of problem t' ->
  t' ∈ State.tasks_to_schedule st.
Proof.
  intros Hdistinct (tr & st0 & Hreach & Hsame & _)%run_exit Ht Ht' Hpred.
  rewrite Hsame in *.
  pose proof (reaches_partition _ _ _ Hreach) as (Hp & _).
  destruct (reaches_committed_distinct _ _ _ Hdistinct Hreach) as (_ & _ & Hpending).
  destruct (Hpending t Ht) as [Hne Hnot].
  rewrite <- Hp in Ht'. apply elem_of_app in Ht' as [Ht' | Ht']; [done |].
  apply list_elem_of_fmap in Ht' as (b & -> & Hb).
  destruct (committed_candidate _ _ _ _ Hreach Hb) as (tr1 & st1 & _ & _ & Hpreds).
  destruct (Hpreds _ Hpred) as [Hzero | [Hcommitted [tr2 ->]]]; [done |].
  destruct Hnot. unfold committed_ids in *. rewrite fmap_app. apply elem_of_app. by left.
Qed.

Lemma successor_of_pending_task_stays_pending_witness :
  distinct_task_ids blocked_then_chain_problem /\
  run blocked_then_chain_problem = Ret (abandon (initial_state blocked_then_chain_problem)) /\
  chain_task1 ∈ State.tasks_to_schedule (abandon (initial_state blocked_then_chain_problem)) /\
  chain_task2 ∈ ProblemInstance.get_real_tasks blocked_then_chain_problem /\
  Task.id chain_task1 ∈ predecessors_of blocked_then_chain_problem chain_task2 /\
  chain_task2 ∈ State.tasks_to_schedule (abandon (initial_state blocked_then_chain_problem)).
Proof.
  assert (Hdistinct : distinct_task_ids blocked_then_chain_problem) by compute_done.
  assert (Hrun : run blocked_then_chain_problem
                 = Ret (abandon (initial_state blocked_then_chain_problem)))
    by (vm_compute; reflexivity).
  assert (Hpending : chain_task1 ∈ State.tasks_to_schedule
                       (abandon (initial_state blocked_then_chain_problem)))
    by compute_done.
  assert (Hreal : chain_task2 ∈ ProblemInstance.get_real_tasks blocked_then_chain_problem)
    by compute_done.
  assert (Hpred : Task.id chain_task1 ∈ predecessors_of blocked_then_chain_problem chain_task2)
    by compute_done.
  split; [exact Hdistinct |]. split; [exact Hrun |]. split; [exact Hpending |].
  split; [exact Hreal |]. split; [exact Hpred |].
  apply (successor_of_pending_task_stays_pending blocked_then_chain_problem
           (abandon (initial_state blocked_then_chain_problem)) chain_task1 chain_task2
           Hdistinct Hrun Hpending Hreal Hpred).
Defined.

(** * The scheduler on doubles *)

(** ** The order of the doubles *)

Import SpecFloat.
Import FloatOrder.

Ltac flt_case :=
  split;
  [ first [ discriminate
          | intros _; do 2 eexists;
            (split; [reflexivity | split; [reflexivity | simpl; lia]]) ]
  | first [ reflexivity
          | let Hx := fresh in let Hy := fresh in let Hlt := fresh in
            intros (? & ? & Hx & Hy & Hlt);
            first [ discriminate Hx | discriminate Hy
                  | injection Hx as <-; injection Hy as <-; simpl in Hlt; lia ] ] ].

Lemma flt_spec x y :
  OnFloats.flt x y = true <->
  exists kx ky, float_key x = Some kx /\ float_key y = Some ky /\ key_lt kx ky.
Proof.
  unfold OnFloats.flt, SFltb, key_lt.
  destruct x as [sx | sx | | sx mx ex], y as [sy | sy | | sy my ey]; simpl;
    try destruct sx; try destruct sy; simpl;
    try change (PosDef.Pos.compare_cont Eq mx my) with (Pos.compare mx my);
    try destruct (Z.compare_spec ex ey); try destruct (Pos.compare_spec mx my); simpl;
    flt_case.
Qed.

Lemma flt_irrefl x : OnFloats.flt x x = false.
Proof.
  destruct (OnFloats.flt x x) eqn:H; [| done].
  apply flt_spec in H as (kx & ky & Hx & Hy & Hlt). simplify_eq.
  unfold key_lt in Hlt. lia.
Qed.

Lemma flt_trans x y z :
  OnFloats.flt x y = true -> OnFloats.flt y z = true -> OnFloats.flt x z = true.
Proof.
  intros (kx & ky & Hx & Hy & Hxy)%flt_spec (ky' & kz & Hy' & Hz & Hyz)%flt_spec.
  simplify_eq. apply flt_spec. exists kx, kz. split_and!; [done.. |].
  unfold key_lt in *. lia.
Qed.

(** What is not below a double that something is below is above that
    something, unless it is [NaN]. *)
Lemma flt_below_not_below x y z :
  OnFloats.flt x y = true -> OnFloats.flt z y = false ->
  OnFloats.flt x z = true \/ z = S754_nan.
Proof.
  intros (kx & ky & Hx & Hy & Hxy)%flt_spec Hzy.
  destruct (float_key z) as [kz |] eqn:Hz; [| right; by destruct z as [| | |[]]].
  left. apply flt_spec. exists kx, kz. split_and!; [done.. |].
  assert (Hge : ~ key_lt kz ky).
  { intros Hlt. assert (OnFloats.flt z y = true) by (apply flt_spec; eauto). congruence. }
  unfold key_lt in *. lia.
Qed.

(** ** One round on doubles *)

Lemma fmax_fold seen a rest :
  a ∈ seen ->
  (forall y, y ∈ seen -> OnFloats.flt a y = false) ->
  float_max_of (seen ++ rest) (foldl OnFloats.fmax a rest).
Proof.
  revert seen a. induction rest as [|b rest IH]; intros seen a Hin Hmax; simpl.
  - rewrite app_nil_r. by split.
  - rewrite (assoc_L _ seen [b] rest : seen ++ b :: rest = (seen ++ [b]) ++ rest).
    apply IH; unfold OnFloats.fmax; destruct (OnFloats.flt a b) eqn:Hab.
    + set_solver.
    + set_solver.
    + intros y [Hy | ->%list_elem_of_singleton]%elem_of_app; [| apply flt_irrefl].
      destruct (OnFloats.flt b y) eqn:Hby; [| done].
      rewrite <- (Hmax y Hy). symmetry. by eapply flt_trans.
    + intros y [Hy | ->%list_elem_of_singleton]%elem_of_app; [by apply Hmax | done].
Qed.

Lemma float_max_list_Ret xs m :
  OnFloats.max_list xs = Ret m -> float_max_of xs m.
Proof.
  destruct xs as [|x rest]; [done |]. intros [= <-].
  apply (fmax_fold [x] x rest); [set_solver |].
  intros y ->%list_elem_of_singleton. apply flt_irrefl.
Qed.

Lemma float_arrival_time_Ret problem st t r x :
  OnFloats.arrival_time problem st t r = Ret x <-> float_arrives problem st t r x.
Proof.
  unfold OnFloats.arrival_time, float_arrives. split.
  - intros H.
    apply obind_Ret in H as (free & Hfree%index_Ret & H).
    apply obind_Ret in H as (here & Hhere%index_Ret & H).
    apply obind_Ret in H as (row & Hrow%index_Ret & H).
    apply obind_Ret in H as (travel & Htravel%index_Ret & H).
    apply obind_Ret in H as (travel' & Hconv & H).
    injection H as <-. by exists free, here, row, travel, travel'.
  - intros (free & here & row & travel & travel' & Hfree & Hhere & Hrow & Htravel & Hconv & ->).
    apply index_Ret in Hfree, Hhere, Hrow, Htravel.
    rewrite Hfree; cbn [obind]. rewrite Hhere; cbn [obind]. rewrite Hrow; cbn [obind].
    rewrite Htravel; cbn [obind]. by rewrite Hconv.
Qed.

Lemma float_candidate_Some problem st t c :
  OnFloats.candidate problem st t = Ret (Some c) ->
  OnFloats.all_scheduled st (predecessors_of problem t) = true /\
  find_minimal_coalition t (ProblemInstance.robots problem)
    = Ret (Some (OnFloats.Assignment.coalition c)) /\
  OnFloats.Assignment.coalition c <> [] /\
  float_timed_by_rule problem st t c.
Proof.
  unfold OnFloats.candidate. destruct (OnFloats.all_scheduled _ _); cbn [negb]; [| done].
  intros H. apply obind_Ret in H as (coalition & Hfind & H).
  destruct coalition as [[|r members] |]; cbn [truthy] in H; try done.
  cbv zeta in H. cbn [default] in H.
  apply obind_Ret in H as (arrivals & Harr & H).
  apply obind_Ret in H as (ready & Hready & H).
  apply obind_Ret in H as (exec & Hexec & H).
  injection H as <-. cbn.
  apply float_max_list_Ret in Hready.
  apply (comprehension_Ret _ (r :: members)) in Harr.
  split_and!; [done.. |]. split; [done |].
  exists arrivals, ready, exec. split_and!; [| done..].
  eapply Forall2_impl; [exact Harr |]. intros ??. by apply float_arrival_time_Ret.
Qed.

Lemma selectable_below a c :
  selectable a ->
  OnFloats.flt (OnFloats.Assignment.finish_time c) (OnFloats.Assignment.finish_time a) = true ->
  selectable c.
Proof. unfold selectable, below_inf. intros Ha Hlt. by eapply flt_trans. Qed.

Lemma not_selectable_inf a :
  OnFloats.flt (OnFloats.Assignment.finish_time a) OnFloats.inf = false -> ~ selectable a.
Proof. unfold selectable, below_inf. congruence. Qed.

Lemma float_best_so_far_step problem st seen acc t acc' :
  float_best_so_far problem st seen acc ->
  OnFloats.consider problem st acc t = Ret acc' ->
  float_best_so_far problem st (seen ++ [t]) acc'.
Proof.
  unfold OnFloats.consider. intros Hacc H.
  apply obind_Ret in H as (cand & Hcand & H). destruct cand as [c |].
  - assert (OnFloats.Assignment.task c = t) as Htask.
    { apply float_candidate_Some in Hcand as (_ & _ & _ & [? _]). done. }
    destruct (OnFloats.flt (OnFloats.Assignment.finish_time c) acc.2) eqn:Hlt; simplify_eq.
    + unfold float_best_so_far in *; simpl.
      destruct acc as [[a |] e]; simpl in *.
      * destruct Hacc as (-> & Hsel & before & after & -> & Ha & Hbefore & Hafter).
        split; [done |]. split; [by eapply selectable_below |].
        exists (before ++ OnFloats.Assignment.task a :: after), [].
        split_and!; [done | done | | by intros ?? ?%elem_of_nil].
        intros t' c' Hin Hc' Hsel'.
        apply elem_of_app in Hin as [Hin | Hin].
        -- eapply flt_trans; [exact Hlt | by eapply Hbefore].
        -- apply elem_of_cons in Hin as [-> | Hin].
           ++ rewrite Ha in Hc'. by simplify_eq.
           ++ destruct (flt_below_not_below _ _ _ Hlt (Hafter _ _ Hin Hc')) as [? | Hnan];
                [done |].
              unfold selectable, below_inf in Hsel'. by rewrite Hnan in Hsel'.
      * destruct Hacc as (-> & Hnone).
        split; [done |]. split; [done |].
        exists seen, []. split_and!; [done | done | | by intros ?? ?%elem_of_nil].
        intros t' c' Hin Hc' Hsel'.
        destruct (Hnone _ Hin) as (c'' & Hc'' & Hno). rewrite Hc' in Hc''.
        injection Hc'' as <-. by destruct (Hno c' eq_refl).
    + unfold float_best_so_far in *. destruct acc' as [[a |] e]; simpl in *.
      * destruct Hacc as (-> & Hsel & before & after & -> & Ha & Hbefore & Hafter).
        split; [done |]. split; [done |].
        exists before, (after ++ [OnFloats.Assignment.task c]).
        split_and!; [by rewrite <- (assoc_L _) | done..|].
        intros t' c' [Hin | ->%list_elem_of_singleton]%elem_of_app Hc'; [by eapply Hafter |].
        rewrite Hcand in Hc'. by simplify_eq.
      * destruct Hacc as (-> & Hnone). split; [done |].
        intros t' [Hin | ->%list_elem_of_singleton]%elem_of_app; [by apply Hnone |].
        exists (Some c). split; [done |]. intros a [= <-]. by apply not_selectable_inf.
  - simplify_eq. unfold float_best_so_far in *. destruct acc' as [[a |] e]; simpl in *.
    + destruct Hacc as (-> & Hsel & before & after & -> & Ha & Hbefore & Hafter).
      split; [done |]. split; [done |]. exists before, (after ++ [t]).
      split_and!; [by rewrite <- (assoc_L _) | done..|].
      intros t' c' [Hin | ->%list_elem_of_singleton]%elem_of_app Hc'; [by eapply Hafter |].
      rewrite Hcand in Hc'. done.
    + destruct Hacc as (-> & Hnone). split; [done |].
      intros t' [Hin | ->%list_elem_of_singleton]%elem_of_app; [by apply Hnone |].
      exists None. split; [done |]. done.
Qed.

Lemma float_best_so_far_for_each problem st seen acc tasks acc' :
  float_best_so_far problem st seen acc ->
  for_each (OnFloats.consider problem st) acc tasks = Ret acc' ->
  float_best_so_far problem st (seen ++ tasks) acc'.
Proof.
  revert seen acc. induction tasks as [|t tasks IH]; intros seen acc Hacc H; simpl in H.
  - injection H as <-. by rewrite app_nil_r.
  - apply obind_Ret in H as (acc1 & Hstep & H).
    rewrite (assoc_L _ seen [t] tasks : seen ++ t :: tasks = (seen ++ [t]) ++ tasks).
    eapply IH; [| exact H]. by eapply float_best_so_far_step.
Qed.

Lemma float_select_best_spec problem st acc :
  OnFloats.select_best problem st = Ret acc ->
  float_best_so_far problem st (OnFloats.State.tasks_to_schedule st) acc.
Proof.
  intros H. apply (float_best_so_far_for_each problem st [] (None, OnFloats.inf)); [| done].
  split; [done |]. by intros t ?%elem_of_nil.
Qed.

Lemma to_float_fuel q : OnFloats.to_float q <> OutOfFuel.
Proof. unfold OnFloats.to_float. by destruct (OnFloats.of_number q). Qed.

Lemma float_candidate_fuel problem st t : OnFloats.candidate problem st t <> OutOfFuel.
Proof.
  unfold OnFloats.candidate. destruct (negb _); [done |].
  apply obind_fuel; [apply find_minimal_coalition_fuel |]. intros c _.
  destruct (truthy c); [| done].
  apply obind_fuel.
  { apply comprehension_fuel. intros r. unfold OnFloats.arrival_time.
    repeat (apply obind_fuel; [first [apply index_fuel | apply to_float_fuel] | intros ? _]).
    done. }
  intros xs _. apply obind_fuel; [by destruct xs |]. intros ? _.
  apply obind_fuel; [apply to_float_fuel | done].
Qed.

Lemma float_loop_body_fuel problem st : OnFloats.loop_body problem st <> OutOfFuel.
Proof.
  unfold OnFloats.loop_body. apply obind_fuel.
  - apply for_each_fuel. intros acc t. unfold OnFloats.consider.
    apply obind_fuel; [apply float_candidate_fuel |]. intros [c |] _; [| done].
    by destruct (OnFloats.flt _ _).
  - intros best _. destruct best.1; [| done]. apply obind_fuel; [| done].
    unfold OnFloats.commit. apply obind_fuel.
    + apply for_each_fuel. intros s r. unfold OnFloats.commit_robot.
      apply obind_fuel; [apply setitem_fuel |]. intros ? _.
      apply obind_fuel; [apply setitem_fuel |]. intros ? _.
      by destruct (_ !! _).
    + intros st1 _. apply obind_fuel; [apply list_remove_not_OutOfFuel | done].
Qed.

Lemma float_loop_body_cases problem st :
  match OnFloats.loop_body problem st with
  | Ret (Committed a st') =>
      earliest_selectable problem st (OnFloats.State.tasks_to_schedule st) a /\
      OnFloats.commit a st = Ret st'
  | Ret (Break st') =>
      none_selectable problem st (OnFloats.State.tasks_to_schedule st) /\
      st' = OnFloats.abandon st
  | Raise e =>
      (exists t, t ∈ OnFloats.State.tasks_to_schedule st /\
                 OnFloats.candidate problem st t = Raise e) \/
      (exists a, earliest_selectable problem st (OnFloats.State.tasks_to_schedule st) a /\
                 OnFloats.commit a st = Raise e)
  | OutOfFuel => False
  end.
Proof.
  pose proof (float_loop_body_fuel problem st) as Hfuel.
  unfold OnFloats.loop_body in *.
  destruct (OnFloats.select_best problem st) as [best | e |] eqn:Hbest; cbn [obind] in *.
  - apply float_select_best_spec in Hbest. unfold float_best_so_far in Hbest.
    destruct best as [[a |] earliest]; simpl in *.
    + destruct Hbest as [_ Hfirst].
      destruct (OnFloats.commit a st) as [st' | e |] eqn:Hcommit; simpl in *; eauto.
    + by destruct Hbest as [_ Hnone].
  - left. unfold OnFloats.select_best in Hbest.
    revert Hbest. generalize (@None OnFloats.Assignment.t, OnFloats.inf).
    induction (OnFloats.State.tasks_to_schedule st) as [|t tasks IH]; intros acc H;
      simpl in H; [done |].
    destruct (OnFloats.consider problem st acc t) as [acc1 | e1 |] eqn:Hstep;
      cbn [obind] in H.
    + destruct (IH _ H) as (t' & Hin & Hraise). exists t'. split; [set_solver | done].
    + injection H as ->. exists t. split; [set_solver |].
      unfold OnFloats.consider in Hstep.
      destruct (OnFloats.candidate problem st t) as [[c |] | e1 |]; cbn [obind] in Hstep;
        try done; [by destruct (OnFloats.flt _ _) | congruence].
    + done.
  - done.
Qed.




(** ** Runs on doubles *)

Ltac float_state_simpl :=
  cbn [OnFloats.State.robot_available_time OnFloats.State.robot_current_location
       OnFloats.State.tasks_to_schedule OnFloats.State.scheduled_task_ids
       OnFloats.State.task_finish_times OnFloats.State.robot_schedules
       OnFloats.State.stdout] in *.

Lemma to_float_Raise q e : OnFloats.to_float q = Raise e -> e = OverflowError.
Proof. unfold OnFloats.to_float. destruct (OnFloats.of_number q); congruence. Qed.

Lemma float_commit_robot_Ret a st r st1 :
  OnFloats.commit_robot a st r = Ret st1 ->
  exists entries,
    OnFloats.State.robot_schedules st !! Robot.id r = Some entries /\
    st1 = {| OnFloats.State.robot_available_time :=
               <[Robot.id r := OnFloats.Assignment.finish_time a]>
                 (OnFloats.State.robot_available_time st);
             OnFloats.State.robot_current_location :=
               <[Robot.id r := Task.id (OnFloats.Assignment.task a)]>
                 (OnFloats.State.robot_current_location st);
             OnFloats.State.tasks_to_schedule := OnFloats.State.tasks_to_schedule st;
             OnFloats.State.scheduled_task_ids := OnFloats.State.scheduled_task_ids st;
             OnFloats.State.task_finish_times := OnFloats.State.task_finish_times st;
             OnFloats.State.robot_schedules :=
               <[Robot.id r := entries ++ [float_entry_of a]]>
                 (OnFloats.State.robot_schedules st);
             OnFloats.State.stdout := OnFloats.State.stdout st |}.
Proof.
  unfold OnFloats.commit_robot. intros H.
  apply obind_Ret in H as (free & [Hlt1 ->]%setitem_Ret & H).
  apply obind_Ret in H as (here & [Hlt2 ->]%setitem_Ret & H).
  destruct (OnFloats.State.robot_schedules st !! Robot.id r) as [entries |] eqn:Hs; [| done].
  injection H as <-. by exists entries.
Qed.

Lemma float_commit_robots_returns a c st :
  (forall r, r ∈ c ->
     Robot.id r < length (OnFloats.State.robot_available_time st) /\
     Robot.id r < length (OnFloats.State.robot_current_location st) /\
     is_Some (OnFloats.State.robot_schedules st !! Robot.id r)) ->
  exists st1, for_each (OnFloats.commit_robot a) st c = Ret st1.
Proof.
  revert st. induction c as [|r c IH]; intros st Hall; simpl; [eauto |].
  destruct (Hall r) as (Ha & Hl & [entries Hentries]); [set_solver |].
  unfold OnFloats.commit_robot at 1. unfold setitem.
  rewrite !decide_True by done. cbn [obind]. rewrite Hentries.
  apply IH. intros r' Hr'. destruct (Hall r') as (Ha' & Hl' & Hs'); [set_solver |].
  simpl. rewrite !length_insert. split_and!; [done.. |].
  destruct (decide (Robot.id r = Robot.id r')) as [<- | Hne].
  - rewrite lookup_insert_eq. eauto.
  - by rewrite lookup_insert_ne.
Qed.

Lemma float_commit_robots_effect a c st st1 :
  NoDup (Robot.id <$> c) ->
  for_each (OnFloats.commit_robot a) st c = Ret st1 ->
  length (OnFloats.State.robot_available_time st1)
    = length (OnFloats.State.robot_available_time st) /\
  length (OnFloats.State.robot_current_location st1)
    = length (OnFloats.State.robot_current_location st) /\
  OnFloats.State.tasks_to_schedule st1 = OnFloats.State.tasks_to_schedule st /\
  OnFloats.State.scheduled_task_ids st1 = OnFloats.State.scheduled_task_ids st /\
  OnFloats.State.task_finish_times st1 = OnFloats.State.task_finish_times st /\
  OnFloats.State.stdout st1 = OnFloats.State.stdout st /\
  (forall i, i ∈ Robot.id <$> c ->
     OnFloats.State.robot_available_time st1 !! i = Some (OnFloats.Assignment.finish_time a) /\
     OnFloats.State.robot_current_location st1 !! i
       = Some (Task.id (OnFloats.Assignment.task a)) /\
     exists es, OnFloats.State.robot_schedules st !! i = Some es /\
                OnFloats.State.robot_schedules st1 !! i = Some (es ++ [float_entry_of a])) /\
  (forall i, i ∉ Robot.id <$> c ->
     OnFloats.State.robot_available_time st1 !! i
       = OnFloats.State.robot_available_time st !! i /\
     OnFloats.State.robot_current_location st1 !! i
       = OnFloats.State.robot_current_location st !! i /\
     OnFloats.State.robot_schedules st1 !! i = OnFloats.State.robot_schedules st !! i).
Proof.
  revert st. induction c as [|r c IH]; intros st Hnd; simpl.
  - intros [= <-]. split_and!; try done. by intros i ?%elem_of_nil.
  - intros H. apply obind_Ret in H as (st0 & Hr & H).
    apply NoDup_cons in Hnd as [Hr_fresh Hnd].
    pose proof Hr as Hr'. unfold OnFloats.commit_robot in Hr'.
    apply obind_Ret in Hr' as (free & [Hlt1 _]%setitem_Ret & Hr').
    apply obind_Ret in Hr' as (here & [Hlt2 _]%setitem_Ret & _).
    apply float_commit_robot_Ret in Hr as (entries & Hentries & ->).
    destruct (IH _ Hnd H) as (Hl1 & Hl2 & Ht & Hs & Hf & Ho & Hin & Hout); clear IH H.
    float_state_simpl.
    rewrite length_insert in Hl1. rewrite length_insert in Hl2.
    split_and!; try done.
    + intros i [-> | Hi]%elem_of_cons.
      * destruct (Hout _ Hr_fresh) as (Ha & Hc & Hsch).
        rewrite Ha, Hc, Hsch, !list_lookup_insert_eq, lookup_insert_eq by done.
        split_and!; [done.. |]. by exists entries.
      * destruct (Hin _ Hi) as (Ha & Hc & es & Hes & Hes').
        assert (Robot.id r <> i) by (intros <-; done).
        rewrite lookup_insert_ne in Hes by done.
        split_and!; [done.. |]. by exists es.
    + intros i Hi. apply not_elem_of_cons in Hi as [Hne Hi].
      destruct (Hout _ Hi) as (Ha & Hc & Hsch).
      rewrite Ha, Hc, Hsch, !list_lookup_insert_ne, lookup_insert_ne by done. done.
Qed.

Lemma float_abandon_fields st :
  OnFloats.State.robot_available_time (OnFloats.abandon st)
    = OnFloats.State.robot_available_time st /\
  OnFloats.State.robot_current_location (OnFloats.abandon st)
    = OnFloats.State.robot_current_location st /\
  OnFloats.State.tasks_to_schedule (OnFloats.abandon st)
    = OnFloats.State.tasks_to_schedule st /\
  OnFloats.State.scheduled_task_ids (OnFloats.abandon st)
    = OnFloats.State.scheduled_task_ids st /\
  OnFloats.State.robot_schedules (OnFloats.abandon st)
    = OnFloats.State.robot_schedules st /\
  (OnFloats.State.tasks_to_schedule st <> [] ->
   OnFloats.State.stdout (OnFloats.abandon st) = OnFloats.State.stdout st ++ [warning]).
Proof.
  unfold OnFloats.abandon.
  destruct (OnFloats.State.tasks_to_schedule st) eqn:E; split_and!; done.
Qed.

Lemma float_invariant_abandon problem st :
  float_invariant problem st -> float_invariant problem (OnFloats.abandon st).
Proof.
  destruct (float_abandon_fields st) as (Ha & Hl & Ht & Hi & Hs & _).
  intros [? ? ? ? ? ? ? ?]. split; rewrite ?Ha, ?Hl, ?Ht, ?Hi, ?Hs; done.
Qed.

Lemma float_invariant_initial problem :
  float_invariant problem (OnFloats.initial_state problem).
Proof.
  assert (Hkeys : forall i,
            (list_to_map ((fun i => (i, [])) <$> seq 0 (ProblemInstance.num_robots problem))
               : gmap nat (list OnFloats.Entry.t)) !! i
            = if decide (i < ProblemInstance.num_robots problem) then Some [] else None).
  { intros i. case_decide as Hi.
    - apply elem_of_list_to_map_1.
      + rewrite <- list_fmap_compose. simpl. rewrite list_fmap_id. apply NoDup_seq.
      + apply list_elem_of_fmap. exists i. split; [done |]. apply elem_of_seq. lia.
    - apply not_elem_of_list_to_map_1. rewrite <- list_fmap_compose. simpl.
      rewrite list_fmap_id. rewrite elem_of_seq. lia. }
  split; simpl.
  - by rewrite length_replicate.
  - by rewrite length_replicate.
  - intros i. rewrite Hkeys. case_decide as Hi; split; intros Hs; try done; try lia; by destruct Hs.
  - done.
  - split; [set_solver | auto].
  - intros i entries. rewrite Hkeys. case_decide; [| done]. intros [= <-].
    rewrite !lookup_replicate_2 by done. done.
  - intros i entries e. rewrite Hkeys. case_decide; [| done]. intros [= <-].
    by intros ?%elem_of_nil.
  - intros i entries. rewrite Hkeys. case_decide; [| done]. intros [= <-].
    intros k e Hk. by rewrite lookup_nil in Hk.
Qed.

Lemma float_last_end_snoc es e : float_last_end (es ++ [e]) = OnFloats.Entry.end_time e.
Proof. unfold float_last_end. by rewrite last_snoc. Qed.

Lemma float_last_task_snoc es e : float_last_task (es ++ [e]) = OnFloats.Entry.task e.
Proof. unfold float_last_task. by rewrite last_snoc. Qed.

Lemma float_locations problem st i here :
  float_invariant problem st ->
  i < ProblemInstance.num_robots problem ->
  OnFloats.State.robot_current_location st !! i = Some here ->
  here = 0 \/ here ∈ Task.id <$> ProblemInstance.get_real_tasks problem.
Proof.
  intros Hinv Hi Hhere.
  destruct (proj2 (fi_schedules _ _ Hinv i) Hi) as [entries Hentries].
  destruct (fi_last _ _ Hinv _ _ Hentries) as [_ Hloc].
  rewrite Hloc in Hhere. injection Hhere as <-. unfold float_last_task.
  destruct (last entries) as [e |] eqn:Hlast; simpl; [| by left]. right.
  apply (fi_tasks _ _ Hinv _ _ e Hentries).
  apply last_Some in Hlast as [es ->]. set_solver.
Qed.

Lemma float_arrival_cases problem st t r :
  well_dimensioned problem ->
  float_invariant problem st ->
  t ∈ ProblemInstance.get_real_tasks problem ->
  r ∈ ProblemInstance.robots problem ->
  match OnFloats.arrival_time problem st t r with
  | Ret _ => True
  | Raise e => e = OverflowError /\ unconvertible_time problem
  | OutOfFuel => False
  end.
Proof.
  intros [Hids _ Htravel] Hinv Ht Hr.
  pose proof (roster_member_id _ _ Hids Hr) as Hid.
  destruct (lookup_lt_is_Some_2 (OnFloats.State.robot_available_time st) (Robot.id r))
    as [free Hfree]; [by rewrite (fi_available _ _ Hinv) |].
  destruct (lookup_lt_is_Some_2 (OnFloats.State.robot_current_location st) (Robot.id r))
    as [here Hhere]; [by rewrite (fi_location _ _ Hinv) |].
  assert (Hdefined : travel_defined problem here (Task.id t)).
  { rewrite Forall_forall in Htravel.
    assert (Hrow : here ∈ 0 :: (Task.id <$> ProblemInstance.get_real_tasks problem)).
    { destruct (float_locations _ _ _ _ Hinv Hid Hhere) as [-> | Hreal]; set_solver. }
    specialize (Htravel here Hrow). rewrite Forall_forall in Htravel. by apply Htravel. }
  unfold travel_defined in Hdefined.
  destruct (ProblemInstance.travel_times problem !! here) as [row |] eqn:Hrow; [| done].
  destruct (lookup_lt_is_Some_2 row (Task.id t) Hdefined) as [travel Htravel'].
  unfold OnFloats.arrival_time, index. rewrite Hfree; cbn [obind]. rewrite Hhere; cbn [obind].
  rewrite Hrow; cbn [obind]. rewrite Htravel'; cbn [obind].
  destruct (OnFloats.to_float travel) as [travel' | e |] eqn:Hconv; cbn [obind]; [done | |].
  - split; [by eapply to_float_Raise |]. left. exists row, travel.
    rewrite (to_float_Raise _ _ Hconv) in Hconv.
    split_and!; [by eapply list_elem_of_lookup_2 | by eapply list_elem_of_lookup_2 | done].
  - by apply to_float_fuel in Hconv.
Qed.

Lemma float_candidate_cases problem st t :
  well_dimensioned problem ->
  float_invariant problem st ->
  t ∈ ProblemInstance.get_real_tasks problem ->
  match OnFloats.candidate problem st t with
  | Ret _ => True
  | Raise e => e = OverflowError /\ unconvertible_time problem
  | OutOfFuel => False
  end.
Proof.
  intros Hdim Hinv Ht. pose proof (dim_skills _ Hdim) as Hskills.
  unfold OnFloats.candidate. destruct (OnFloats.all_scheduled _ _); cbn [negb]; [| done].
  rewrite Forall_forall in Hskills.
  destruct (find_minimal_coalition_returns t (ProblemInstance.robots problem) (Hskills t Ht))
    as [res Hres].
  rewrite Hres. cbn [obind]. destruct (truthy res) eqn:Htruthy; [| done].
  destruct res as [[|r0 members] |]; try done. cbv zeta. cbn [default]. unfold id.
  destruct (find_minimal_coalition_members _ _ _ Hres) as [rest Hperm].
  assert (Hmembers : forall r, r ∈ r0 :: members -> r ∈ ProblemInstance.robots problem).
  { intros r Hr. rewrite <- Hperm. apply elem_of_app. by left. }
  pose proof (comprehension_cases (OnFloats.arrival_time problem st t) (r0 :: members)) as Hc.
  destruct (comprehension _ _) as [arrivals | e |]; cbn [obind].
  - apply Forall2_length in Hc. destruct arrivals as [|x arrivals]; [done |].
    cbn [OnFloats.max_list obind].
    destruct (OnFloats.to_float (Task.execution_time t)) as [exec | e |] eqn:Hconv;
      cbn [obind]; [done | |].
    + split; [by eapply to_float_Raise |]. right. exists t.
      by rewrite (to_float_Raise _ _ Hconv) in Hconv.
    + by apply to_float_fuel in Hconv.
  - destruct Hc as (r & Hr & Hraise).
    pose proof (float_arrival_cases _ st t r Hdim Hinv Ht (Hmembers r Hr)) as Ha.
    by rewrite Hraise in Ha.
  - destruct Hc as (r & Hr & Hraise).
    pose proof (float_arrival_cases _ st t r Hdim Hinv Ht (Hmembers r Hr)) as Ha.
    by rewrite Hraise in Ha.
Qed.

Lemma fmax_not_below_item arrivals ready pred x :
  float_max_of arrivals ready -> x ∈ arrivals ->
  OnFloats.flt (OnFloats.fmax ready pred) x = false.
Proof.
  intros [_ Hmax] Hx. specialize (Hmax x Hx). unfold OnFloats.fmax.
  destruct (OnFloats.flt ready pred) eqn:Hlt; [| done].
  destruct (OnFloats.flt pred x) eqn:Hpx; [| done].
  rewrite <- Hmax. symmetry. by eapply flt_trans.
Qed.

Lemma float_travel_respected_snoc problem es e row travel travel' :
  float_travel_respected problem es ->
  ProblemInstance.travel_times problem !! float_last_task es = Some row ->
  row !! OnFloats.Entry.task e = Some travel ->
  OnFloats.to_float travel = Ret travel' ->
  OnFloats.flt (OnFloats.Entry.start_time e) (OnFloats.fadd (float_last_end es) travel') = false ->
  float_travel_respected problem (es ++ [e]).
Proof.
  intros Hes Hrow Htravel Hconv Hle k e' Hk.
  destruct (decide (k < length es)%nat) as [Hlt | Hge].
  - rewrite lookup_app_l in Hk by done.
    rewrite take_app_le by lia. by apply Hes.
  - rewrite lookup_app_r in Hk by lia.
    apply list_lookup_singleton_Some in Hk as [Hk <-].
    assert (k = length es) as -> by lia.
    rewrite take_app_length. exists row, travel, travel'. split_and!; done.
Qed.

Lemma float_commit_stdout a st st' :
  OnFloats.commit a st = Ret st' -> OnFloats.State.stdout st' = OnFloats.State.stdout st.
Proof.
  unfold OnFloats.commit. intros H. apply obind_Ret in H as (st1 & Hst1 & H).
  apply obind_Ret in H as (remaining & _ & H). injection H as <-. float_state_simpl.
  clear remaining. revert st Hst1.
  induction (OnFloats.Assignment.coalition a) as [|r c IH]; intros st; simpl.
  - by intros [= <-].
  - intros H. apply obind_Ret in H as (st0 & Hr & H).
    apply float_commit_robot_Ret in Hr as (entries & _ & ->). by rewrite (IH _ H).
Qed.

Lemma float_commit_invariant problem st a :
  ids_are_positions (ProblemInstance.robots problem) ->
  float_invariant problem st ->
  earliest_selectable problem st (OnFloats.State.tasks_to_schedule st) a ->
  exists st',
    OnFloats.commit a st = Ret st' /\
    float_invariant problem st' /\
    length (OnFloats.State.tasks_to_schedule st)
      = S (length (OnFloats.State.tasks_to_schedule st')).
Proof.
  intros Hids Hinv (_ & before & after & Htasks & Hcand & _).
  apply float_candidate_Some in Hcand
    as (_ & Hfind & Hne & _ & arrivals & ready & exec & Harr & Hready & Hstart & _).
  destruct (find_minimal_coalition_members _ _ _ Hfind) as [rest Hperm].
  assert (Hmembers : forall r, r ∈ OnFloats.Assignment.coalition a ->
                               r ∈ ProblemInstance.robots problem).
  { intros r Hr. rewrite <- Hperm. apply elem_of_app. by left. }
  assert (Hnodup : NoDup (Robot.id <$> OnFloats.Assignment.coalition a)).
  { pose proof (ids_are_positions_NoDup _ Hids) as Hnd.
    rewrite <- Hperm, fmap_app in Hnd. by apply NoDup_app in Hnd as [? _]. }
  assert (Hreal : OnFloats.Assignment.task a ∈ ProblemInstance.get_real_tasks problem).
  { apply (fi_pending _ _ Hinv). rewrite Htasks. set_solver. }
  destruct (float_commit_robots_returns a (OnFloats.Assignment.coalition a) st) as [st1 Hst1].
  { intros r Hr. pose proof (roster_member_id _ _ Hids (Hmembers r Hr)) as Hid.
    rewrite (fi_available _ _ Hinv), (fi_location _ _ Hinv).
    split_and!; [done.. |]. by apply (fi_schedules _ _ Hinv). }
  destruct (float_commit_robots_effect _ _ _ _ Hnodup Hst1)
    as (Hl1 & Hl2 & Hsame & Hsched & _ & Hout & Hin & Hnot).
  destruct (list_remove_elem_of (OnFloats.Assignment.task a)
              (OnFloats.State.tasks_to_schedule st1)) as [remaining Hrem].
  { rewrite Hsame, Htasks. set_solver. }
  pose proof (list_remove_Permutation _ _ _ Hrem) as Hp. rewrite Hsame in Hp.
  eexists. unfold OnFloats.commit. rewrite Hst1. cbn [obind]. rewrite Hrem. cbn [obind].
  split; [reflexivity |]. split.
  - destruct Hinv as [Ha Hl Hkeys Hpending [Hzero Hdone] Hlast Htasks' Htravel].
    assert (Hgrows : forall i entries e,
              OnFloats.State.robot_schedules st !! i = Some entries -> e ∈ entries ->
              exists entries', OnFloats.State.robot_schedules st1 !! i = Some entries' /\
                               e ∈ entries').
    { intros i entries e Hs He.
      destruct (decide (i ∈ Robot.id <$> OnFloats.Assignment.coalition a)) as [Hi | Hi].
      - destruct (Hin i Hi) as (_ & _ & es & Hes & Hes'). rewrite Hs in Hes.
        injection Hes as <-. exists (entries ++ [float_entry_of a]). split; [done | set_solver].
      - destruct (Hnot i Hi) as (_ & _ & Hs'). exists entries. by rewrite Hs'. }
    split; float_state_simpl.
    + by rewrite Hl1.
    + by rewrite Hl2.
    + intros i. destruct (decide (i ∈ Robot.id <$> OnFloats.Assignment.coalition a))
        as [Hi | Hi].
      * destruct (Hin i Hi) as (_ & _ & es & Hes & ->). rewrite <- Hkeys, Hes.
        split; eauto.
      * destruct (Hnot i Hi) as (_ & _ & ->). apply Hkeys.
    + intros t Ht. apply Hpending. rewrite Hp. set_solver.
    + split; [set_solver |]. intros t Ht. destruct (Hdone t Ht) as [Hpend | [Hid Hentry]].
      * rewrite Hp in Hpend. apply elem_of_cons in Hpend as [-> | Hpend]; [| by left].
        right. split; [set_solver |].
        destruct (OnFloats.Assignment.coalition a) as [|r c] eqn:Hc; [done |].
        destruct (Hin (Robot.id r)) as (_ & _ & es & _ & Hes'); [set_solver |].
        exists (Robot.id r), (es ++ [float_entry_of a]), (float_entry_of a).
        split_and!; [done | set_solver | done].
      * right. split; [rewrite Hsched; set_solver |].
        destruct Hentry as (i & entries & e & Hs & He & Hq).
        destruct (Hgrows _ _ _ Hs He) as (entries' & Hs' & He'). by exists i, entries', e.
    + intros i entries Hentries'.
      destruct (decide (i ∈ Robot.id <$> OnFloats.Assignment.coalition a)) as [Hi | Hi].
      * destruct (Hin i Hi) as (Hav & Hloc & es & Hes & Hes'). rewrite Hes' in Hentries'.
        injection Hentries' as <-.
        by rewrite float_last_end_snoc, float_last_task_snoc.
      * destruct (Hnot i Hi) as (-> & -> & Hs). rewrite Hs in Hentries'. by apply Hlast.
    + intros i entries e Hentries' He.
      destruct (decide (i ∈ Robot.id <$> OnFloats.Assignment.coalition a)) as [Hi | Hi].
      * destruct (Hin i Hi) as (_ & _ & es & Hes & Hes'). rewrite Hes' in Hentries'.
        injection Hentries' as <-.
        apply elem_of_app in He as [He | ->%list_elem_of_singleton]; [by eapply Htasks' |].
        simpl. by apply list_elem_of_fmap_2.
      * destruct (Hnot i Hi) as (_ & _ & Hs). rewrite Hs in Hentries'. by eapply Htasks'.
    + intros i entries Hentries'.
      destruct (decide (i ∈ Robot.id <$> OnFloats.Assignment.coalition a)) as [Hi | Hi].
      * destruct (Hin i Hi) as (_ & _ & es & Hes & Hes'). rewrite Hes' in Hentries'.
        injection Hentries' as <-.
        apply list_elem_of_fmap in Hi as (r & -> & Hr).
        apply list_elem_of_lookup in Hr as [k Hk].
        destruct (Forall2_lookup_l _ _ _ _ _ Harr Hk)
          as (x & Hx & free & here & row & travel & travel' &
              Hfree & Hhere & Hrow & Htravel'' & Hconv & ->).
        destruct (Hlast _ _ Hes) as [Hav Hloc].
        rewrite Hav in Hfree. rewrite Hloc in Hhere. simplify_eq.
        eapply float_travel_respected_snoc; [by eapply Htravel | done.. |].
        simpl. rewrite Hstart. eapply fmax_not_below_item; [done |].
        by eapply list_elem_of_lookup_2.
      * destruct (Hnot i Hi) as (_ & _ & Hs). rewrite Hs in Hentries'. by eapply Htravel.
  - float_state_simpl. rewrite Hp. done.
Qed.

(** One round from a state that satisfies the invariant: under the
    constructor's numbering of the robots the commit raises nothing. *)
Lemma float_round problem st :
  ids_are_positions (ProblemInstance.robots problem) ->
  float_invariant problem st ->
  match OnFloats.loop_body problem st with
  | Ret (Committed a st') =>
      float_invariant problem st' /\
      length (OnFloats.State.tasks_to_schedule st)
        = S (length (OnFloats.State.tasks_to_schedule st')) /\
      OnFloats.State.stdout st' = OnFloats.State.stdout st
  | Ret (Break st') =>
      none_selectable problem st (OnFloats.State.tasks_to_schedule st) /\
      st' = OnFloats.abandon st
  | Raise e =>
      exists t, t ∈ OnFloats.State.tasks_to_schedule st /\
                OnFloats.candidate problem st t = Raise e
  | OutOfFuel => False
  end.
Proof.
  intros Hids Hinv. pose proof (float_loop_body_cases problem st) as H.
  destruct (OnFloats.loop_body problem st) as [[a st' | st'] | e |]; [| done | | done].
  - destruct H as [Hfirst Hcommit].
    destruct (float_commit_invariant _ _ _ Hids Hinv Hfirst) as (st'' & Hc & Hinv' & Hlen).
    rewrite Hcommit in Hc. injection Hc as <-.
    split_and!; [done.. |]. by eapply float_commit_stdout.
  - destruct H as [(t & Ht & Hraise) | (a & Hfirst & Hraise)]; [eauto |].
    destruct (float_commit_invariant _ _ _ Hids Hinv Hfirst) as (st'' & Hc & _).
    congruence.
Qed.

(** How the loop on doubles is left from a state [st] that satisfies the
    invariant, with fuel for every pending task. *)
Lemma float_main_loop_cases problem fuel st :
  ids_are_positions (ProblemInstance.robots problem) ->
  float_invariant problem st ->
  length (OnFloats.State.tasks_to_schedule st) <= fuel ->
  match OnFloats.main_loop fuel problem st with
  | Ret st' =>
      float_invariant problem st' /\
      ((OnFloats.State.tasks_to_schedule st' = [] /\
        OnFloats.State.stdout st' = OnFloats.State.stdout st) \/
       (exists st0,
          float_invariant problem st0 /\
          OnFloats.State.tasks_to_schedule st0 <> [] /\
          none_selectable problem st0 (OnFloats.State.tasks_to_schedule st0) /\
          st' = OnFloats.abandon st0 /\
          OnFloats.State.stdout st' = OnFloats.State.stdout st ++ [warning]))
  | Raise e =>
      exists st0 t, float_invariant problem st0 /\
                    t ∈ OnFloats.State.tasks_to_schedule st0 /\
                    OnFloats.candidate problem st0 t = Raise e
  | OutOfFuel => False
  end.
Proof.
  intros Hids. revert st. induction fuel as [|fuel IH]; intros st Hinv Hfuel; simpl.
  - destruct (OnFloats.State.tasks_to_schedule st) eqn:E; [| simpl in Hfuel; lia].
    split; [done |]. left. done.
  - destruct (OnFloats.State.tasks_to_schedule st) as [|t0 pending] eqn:E.
    { split; [done |]. left. done. }
    pose proof (float_round _ _ Hids Hinv) as Hround.
    destruct (OnFloats.loop_body problem st) as [[a st' | st'] | e |]; cbn [obind];
      [| | | done].
    + destruct Hround as (Hinv' & Hlen & Hout). rewrite E in Hlen. simpl in Hlen, Hfuel.
      specialize (IH st' Hinv' ltac:(lia)).
      destruct (OnFloats.main_loop fuel problem st') as [st'' | e |]; [| done | done].
      by rewrite Hout in IH.
    + destruct Hround as [Hnone ->]. split; [by apply float_invariant_abandon |].
      right. exists st.
      destruct (float_abandon_fields st) as (_ & _ & _ & _ & _ & Hw).
      split_and!; [done | by rewrite E | done | done | apply Hw; by rewrite E].
    + destruct Hround as (t & Ht & Hraise). exists st, t. split_and!; [done | | done].
      exact Ht.
Qed.

(** The exit of the loop on doubles, whatever the instance. *)
Lemma float_main_loop_exit problem fuel st st' :
  OnFloats.main_loop fuel problem st = Ret st' ->
  (OnFloats.State.tasks_to_schedule st' = [] /\
   OnFloats.State.stdout st' = OnFloats.State.stdout st) \/
  (exists st0,
     OnFloats.State.tasks_to_schedule st0 <> [] /\
     none_selectable problem st0 (OnFloats.State.tasks_to_schedule st0) /\
     st' = OnFloats.abandon st0 /\
     OnFloats.State.stdout st' = OnFloats.State.stdout st ++ [warning]).
Proof.
  revert st. induction fuel as [|fuel IH]; intros st; simpl.
  - destruct (OnFloats.State.tasks_to_schedule st) eqn:E; [| done].
    intros [= <-]. by left.
  - destruct (OnFloats.State.tasks_to_schedule st) as [|t0 pending] eqn:E.
    { intros [= <-]. by left. }
    pose proof (float_loop_body_cases problem st) as Hround.
    destruct (OnFloats.loop_body problem st) as [[a st1 | st1] | e |]; cbn [obind];
      [| | done | done].
    + intros H. destruct Hround as [_ Hcommit].
      apply float_commit_stdout in Hcommit. rewrite <- Hcommit. by apply IH.
    + intros [= <-]. destruct Hround as [Hnone ->]. right. exists st.
      destruct (float_abandon_fields st) as (_ & _ & _ & _ & _ & Hw).
      split_and!; [by rewrite E | done | done | apply Hw; by rewrite E].
Qed.

Lemma float_makespan_of_returns xs : exists m, OnFloats.makespan_of xs = Ret m.
Proof. destruct xs; simpl; eauto. Qed.

Lemma float_greedy_heuristic_of_run problem st :
  OnFloats.run problem = Ret st ->
  exists res,
    OnFloats.greedy_heuristic problem = Ret res /\
    OnFloats.Result.n_tasks res = length (ProblemInstance.get_real_tasks problem) /\
    OnFloats.Result.n_robots res = ProblemInstance.num_robots problem /\
    OnFloats.Result.robot_schedules res = OnFloats.State.robot_schedules st.
Proof.
  intros Hrun. unfold OnFloats.greedy_heuristic, OnFloats.result_of. rewrite Hrun. cbn [obind].
  destruct (float_makespan_of_returns (OnFloats.State.robot_available_time st)) as [m ->].
  cbn [obind]. eexists. split; [reflexivity |]. done.
Qed.

Lemma float_greedy_heuristic_Ret problem res :
  OnFloats.greedy_heuristic problem = Ret res ->
  exists st, OnFloats.run problem = Ret st /\
             OnFloats.Result.robot_schedules res = OnFloats.State.robot_schedules st.
Proof.
  unfold OnFloats.greedy_heuristic, OnFloats.result_of. intros H.
  apply obind_Ret in H as (st & Hrun & H). apply obind_Ret in H as (m & _ & H).
  injection H as <-. eauto.
Qed.

(** The run on doubles of an instance whose dimensions fit: it ends, and
    the one exception it can raise is the [OverflowError] of an [int] time
    beyond the range of the doubles. *)
Lemma float_run_cases problem :
  well_dimensioned problem ->
  match OnFloats.run problem with
  | Ret st =>
      float_invariant problem st /\
      ((OnFloats.State.tasks_to_schedule st = [] /\ OnFloats.State.stdout st = []) \/
       (exists st0,
          float_invariant problem st0 /\
          OnFloats.State.tasks_to_schedule st0 <> [] /\
          none_selectable problem st0 (OnFloats.State.tasks_to_schedule st0) /\
          st = OnFloats.abandon st0 /\
          OnFloats.State.stdout st = [warning]))
  | Raise e => e = OverflowError /\ unconvertible_time problem
  | OutOfFuel => False
  end.
Proof.
  intros Hdim.
  pose proof (float_main_loop_cases problem (length (ProblemInstance.get_real_tasks problem))
                (OnFloats.initial_state problem) (dim_robot_ids _ Hdim)
                (float_invariant_initial problem) (le_n _)) as H.
  unfold OnFloats.run.
  destruct (OnFloats.main_loop _ problem _) as [st | e |]; [done | | done].
  destruct H as (st0 & t & Hinv & Ht & Hraise).
  pose proof (float_candidate_cases _ st0 t Hdim Hinv (fi_pending _ _ Hinv t Ht)) as Hc.
  by rewrite Hraise in Hc.
Qed.

(** ** What a run on doubles returns *)

(** X10. The warning is printed exactly when the loop is left with tasks
    pending, and then once.  A run of the scheduler, in the arithmetic of
    doubles, that returns ends in one of two ways: no task is pending and
    nothing was printed; or the loop was left through its [break] with some
    task pending, the warning is the only line printed, and in the state
    that was reached no pending task had a candidate with a finish time
    below [float('inf')]. *)
Theorem warning_printed_iff_tasks_left problem st :
  OnFloats.run problem = Ret st ->
  (OnFloats.State.tasks_to_schedule st = [] /\ OnFloats.State.stdout st = []) \/
  (OnFloats.State.tasks_to_schedule st <> [] /\ OnFloats.State.stdout st = [warning] /\
   exists st0, st = OnFloats.abandon st0 /\
               none_selectable problem st0 (OnFloats.State.tasks_to_schedule st)).
Proof.
  intros Hrun. apply float_main_loop_exit in Hrun as [Hdone | (st0 & Hne & Hnone & -> & Hout)].
  - by left.
  - right. destruct (float_abandon_fields st0) as (_ & _ & Hsame & _).
    rewrite Hsame. split_and!; [done | done |]. by exists st0.
Qed.

Lemma warning_printed_iff_tasks_left_witness :
  (exists st,
     OnFloats.run overflow_problem = Ret st /\
     OnFloats.State.stdout st = [warning] /\
     ((OnFloats.State.tasks_to_schedule st = [] /\ OnFloats.State.stdout st = []) \/
      (OnFloats.State.tasks_to_schedule st <> [] /\ OnFloats.State.stdout st = [warning] /\
       exists st0, st = OnFloats.abandon st0 /\
                   none_selectable overflow_problem st0 (OnFloats.State.tasks_to_schedule st)))) /\
  (exists st,
     OnFloats.run chain_problem = Ret st /\
     OnFloats.State.stdout st = [] /\
     ((OnFloats.State.tasks_to_schedule st = [] /\ OnFloats.State.stdout st = []) \/
      (OnFloats.State.tasks_to_schedule st <> [] /\ OnFloats.State.stdout st = [warning] /\
       exists st0, st = OnFloats.abandon st0 /\
                   none_selectable chain_problem st0 (OnFloats.State.tasks_to_schedule st)))).
Proof.
  split.
  - assert (Hout : match OnFloats.run overflow_problem with
                   | Ret st => OnFloats.State.stdout st = [warning]
                   | _ => False
                   end) by (vm_compute; reflexivity).
    destruct (OnFloats.run overflow_problem) as [st | e |] eqn:E; [| destruct Hout ..].
    exists st. split; [reflexivity |]. split; [exact Hout |].
    apply (warning_printed_iff_tasks_left overflow_problem st). exact E.
  - assert (Hout : match OnFloats.run chain_problem with
                   | Ret st => OnFloats.State.stdout st = []
                   | _ => False
                   end) by (vm_compute; reflexivity).
    destruct (OnFloats.run chain_problem) as [st | e |] eqn:E; [| destruct Hout ..].
    exists st. split; [reflexivity |]. split; [exact Hout |].
    apply (warning_printed_iff_tasks_left chain_problem st). exact E.
Defined.

(** X12. Under the constructor's numbering of the robots, every returned
    schedule leaves the robot the time to travel, in the arithmetic of the
    code: no entry starts before the double that the code computes as the
    end of the entry before it ([0.0] for the first entry) plus the travel
    time from that entry's task (task 0 for the first entry) to its own.
    The exact sum can be larger than the start by the rounding of that
    addition: a robot that travels [9007199254740993] from task 0 starts
    at [9007199254740992.0]. *)
Theorem schedules_leave_time_to_travel problem res i entries :
  ids_are_positions (ProblemInstance.robots problem) ->
  OnFloats.greedy_heuristic problem = Ret res ->
  OnFloats.Result.robot_schedules res !! i = Some entries ->
  float_travel_respected problem entries.
Proof.
  intros Hids Hres Hentries.
  apply float_greedy_heuristic_Ret in Hres as (st & Hrun & Hs). rewrite Hs in Hentries.
  pose proof (float_main_loop_cases problem (length (ProblemInstance.get_real_tasks problem))
                (OnFloats.initial_state problem) Hids
                (float_invariant_initial problem) (le_n _)) as H.
  unfold OnFloats.run in Hrun. rewrite Hrun in H. destruct H as [Hinv _].
  by eapply fi_travel.
Qed.

Lemma schedules_leave_time_to_travel_witness :
  ids_are_positions (ProblemInstance.robots rounding_problem) /\
  exists res,
    OnFloats.greedy_heuristic rounding_problem = Ret res /\
    OnFloats.Result.robot_schedules res !! 0
      = Some [OnFloats.Entry.mk 1 (S754_finite false 4503599627370496 1)
                                  (S754_finite false 4503599627370496 1)] /\
    float_travel_respected rounding_problem
      [OnFloats.Entry.mk 1 (S754_finite false 4503599627370496 1)
                           (S754_finite false 4503599627370496 1)].
Proof.
  assert (Hids : ids_are_positions (ProblemInstance.robots rounding_problem)).
  { intros [|i] r Hr; simpl in Hr; by simplify_eq. }
  split; [exact Hids |].
  assert (Hs : match OnFloats.greedy_heuristic rounding_problem with
               | Ret res =>
                   OnFloats.Result.robot_schedules res !! 0
                   = Some [OnFloats.Entry.mk 1 (S754_finite false 4503599627370496 1)
                                               (S754_finite false 4503599627370496 1)]
               | _ => False
               end) by (vm_compute; reflexivity).
  destruct (OnFloats.greedy_heuristic rounding_problem) as [res | e |] eqn:E;
    [| destruct Hs ..].
  exists res. split; [reflexivity |]. split; [exact Hs |].
  apply (schedules_leave_time_to_travel rounding_problem res 0 _ Hids E Hs).
Defined.

(** X17. On an instance whose dimensions fit (robot ids are roster
    positions, no skill vector is shorter than a requirement vector, the
    travel matrix has an entry from task 0 and from each real task to each
    real task) [greedy_heuristic] ends, and it raises no exception but one:
    it returns a record, or it raises the [OverflowError] of [float + int]
    and a travel time or the execution time of a real task is an [int]
    beyond the range of the doubles. *)
Theorem greedy_heuristic_returns_unless_a_time_overflows problem :
  well_dimensioned problem ->
  (exists res, OnFloats.greedy_heuristic problem = Ret res) \/
  (OnFloats.greedy_heuristic problem = Raise OverflowError /\ unconvertible_time problem).
Proof.
  intros Hdim. pose proof (float_run_cases problem Hdim) as H.
  destruct (OnFloats.run problem) as [st | e |] eqn:Hrun; [| | done].
  - left. destruct (float_greedy_heuristic_of_run _ _ Hrun) as (res & Hres & _). eauto.
  - right. destruct H as [-> Hbig]. split; [| done].
    unfold OnFloats.greedy_heuristic. by rewrite Hrun.
Qed.

Lemma greedy_heuristic_returns_unless_a_time_overflows_witness :
  (well_dimensioned tie_problem /\
   ((exists res, OnFloats.greedy_heuristic tie_problem = Ret res) \/
    (OnFloats.greedy_heuristic tie_problem = Raise OverflowError /\
     unconvertible_time tie_problem))) /\
  (well_dimensioned huge_problem /\
   OnFloats.greedy_heuristic huge_problem = Raise OverflowError /\
   ((exists res, OnFloats.greedy_heuristic huge_problem = Ret res) \/
    (OnFloats.greedy_heuristic huge_problem = Raise OverflowError /\
     unconvertible_time huge_problem))).
Proof.
  assert (Htie : well_dimensioned tie_problem).
  { split; [| compute_done | compute_done].
    intros [|[|i]] r Hr; simpl in Hr; by simplify_eq. }
  assert (Hhuge : well_dimensioned huge_problem).
  { split; [| compute_done | compute_done].
    intros [|i] r Hr; simpl in Hr; by simplify_eq. }
  split; [split; [exact Htie |] | split; [exact Hhuge | split; [vm_compute; reflexivity |]]].
  - apply (greedy_heuristic_returns_unless_a_time_overflows tie_problem Htie).
  - apply (greedy_heuristic_returns_unless_a_time_overflows huge_problem Hhuge).
Defined.

(** ** Instances that the scheduler completes, on doubles *)

Lemma float_all_scheduled_true st predecessors :
  (forall q, q ∈ predecessors -> q ∈ OnFloats.State.scheduled_task_ids st) ->
  OnFloats.all_scheduled st predecessors = true.
Proof.
  intros H. unfold OnFloats.all_scheduled. apply forallb_forall.
  intros q Hq%list_elem_of_In. apply bool_decide_eq_true. by apply H.
Qed.

Lemma float_candidate_None problem st t :
  OnFloats.candidate problem st t = Ret None ->
  OnFloats.all_scheduled st (predecessors_of problem t) = false \/
  exists res, find_minimal_coalition t (ProblemInstance.robots problem) = Ret res /\
              truthy res = false.
Proof.
  unfold OnFloats.candidate.
  destruct (OnFloats.all_scheduled st (predecessors_of problem t)); cbn [negb]; [| by left].
  intros H. right. apply obind_Ret in H as (res & Hres & H). exists res. split; [done |].
  destruct (truthy res); [| done]. exfalso.
  apply obind_Ret in H as (arrivals & _ & H). apply obind_Ret in H as (ready & _ & H).
  apply obind_Ret in H as (exec & _ & H). discriminate H.
Qed.

(** With precedence constraints that follow a ranking and skills that
    cover the requirements, the pending task of least rank has a
    candidate. *)
Lemma float_least_pending_has_candidate problem rank st :
  coverable problem ->
  ranked_precedence problem rank ->
  float_invariant problem st ->
  OnFloats.State.tasks_to_schedule st <> [] ->
  exists t, t ∈ OnFloats.State.tasks_to_schedule st /\
            OnFloats.candidate problem st t <> Ret None.
Proof.
  intros Hcov Hrank Hinv Hne.
  destruct (least_rank_exists (fun t => rank (Task.id t)) _ Hne) as (t & Ht & Hleast).
  exists t. split; [done |]. intros Hnone.
  pose proof (fi_pending _ _ Hinv t Ht) as Hreal.
  apply float_candidate_None in Hnone as [Hwait | (res & Hres & Hfalse)].
  - rewrite float_all_scheduled_true in Hwait; [done |]. intros q Hq.
    unfold ranked_precedence in Hrank. rewrite Forall_forall in Hrank.
    specialize (Hrank t Hreal). rewrite Forall_forall in Hrank.
    destruct (fi_scheduled _ _ Hinv) as [Hzero Hdone].
    destruct (Hrank q Hq) as [-> | [Hq' Hlower]]; [done |].
    apply list_elem_of_fmap in Hq' as (t' & -> & Ht').
    destruct (Hdone t' Ht') as [Hpending | [Hid _]]; [| done].
    specialize (Hleast t' Hpending). simpl in Hleast. lia.
  - rewrite (coverable_coalition _ _ _ Hcov Hreal Hres) in Hfalse. done.
Qed.

(** X18. On an instance whose dimensions fit, where every real task
    requires some skill and each required skill is the skill of some robot,
    and whose precedence constraints follow a ranking of the tasks (no
    cycle, no predecessor other than task 0 and the real tasks), the
    heuristic schedules every real task unless a time overflows.  In the
    arithmetic of doubles the run ends in one of three ways: no task is
    left pending, nothing is printed and every real task has an entry in
    the returned schedule of some robot; or the loop is left through its
    [break], with the warning, at a round in which a pending task had a
    candidate whose finish time was not below [float('inf')]; or
    [OverflowError] is raised for an [int] time beyond the range of the
    doubles. *)
Theorem greedy_heuristic_schedules_every_task_unless_overflow problem rank :
  well_dimensioned problem ->
  coverable problem ->
  ranked_precedence problem rank ->
  (exists st res,
     OnFloats.run problem = Ret st /\
     OnFloats.greedy_heuristic problem = Ret res /\
     ((OnFloats.State.tasks_to_schedule st = [] /\
       OnFloats.State.stdout st = [] /\
       forall t, t ∈ ProblemInstance.get_real_tasks problem ->
         exists i entries e,
           OnFloats.Result.robot_schedules res !! i = Some entries /\
           e ∈ entries /\ OnFloats.Entry.task e = Task.id t) \/
      (OnFloats.State.tasks_to_schedule st <> [] /\
       OnFloats.State.stdout st = [warning] /\
       stopped_by_overflow problem st))) \/
  (OnFloats.greedy_heuristic problem = Raise OverflowError /\ unconvertible_time problem).
Proof.
  intros Hdim Hcov Hrank. pose proof (float_run_cases problem Hdim) as H.
  destruct (OnFloats.run problem) as [st | e |] eqn:Hrun; [| | done].
  - left. destruct (float_greedy_heuristic_of_run _ _ Hrun) as (res & Hres & _ & _ & Hs).
    exists st, res. split_and!; [done.. |].
    destruct H as [Hinv [[Hdone Hout] | (st0 & Hinv0 & Hne & Hnone & -> & Hout)]].
    + left. split_and!; [done.. |]. intros t Ht. rewrite Hs.
      destruct (fi_scheduled _ _ Hinv) as [_ Hall].
      destruct (Hall t Ht) as [Hpending | [_ Hentry]]; [| done].
      rewrite Hdone in Hpending. by apply elem_of_nil in Hpending.
    + right. destruct (float_abandon_fields st0) as (_ & _ & Hsame & _).
      rewrite Hsame. split_and!; [done.. |].
      destruct (float_least_pending_has_candidate _ _ _ Hcov Hrank Hinv0 Hne)
        as (t & Ht & Hsome).
      destruct (Hnone t Ht) as (c & Hc & Hnot).
      destruct c as [a |]; [| done].
      exists st0, t, a. split_and!; [done.. |]. by apply Hnot.
  - right. destruct H as [-> Hbig]. split; [| done].
    unfold OnFloats.greedy_heuristic. by rewrite Hrun.
Qed.

Lemma greedy_heuristic_schedules_every_task_unless_overflow_witness :
  (well_dimensioned chain_problem /\
   coverable chain_problem /\
   ranked_precedence chain_problem (fun i => i) /\
   (exists st, OnFloats.run chain_problem = Ret st /\
               OnFloats.State.tasks_to_schedule st = []) /\
   ((exists st res,
       OnFloats.run chain_problem = Ret st /\
       OnFloats.greedy_heuristic chain_problem = Ret res /\
       ((OnFloats.State.tasks_to_schedule st = [] /\
         OnFloats.State.stdout st = [] /\
         forall t, t ∈ ProblemInstance.get_real_tasks chain_problem ->
           exists i entries e,
             OnFloats.Result.robot_schedules res !! i = Some entries /\
             e ∈ entries /\ OnFloats.Entry.task e = Task.id t) \/
        (OnFloats.State.tasks_to_schedule st <> [] /\
         OnFloats.State.stdout st = [warning] /\
         stopped_by_overflow chain_problem st))) \/
    (OnFloats.greedy_heuristic chain_problem = Raise OverflowError /\
     unconvertible_time chain_problem))) /\
  (well_dimensioned overflow_problem /\
   coverable overflow_problem /\
   ranked_precedence overflow_problem (fun i => i) /\
   (exists st, OnFloats.run overflow_problem = Ret st /\
               OnFloats.State.tasks_to_schedule st = [overflow_task]) /\
   ((exists st res,
       OnFloats.run overflow_problem = Ret st /\
       OnFloats.greedy_heuristic overflow_problem = Ret res /\
       ((OnFloats.State.tasks_to_schedule st = [] /\
         OnFloats.State.stdout st = [] /\
         forall t, t ∈ ProblemInstance.get_real_tasks overflow_problem ->
           exists i entries e,
             OnFloats.Result.robot_schedules res !! i = Some entries /\
             e ∈ entries /\ OnFloats.Entry.task e = Task.id t) \/
        (OnFloats.State.tasks_to_schedule st <> [] /\
         OnFloats.State.stdout st = [warning] /\
         stopped_by_overflow overflow_problem st))) \/
    (OnFloats.greedy_heuristic overflow_problem = Raise OverflowError /\
     unconvertible_time overflow_problem))).
Proof.
  assert (Hchain : well_dimensioned chain_problem).
  { split; [exact chain_ids_are_positions | compute_done | compute_done]. }
  assert (Hover : well_dimensioned overflow_problem).
  { split; [| compute_done | compute_done].
    intros [|i] r Hr; simpl in Hr; by simplify_eq. }
  assert (Hcov : coverable chain_problem) by compute_done.
  assert (Hrank : ranked_precedence chain_problem (fun i => i)) by compute_done.
  assert (Hcov' : coverable overflow_problem) by compute_done.
  assert (Hrank' : ranked_precedence overflow_problem (fun i => i)) by compute_done.
  split.
  - split; [exact Hchain |]. split; [exact Hcov |]. split; [exact Hrank |].
    split; [eexists; split; [vm_compute; reflexivity | reflexivity] |].
    apply (greedy_heuristic_schedules_every_task_unless_overflow
             chain_problem (fun i => i) Hchain Hcov Hrank).
  - split; [exact Hover |]. split; [exact Hcov' |]. split; [exact Hrank' |].
    split; [eexists; split; [vm_compute; reflexivity | reflexivity] |].
    apply (greedy_heuristic_schedules_every_task_unless_overflow
             overflow_problem (fun i => i) Hover Hcov' Hrank').
Defined.

(** ** From the raw data to the schedule, on doubles *)


